(** * Task-execution substrate of chat-with-youtube

    A shallow embedding of the worker pool ([src/utils/workerPool.ts]),
    the batch processors ([src/lib/youtube/batchProcessor.ts] and the
    chunk-oriented [BatchProcessor]) and the two caches ([Cache] and
    [CacheManager]), with the properties the specification states about
    them.

    JavaScript objects that are mutated in place become explicit state
    records that every operation takes and returns.  Everything a
    function reads from its environment ([Date.now()], the reply of a
    worker thread, the outcome of a user callback) is an argument. *)

From Stdlib Require Import ZArith List Lia Bool.
From stdpp Require Import gmap strings list pretty sorting.

(** ** JavaScript idioms shared by the components *)

(** [x || d] on an optional count: [undefined] and [0] are falsy. *)
Definition or_default (x : option nat) (d : nat) : nat :=
  match x with
  | Some (S n) => S n
  | _ => d
  end.

(** The same on a duration in milliseconds. *)
Definition or_default_ms (x : option Z) (d : Z) : Z :=
  match x with
  | Some 0%Z | None => d
  | Some v => v
  end.

(** [x ?? d]: only [undefined] is replaced. *)
Definition nullish {A : Type} (x : option A) (d : A) : A :=
  match x with
  | Some v => v
  | None => d
  end.

(** [Array.prototype.indexOf] followed by [splice(index, 1)] when the
    index is not [-1]: the first occurrence is removed. *)
Fixpoint remove_first (w : nat) (l : list nat) : list nat :=
  match l with
  | [] => []
  | x :: r => if Nat.eqb x w then r else x :: remove_first w r
  end.

(** [Array.prototype.slice(i, j)]. *)
Definition slice {A : Type} (i j : nat) (l : list A) : list A :=
  take (j - i) (drop i l).

(** * The worker pool *)

Module WorkerPool.

(** A [Worker] object is identified by the order in which it was
    constructed. *)
Definition Worker := nat.

(** [WorkerPoolOptions] as the caller passes it: every field optional;
    the numbers of workers are natural numbers and the timeouts integer
    numbers of milliseconds. *)
Record WorkerPoolOptions := {
  opt_minWorkers : option nat;
  opt_maxWorkers : option nat;
  opt_idleTimeout : option Z;
  opt_taskTimeout : option Z
}.

(** [this.options] after the constructor filled the defaults in. *)
Record Options := {
  minWorkers : nat;
  maxWorkers : nat;
  idleTimeout : Z;
  taskTimeout : Z
}.

Definition normalise (o : WorkerPoolOptions) : Options :=
  {| minWorkers := or_default (opt_minWorkers o) 2;
     maxWorkers := or_default (opt_maxWorkers o) 4;
     idleTimeout := or_default_ms (opt_idleTimeout o) 60000;
     taskTimeout := or_default_ms (opt_taskTimeout o) 30000 |}.

(** [WorkerTask]; the [resolve] and [reject] closures of the task are
    rendered by the [settled] log of the pool, which records the calls
    made of them. *)
Record WorkerTask := {
  id : string;
  type : string;
  data : Z;
  startTime : Z
}.

Inductive Settlement :=
| Resolved (result : option Z)
| Rejected (reason : string).

(** The message a worker posts back: [{ taskId, result, error }]. *)
Record Reply := {
  taskId : string;
  result : option Z;
  error : option string
}.

Record Metrics := {
  completedTasks : nat;
  failedTasks : nat;
  totalProcessingTime : Z
}.

(** The fields of the class, followed by the part of the environment the
    class talks to: how many [Worker] objects were constructed, which
    messages were posted to workers and are not answered yet, on which
    workers [terminate()] was called, which calls of the [resolve] and
    [reject] closures of the tasks were made (a promise is settled by
    the first call made for it and ignores the ones that follow), and
    how many iterations of [initialize] are still to run. *)
Record Pool := {
  options : Options;
  workers : list Worker;
  idleWorkers : list Worker;
  taskQueue : list WorkerTask;
  workerScripts : gmap string string;
  metrics : Metrics;
  spawned : nat;
  inbox : list (Worker * string);
  terminated : list Worker;
  settled : list (string * Settlement);
  initPending : nat
}.

Definition set_workers (v : list Worker) (p : Pool) : Pool :=
  {| options := options p; workers := v; idleWorkers := idleWorkers p;
     taskQueue := taskQueue p; workerScripts := workerScripts p;
     metrics := metrics p; spawned := spawned p; inbox := inbox p;
     terminated := terminated p; settled := settled p;
     initPending := initPending p |}.

Definition set_idleWorkers (v : list Worker) (p : Pool) : Pool :=
  {| options := options p; workers := workers p; idleWorkers := v;
     taskQueue := taskQueue p; workerScripts := workerScripts p;
     metrics := metrics p; spawned := spawned p; inbox := inbox p;
     terminated := terminated p; settled := settled p;
     initPending := initPending p |}.

Definition set_taskQueue (v : list WorkerTask) (p : Pool) : Pool :=
  {| options := options p; workers := workers p; idleWorkers := idleWorkers p;
     taskQueue := v; workerScripts := workerScripts p;
     metrics := metrics p; spawned := spawned p; inbox := inbox p;
     terminated := terminated p; settled := settled p;
     initPending := initPending p |}.

Definition set_workerScripts (v : gmap string string) (p : Pool) : Pool :=
  {| options := options p; workers := workers p; idleWorkers := idleWorkers p;
     taskQueue := taskQueue p; workerScripts := v;
     metrics := metrics p; spawned := spawned p; inbox := inbox p;
     terminated := terminated p; settled := settled p;
     initPending := initPending p |}.

Definition set_metrics (v : Metrics) (p : Pool) : Pool :=
  {| options := options p; workers := workers p; idleWorkers := idleWorkers p;
     taskQueue := taskQueue p; workerScripts := workerScripts p;
     metrics := v; spawned := spawned p; inbox := inbox p;
     terminated := terminated p; settled := settled p;
     initPending := initPending p |}.

Definition set_spawned (v : nat) (p : Pool) : Pool :=
  {| options := options p; workers := workers p; idleWorkers := idleWorkers p;
     taskQueue := taskQueue p; workerScripts := workerScripts p;
     metrics := metrics p; spawned := v; inbox := inbox p;
     terminated := terminated p; settled := settled p;
     initPending := initPending p |}.

Definition set_inbox (v : list (Worker * string)) (p : Pool) : Pool :=
  {| options := options p; workers := workers p; idleWorkers := idleWorkers p;
     taskQueue := taskQueue p; workerScripts := workerScripts p;
     metrics := metrics p; spawned := spawned p; inbox := v;
     terminated := terminated p; settled := settled p;
     initPending := initPending p |}.

Definition set_terminated (v : list Worker) (p : Pool) : Pool :=
  {| options := options p; workers := workers p; idleWorkers := idleWorkers p;
     taskQueue := taskQueue p; workerScripts := workerScripts p;
     metrics := metrics p; spawned := spawned p; inbox := inbox p;
     terminated := v; settled := settled p;
     initPending := initPending p |}.

Definition set_settled (v : list (string * Settlement)) (p : Pool) : Pool :=
  {| options := options p; workers := workers p; idleWorkers := idleWorkers p;
     taskQueue := taskQueue p; workerScripts := workerScripts p;
     metrics := metrics p; spawned := spawned p; inbox := inbox p;
     terminated := terminated p; settled := v;
     initPending := initPending p |}.

Definition set_initPending (v : nat) (p : Pool) : Pool :=
  {| options := options p; workers := workers p; idleWorkers := idleWorkers p;
     taskQueue := taskQueue p; workerScripts := workerScripts p;
     metrics := metrics p; spawned := spawned p; inbox := inbox p;
     terminated := terminated p; settled := settled p;
     initPending := v |}.

(** [task.resolve(result)] and [task.reject(reason)]: the call is
    logged, whether or not the promise was settled before. *)
Definition resolve (t : WorkerTask) (r : option Z) (p : Pool) : Pool :=
  set_settled (settled p ++ [(id t, Resolved r)]) p.

Definition reject (t : WorkerTask) (reason : string) (p : Pool) : Pool :=
  set_settled (settled p ++ [(id t, Rejected reason)]) p.

(** [worker.postMessage({ taskId, scriptPath, data })]: the worker starts
    to execute the task. *)
Definition postMessage (w : Worker) (t : WorkerTask) (p : Pool) : Pool :=
  set_inbox (inbox p ++ [(w, id t)]) p.

(** [worker.terminate()]. *)
Definition terminate (w : Worker) (p : Pool) : Pool :=
  set_terminated (terminated p ++ [w]) p.

(** [createWorker]: the new worker is pushed on [idleWorkers]; the
    function has no other effect on the fields of the pool.  Its body
    contains no [await], so it runs to its end when it is called. *)
Definition createWorker (p : Pool) : Pool :=
  let worker := spawned p in
  set_idleWorkers (idleWorkers p ++ [worker]) (set_spawned (S worker) p).

Definition truthy_string (s : option string) : bool :=
  match s with
  | Some s => negb (String.eqb s ""%string)
  | None => false
  end.

(** [processNextTask]: the task is read at index 0 of the queue and is
    not taken out of it; the timeout set at the end is the event
    [ETimeout] below. *)
Definition processNextTask (p : Pool) : Pool :=
  match taskQueue p, last (idleWorkers p) with
  | task :: _, Some worker =>
      let p := set_idleWorkers (removelast (idleWorkers p)) p in
      let scriptPath := workerScripts p !! type task in
      if truthy_string scriptPath
      then postMessage worker task p
      else reject task
             (String.append "No worker script registered for task type: " (type task)) p
  | _, _ => p
  end.

Definition removeWorker (worker : Worker) (p : Pool) : Pool :=
  set_idleWorkers (remove_first worker (idleWorkers p))
    (set_workers (remove_first worker (workers p)) p).

Definition handleWorkerError (worker : Worker) (p : Pool) : Pool :=
  createWorker (removeWorker worker p).

Definition handleWorkerExit (worker : Worker) (p : Pool) : Pool :=
  let p := removeWorker worker p in
  if length (workers p) <? minWorkers (options p) then createWorker p else p.

(** The loop of [cleanupIdleWorkers]; every iteration pops one idle
    worker, so [length idleWorkers] iterations are enough. *)
Fixpoint cleanup_loop (fuel : nat) (p : Pool) : Pool :=
  match fuel with
  | 0 => p
  | S fuel =>
      if (minWorkers (options p) <? length (workers p))
         && (0 <? length (idleWorkers p))
      then
        match last (idleWorkers p) with
        | Some worker =>
            let p := set_idleWorkers (removelast (idleWorkers p)) p in
            cleanup_loop fuel (removeWorker worker (terminate worker p))
        | None => p
        end
      else p
  end.

Definition cleanupIdleWorkers (p : Pool) : Pool :=
  cleanup_loop (length (idleWorkers p)) p.

Definition registerWorkerScript (ty scriptPath : string) (p : Pool) : Pool :=
  set_workerScripts (<[ty := scriptPath]> (workerScripts p)) p.

(** [executeTask(type, data)]; [tid] is the identifier drawn with
    [Math.random()] and [now] the reading of [performance.now()]. *)
Definition executeTask (tid ty : string) (d : Z) (now : Z) (p : Pool) : Pool :=
  let task := {| id := tid; type := ty; data := d; startTime := now |} in
  let p := set_taskQueue (taskQueue p ++ [task]) p in
  let p :=
    if (length (idleWorkers p) =? 0)
       && (length (workers p) <? maxWorkers (options p))
    then createWorker p else p in
  processNextTask p.

(** The ['message'] handler installed by [createWorker] on [worker]. *)
Definition onMessage (worker : Worker) (m : Reply) (now : Z) (p : Pool) : Pool :=
  match List.find (fun t => String.eqb (id t) (taskId m)) (taskQueue p) with
  | Some task =>
      let processingTime := (now - startTime task)%Z in
      let mt := metrics p in
      let p := set_metrics
                 {| completedTasks := completedTasks mt;
                    failedTasks := failedTasks mt;
                    totalProcessingTime := (totalProcessingTime mt + processingTime)%Z |} p in
      let mt := metrics p in
      let p :=
        if truthy_string (error m)
        then reject task (default ""%string (error m))
               (set_metrics
                  {| completedTasks := completedTasks mt;
                     failedTasks := S (failedTasks mt);
                     totalProcessingTime := totalProcessingTime mt |} p)
        else resolve task (result m)
               (set_metrics
                  {| completedTasks := S (completedTasks mt);
                     failedTasks := failedTasks mt;
                     totalProcessingTime := totalProcessingTime mt |} p) in
      let p := set_taskQueue
                 (List.filter (fun t => negb (String.eqb (id t) (taskId m))) (taskQueue p)) p in
      let p := set_idleWorkers (idleWorkers p ++ [worker]) p in
      processNextTask p
  | None => p
  end.

(** [splice(taskIndex, 1)] at the index [findIndex] returned. *)
Fixpoint remove_task (tid : string) (q : list WorkerTask) : list WorkerTask :=
  match q with
  | [] => []
  | t :: r => if String.eqb (id t) tid then r else t :: remove_task tid r
  end.

(** The callback of the timeout set by [processNextTask] for the task
    [tid] sent to [worker]. *)
Definition onTimeout (tid : string) (worker : Worker) (p : Pool) : Pool :=
  match List.find (fun t => String.eqb (id t) tid) (taskQueue p) with
  | Some task =>
      let p := set_taskQueue (remove_task tid (taskQueue p)) p in
      let mt := metrics p in
      let p := set_metrics
                 {| completedTasks := completedTasks mt;
                    failedTasks := S (failedTasks mt);
                    totalProcessingTime := totalProcessingTime mt |} p in
      handleWorkerError worker (reject task "Task timeout"%string p)
  | None => p
  end.

(** [getMetrics]; [averageProcessingTime] is a floating-point quotient
    and is left out. *)
Record WorkerMetrics := {
  activeWorkers : Z;
  idleWorkersCount : nat;
  wm_completedTasks : nat;
  wm_failedTasks : nat;
  wm_totalProcessingTime : Z
}.

Definition getMetrics (p : Pool) : WorkerMetrics :=
  {| activeWorkers := Z.of_nat (length (workers p)) - Z.of_nat (length (idleWorkers p));
     idleWorkersCount := length (idleWorkers p);
     wm_completedTasks := completedTasks (metrics p);
     wm_failedTasks := failedTasks (metrics p);
     wm_totalProcessingTime := totalProcessingTime (metrics p) |}.

(** What [shutdown] does once its polling loop has seen an empty queue. *)
Definition shutdown_finish (p : Pool) : Pool :=
  let p := fold_left (fun p w => terminate w p) (workers p) p in
  set_idleWorkers [] (set_workers [] p).

(** [shutdown]: [None] while the queue is not empty (the loop sleeps
    another 100 ms). *)
Definition shutdown (p : Pool) : option Pool :=
  match taskQueue p with
  | [] => Some (shutdown_finish p)
  | _ :: _ => None
  end.

(** The constructor: [initialize()] is called without [await], so it
    runs up to the [await] of its first iteration and the rest of the
    loop runs later, one iteration per [EInit]. *)
Definition constructor (o : WorkerPoolOptions) : Pool :=
  let p := {| options := normalise o; workers := []; idleWorkers := [];
              taskQueue := []; workerScripts := ∅;
              metrics := {| completedTasks := 0; failedTasks := 0;
                            totalProcessingTime := 0 |};
              spawned := 0; inbox := []; terminated := []; settled := [];
              initPending := minWorkers (normalise o) |} in
  match initPending p with
  | 0 => p
  | S n => set_initPending n (createWorker p)
  end.

Definition initialize_step (p : Pool) : Pool :=
  match initPending p with
  | 0 => p
  | S n => set_initPending n (createWorker p)
  end.

(** What can happen to a pool. *)
Inductive Event :=
| EInit
| ERegister (ty scriptPath : string)
| EExecute (tid ty : string) (d : Z) (now : Z)
| EMessage (worker : Worker) (m : Reply) (now : Z)
| ETimeout (tid : string) (worker : Worker)
| EError (worker : Worker)
| EExit (worker : Worker)
| ECleanup
| EShutdown.

(** A worker that answered or exited is no longer executing. *)
Fixpoint remove_posted (w : Worker) (tid : string) (l : list (Worker * string))
  : list (Worker * string) :=
  match l with
  | [] => []
  | (w', t') :: r =>
      if Nat.eqb w' w && String.eqb t' tid then r
      else (w', t') :: remove_posted w tid r
  end.

Definition step (e : Event) (p : Pool) : Pool :=
  match e with
  | EInit => initialize_step p
  | ERegister ty path => registerWorkerScript ty path p
  | EExecute tid ty d now => executeTask tid ty d now p
  | EMessage w m now =>
      onMessage w m now (set_inbox (remove_posted w (taskId m) (inbox p)) p)
  | ETimeout tid w => onTimeout tid w p
  | EError w => handleWorkerError w p
  | EExit w =>
      handleWorkerExit w
        (set_inbox (List.filter (fun x => negb (Nat.eqb (fst x) w)) (inbox p)) p)
  | ECleanup =>
      match initPending p with
      | 0 => cleanupIdleWorkers p
      | S _ => p
      end
  | EShutdown => default p (shutdown p)
  end.

(** The environment only delivers what the pool asked for: a reply comes
    from a worker that was sent that task. *)
Definition enabled (p : Pool) (e : Event) : Prop :=
  match e with
  | EMessage w m _ => (w, taskId m) ∈ inbox p
  | ETimeout _ w | EError w | EExit w => w < spawned p
  | _ => True
  end.

Inductive reachable : Pool -> Prop :=
| reachable_new o : reachable (constructor o)
| reachable_step p e : reachable p -> enabled p e -> reachable (step e p).

Definition run (es : list Event) (p : Pool) : Pool :=
  fold_left (fun p e => step e p) es p.

(** The workers that were sent a task and did not answer yet. *)
Definition busyWorkers (p : Pool) : list Worker := map fst (inbox p).

(** The workers a task is being executed by. *)
Definition executing (tid : string) (p : Pool) : list Worker :=
  map fst (List.filter (fun x => String.eqb (snd x) tid) (inbox p)).

(** The workers that were constructed and on which [terminate()] was
    never called. *)
Definition notTerminated (p : Pool) : list Worker :=
  List.filter (fun w => negb (existsb (Nat.eqb w) (terminated p))) (seq 0 (spawned p)).

(** How the idle list, the executing workers and the number of workers
    constructed relate in a pool that is driven by its environment. *)
Definition consistent (idle busy : list Worker) (n : nat) : Prop :=
  NoDup idle /\ NoDup busy /\
  (forall w, w ∈ idle -> w < n) /\
  (forall w, w ∈ busy -> w < n) /\
  (forall w, w ∈ idle -> w ∉ busy).

Definition wf (p : Pool) : Prop :=
  consistent (idleWorkers p) (busyWorkers p) (spawned p).

(** Pools used as examples: [new WorkerPool()] and
    [new WorkerPool({ minWorkers: 1, maxWorkers: 1 })], once
    [initialize] has run, with a script registered for the type ["t"]. *)
Definition defaults : WorkerPoolOptions :=
  {| opt_minWorkers := None; opt_maxWorkers := None;
     opt_idleTimeout := None; opt_taskTimeout := None |}.

Definition one_worker : WorkerPoolOptions :=
  {| opt_minWorkers := Some 1; opt_maxWorkers := Some 1;
     opt_idleTimeout := None; opt_taskTimeout := None |}.

Definition default_pool : Pool :=
  run [EInit; ERegister "t" "task.js"] (constructor defaults).

Definition single_pool : Pool :=
  run [ERegister "t" "task.js"] (constructor one_worker).

(** The worker side, [workerWrapper.js]: what importing the script and
    running its default export on the data comes to, and the one
    message the wrapper posts back for it. *)
Inductive ScriptOutcome :=
| Returns (r : option Z)
| ThrowsError (message : string)
| ThrowsOther.

Definition workerWrapper (tid : string) (o : ScriptOutcome) : Reply :=
  match o with
  | Returns r => {| taskId := tid; result := r; error := None |}
  | ThrowsError message => {| taskId := tid; result := None; error := Some message |}
  | ThrowsOther => {| taskId := tid; result := None; error := Some "Unknown error"%string |}
  end.

(** How many calls of [resolve] the log holds, and how many calls of
    [reject]. *)
Fixpoint resolutions (l : list (string * Settlement)) : nat :=
  match l with
  | [] => 0
  | (_, Resolved _) :: r => S (resolutions r)
  | (_, Rejected _) :: r => resolutions r
  end.

Fixpoint rejections (l : list (string * Settlement)) : nat :=
  match l with
  | [] => 0
  | (_, Resolved _) :: r => rejections r
  | (_, Rejected _) :: r => S (rejections r)
  end.

(** The state of the promise of the task [tid], when no other task of
    the log has that identifier: the first call made for it settles
    it. *)
Fixpoint promise (tid : string) (l : list (string * Settlement)) : option Settlement :=
  match l with
  | [] => None
  | (t, s) :: r => if String.eqb t tid then Some s else promise tid r
  end.

(** The calls of [executeTask] among the events. *)
Definition is_submission (e : Event) : bool :=
  match e with
  | EExecute _ _ _ _ => true
  | _ => false
  end.

(** What the counters of the metrics say of the calls of [resolve] and
    [reject] the pool made. *)
Definition counted_settlements (p : Pool) : Prop :=
  completedTasks (metrics p) = resolutions (settled p) /\
  failedTasks (metrics p) <= rejections (settled p).

End WorkerPool.

(** * The batch processor of [src/lib/youtube/batchProcessor.ts] *)

Module BatchProcessor.

Record BatchProcessorOptions := {
  opt_batchSize : option nat;
  opt_maxRetries : option nat;
  opt_retryDelay : option Z;
  opt_maxConcurrent : option nat
}.

Record ProcessingMetrics := {
  totalItems : nat;
  processedItems : nat;
  failedItems : nat;
  retries : nat;
  startTime : Z;
  endTime : option Z
}.

(** How a promise settles. *)
Inductive Completion :=
| Fulfilled
| Thrown.

Section Run.

(** The items of a run, and the per-item function: [processor item n] is
    whether the call made for [item] with [retryCount = n] is fulfilled
    ([true]) or rejected ([false]). *)
Context {T : Type}.
Variable processor : T -> nat -> bool.

(** What the run does to its environment: the calls of [processor] and
    the [setTimeout] delays awaited between them. *)
Inductive Action :=
| Call (item : T) (retryCount : nat)
| Wait (item : T) (ms : Z).

(** The fields of the class and the actions performed so far. *)
Record State := {
  batchSize : nat;
  maxRetries : nat;
  retryDelay : Z;
  maxConcurrent : nat;
  metrics : gmap string ProcessingMetrics;
  trace : list Action
}.

Definition constructor (o : BatchProcessorOptions) : State :=
  {| batchSize := nullish (opt_batchSize o) 10;
     maxRetries := nullish (opt_maxRetries o) 3;
     retryDelay := nullish (opt_retryDelay o) 1000%Z;
     maxConcurrent := nullish (opt_maxConcurrent o) 5;
     metrics := ∅;
     trace := [] |}.

Definition set_metrics (m : gmap string ProcessingMetrics) (s : State) : State :=
  {| batchSize := batchSize s; maxRetries := maxRetries s;
     retryDelay := retryDelay s; maxConcurrent := maxConcurrent s;
     metrics := m; trace := trace s |}.

Definition record (a : Action) (s : State) : State :=
  {| batchSize := batchSize s; maxRetries := maxRetries s;
     retryDelay := retryDelay s; maxConcurrent := maxConcurrent s;
     metrics := metrics s; trace := trace s ++ [a] |}.

(** [const metrics = this.metrics.get(batchId); if (metrics) metrics.f++]:
    the object stored in the map is updated in place, and nothing
    happens when the run has no entry. *)
Definition incr_processed (m : ProcessingMetrics) : ProcessingMetrics :=
  {| totalItems := totalItems m; processedItems := S (processedItems m);
     failedItems := failedItems m; retries := retries m;
     startTime := startTime m; endTime := endTime m |}.

Definition incr_failed (m : ProcessingMetrics) : ProcessingMetrics :=
  {| totalItems := totalItems m; processedItems := processedItems m;
     failedItems := S (failedItems m); retries := retries m;
     startTime := startTime m; endTime := endTime m |}.

Definition incr_retries (m : ProcessingMetrics) : ProcessingMetrics :=
  {| totalItems := totalItems m; processedItems := processedItems m;
     failedItems := failedItems m; retries := S (retries m);
     startTime := startTime m; endTime := endTime m |}.

Definition stamp_end (now : Z) (m : ProcessingMetrics) : ProcessingMetrics :=
  {| totalItems := totalItems m; processedItems := processedItems m;
     failedItems := failedItems m; retries := retries m;
     startTime := startTime m; endTime := Some now |}.

Definition update (f : ProcessingMetrics -> ProcessingMetrics) (batchId : string)
  (s : State) : State :=
  set_metrics (alter f batchId (metrics s)) s.

(** [processWithRetry]; the recursive call is made at most [maxRetries]
    times, so that much [fuel] is enough ([None] is never returned then). *)
Fixpoint processWithRetry (fuel : nat) (item : T) (batchId : string)
  (retryCount : nat) (s : State) : option (Completion * State) :=
  let s := record (Call item retryCount) s in
  if processor item retryCount then
    Some (Fulfilled, update incr_processed batchId s)
  else if retryCount <? maxRetries s then
    let s := update incr_retries batchId s in
    let s := record (Wait item (retryDelay s)) s in
    match fuel with
    | 0 => None
    | S fuel => processWithRetry fuel item batchId (S retryCount) s
    end
  else
    Some (Thrown, update incr_failed batchId s).

(** [Promise.all] over promises that were all started: it is fulfilled
    when each of them is, rejected as soon as one of them is, and the
    others go on to their end in both cases.  The counters commute, so
    the promises are run here one after the other; the state returned
    is the one reached when all of them have settled. *)
Definition both (a b : Completion) : Completion :=
  match a, b with
  | Fulfilled, Fulfilled => Fulfilled
  | _, _ => Thrown
  end.

Fixpoint processBatch (batch : list T) (batchId : string) (s : State)
  : option (Completion * State) :=
  match batch with
  | [] => Some (Fulfilled, s)
  | item :: rest =>
      match processWithRetry (maxRetries s) item batchId 0 s with
      | None => None
      | Some (c, s) =>
          match processBatch rest batchId s with
          | None => None
          | Some (c', s) => Some (both c c', s)
          end
      end
  end.

(** [createBatches]: [None] when the loop does not end (a [batchSize] of
    [0] on a collection that is not empty). *)
Fixpoint createBatches_loop (fuel : nat) (size : nat) (items : list T) (i : nat)
  : option (list (list T)) :=
  if i <? length items then
    match fuel with
    | 0 => None
    | S fuel =>
        match createBatches_loop fuel size items (i + size) with
        | None => None
        | Some batches => Some (slice i (i + size) items :: batches)
        end
    end
  else Some [].

Definition createBatches (s : State) (items : list T) : option (list (list T)) :=
  createBatches_loop (length items) (batchSize s) items 0.

(** The batches of one round: [Promise.all(currentBatches.map(...))]. *)
Fixpoint processBatches (batches : list (list T)) (batchId : string) (s : State)
  : option (Completion * State) :=
  match batches with
  | [] => Some (Fulfilled, s)
  | batch :: rest =>
      match processBatch batch batchId s with
      | None => None
      | Some (c, s) =>
          match processBatches rest batchId s with
          | None => None
          | Some (c', s) => Some (both c c', s)
          end
      end
  end.

(** The [for] loop of [process]: a rejected round throws out of the
    loop, and the rounds after it are not started. *)
Fixpoint rounds (fuel : nat) (batches : list (list T)) (batchId : string)
  (i : nat) (s : State) : option (Completion * State) :=
  if i <? length batches then
    match fuel with
    | 0 => None
    | S fuel =>
        let currentBatches := slice i (i + maxConcurrent s) batches in
        match processBatches currentBatches batchId s with
        | None => None
        | Some (Thrown, s) => Some (Thrown, s)
        | Some (Fulfilled, s) => rounds fuel batches batchId (i + maxConcurrent s) s
        end
    end
  else Some (Fulfilled, s).

(** [process(items, processor, batchId)]: [t0] and [t1] are the readings
    of [Date.now()] at the start and in the [finally] block.  The result
    is [None] when the promise never settles, [Some (Fulfilled, _)] when
    it resolves and [Some (Thrown, _)] when it rejects; the state is the
    one reached once the items that were started have settled.  For a
    run that resolves this is the state at the moment it resolves.  A
    run rejects at the first item that is given up, while the other
    items of the round may still be retrying: the state is then the one
    reached when these have finished too, which is the state at the
    moment of the rejection when the items are taken one at a time
    ([batchSize = 1] and [maxConcurrent = 1]). *)
Definition process (items : list T) (batchId : string) (t0 t1 : Z) (s : State)
  : option (Completion * State) :=
  let s := set_metrics
             (<[batchId := {| totalItems := length items; processedItems := 0;
                              failedItems := 0; retries := 0;
                              startTime := t0; endTime := None |}]> (metrics s)) s in
  match createBatches s items with
  | None => None
  | Some batches =>
      match rounds (length batches) batches batchId 0 s with
      | None => None
      | Some (c, s) => Some (c, update (stamp_end t1) batchId s)
      end
  end.

Definition getMetrics (batchId : string) (s : State) : option ProcessingMetrics :=
  metrics s !! batchId.

Definition clearMetrics (batchId : string) (s : State) : State :=
  set_metrics (delete batchId (metrics s)) s.

(** The delays awaited in a trace, in order. *)
Fixpoint waits (tr : list Action) : list Z :=
  match tr with
  | [] => []
  | Wait _ ms :: r => ms :: waits r
  | Call _ _ :: r => waits r
  end.

(** Number of calls of the per-item function. *)
Fixpoint calls (tr : list Action) : nat :=
  match tr with
  | [] => 0
  | Call _ _ :: r => S (calls r)
  | Wait _ _ :: r => calls r
  end.

(** Whether one of the calls made for [item] with [retryCount] from
    [retryCount] to [retryCount + n] is fulfilled. *)
Fixpoint succeeds_within (n : nat) (item : T) (retryCount : nat) : bool :=
  processor item retryCount
  || match n with
     | 0 => false
     | S n => succeeds_within n item (S retryCount)
     end.

(** Whether [item] gets through before its retries are exhausted. *)
Definition item_ok (s : State) (item : T) : bool :=
  succeeds_within (maxRetries s) item 0.

(** Two states of the same processor. *)
Definition sameConfig (s s' : State) : Prop :=
  batchSize s' = batchSize s /\ maxRetries s' = maxRetries s /\
  retryDelay s' = retryDelay s /\ maxConcurrent s' = maxConcurrent s.

(** From [s] to [s'] the run [batchId] counted [dp] more items as
    processed and [df] more as failed, and nothing else of its entry
    changed but the number of retries. *)
Definition advanced (batchId : string) (dp df : nat) (s s' : State) : Prop :=
  sameConfig s s' /\
  exists m m',
    metrics s !! batchId = Some m /\ metrics s' !! batchId = Some m' /\
    totalItems m' = totalItems m /\
    processedItems m' = processedItems m + dp /\
    failedItems m' = failedItems m + df /\
    startTime m' = startTime m /\ endTime m' = endTime m.

(** The run reads as the specification words it: it resolves and every
    item is accounted for. *)
Definition completes_with_partial_success (items : list T) (batchId : string)
  (t0 t1 : Z) (s : State) : Prop :=
  exists s' m,
    process items batchId t0 t1 s = Some (Fulfilled, s') /\
    getMetrics batchId s' = Some m /\
    processedItems m + failedItems m = totalItems m.

(** From [s] to [s'] the run [batchId] counted [dp] more items as
    processed, [df] more as failed and [dr] more retries, with one call
    of the per-item function for each of them and one delay for each
    retry; the entries of the other runs did not change. *)
Definition accounted (batchId : string) (dp df dr : nat) (s s' : State) : Prop :=
  sameConfig s s' /\
  (forall other, other <> batchId -> metrics s' !! other = metrics s !! other) /\
  exists m m',
    metrics s !! batchId = Some m /\ metrics s' !! batchId = Some m' /\
    totalItems m' = totalItems m /\
    processedItems m' = processedItems m + dp /\
    failedItems m' = failedItems m + df /\
    retries m' = retries m + dr /\
    calls (trace s') = calls (trace s) + dp + df + dr /\
    waits (trace s') = waits (trace s) ++ repeat (retryDelay s) dr.

End Run.

(** Examples: [new BatchProcessor({ maxRetries: 3, retryDelay: 1000 })]
    with an item that fails twice and then succeeds, and a processor
    that takes the items one by one, with an item that always fails. *)
Definition three_retries : @State nat :=
  constructor {| opt_batchSize := None; opt_maxRetries := Some 3;
                 opt_retryDelay := Some 1000%Z; opt_maxConcurrent := None |}.

Definition fails_twice (item : nat) (retryCount : nat) : bool := 2 <=? retryCount.

Definition one_by_one : @State nat :=
  constructor {| opt_batchSize := Some 1; opt_maxRetries := Some 1;
                 opt_retryDelay := None; opt_maxConcurrent := Some 1 |}.

Definition first_item_fails (item : nat) (retryCount : nat) : bool :=
  negb (item =? 1).

(** A per-item function that fails at every attempt, on every item. *)
Definition always_fails (item : nat) (retryCount : nat) : bool := false.

End BatchProcessor.

(** * The chunk-oriented batch processor

    The second [BatchProcessor] class of the repository (the one that
    stores chunks through [EnhancedVectorStorage]): its retry wrapper,
    then [processBatch] and [processLargeDocument]. *)

Module ChunkBatchProcessor.

Record BatchProcessingOptions := {
  opt_maxRetries : option nat;
  opt_retryDelay : option nat
}.

(** [processingTime] and [averageChunkTime] are floating-point readings
    of [performance.now()] and are left out. *)
Record ProcessingMetrics := {
  totalChunks : nat;
  processedChunks : nat;
  failedChunks : nat;
  retryCount : nat
}.

Record State := {
  maxRetries : option nat;
  retryDelay : option nat;
  metrics : ProcessingMetrics;
  delays : list Z
}.

Definition constructor (o : BatchProcessingOptions) : State :=
  {| maxRetries := Some (or_default (opt_maxRetries o) 3);
     retryDelay := Some (or_default (opt_retryDelay o) 1000);
     metrics := {| totalChunks := 0; processedChunks := 0;
                   failedChunks := 0; retryCount := 0 |};
     delays := [] |}.

Section Retry.

(** [addDocument chunk n]: whether the call of
    [vectorStorage.addDocument] made at [retryCount = n] is fulfilled. *)
Variable addDocument : string -> nat -> bool.

Fixpoint processChunkWithRetry (fuel : nat) (chunk : string) (retry : nat)
  (s : State) : option (bool * State) :=
  if addDocument chunk retry then
    let m := metrics s in
    Some (true,
          {| maxRetries := maxRetries s; retryDelay := retryDelay s;
             metrics := {| totalChunks := totalChunks m;
                           processedChunks := S (processedChunks m);
                           failedChunks := failedChunks m;
                           retryCount := retryCount m |};
             delays := delays s |})
  else if retry <? or_default (maxRetries s) 3 then
    let ms := (Z.of_nat (or_default (retryDelay s) 1000) * 2 ^ Z.of_nat retry)%Z in
    let s := {| maxRetries := maxRetries s; retryDelay := retryDelay s;
                metrics := metrics s; delays := delays s ++ [ms] |} in
    match fuel with
    | 0 => None
    | S fuel => processChunkWithRetry fuel chunk (S retry) s
    end
  else
    let m := metrics s in
    Some (false,
          {| maxRetries := maxRetries s; retryDelay := retryDelay s;
             metrics := {| totalChunks := totalChunks m;
                           processedChunks := processedChunks m;
                           failedChunks := S (failedChunks m);
                           retryCount := retryCount m |};
             delays := delays s |}).

End Retry.

(** Example: [maxRetries = 3], [retryDelay = 1000], and a chunk that is
    stored at the third attempt. *)
Definition three_retries : State :=
  constructor {| opt_maxRetries := Some 3; opt_retryDelay := Some 1000 |}.

Definition stored_at_third (chunk : string) (retry : nat) : bool := 2 <=? retry.

(** ** Documents *)

(** [this.metrics = ...]. *)
Definition set_metrics (m : ProcessingMetrics) (s : State) : State :=
  {| maxRetries := maxRetries s; retryDelay := retryDelay s;
     metrics := m; delays := delays s |}.

Definition resetMetrics (s : State) : State :=
  set_metrics {| totalChunks := 0; processedChunks := 0;
                 failedChunks := 0; retryCount := 0 |} s.

(** [initialize] builds the text splitter, initialises the vector
    storage and resets the metrics. *)
Definition initialize (s : State) : State := resetMetrics s.

Definition getMetrics (s : State) : ProcessingMetrics := metrics s.

(** Whether one of the calls of [addDocument] made for [chunk] at
    [retryCount] from [retry] to [retry + n] is fulfilled. *)
Fixpoint stored_within (addDocument : string -> nat -> bool) (n : nat)
  (chunk : string) (retry : nat) : bool :=
  addDocument chunk retry
  || match n with
     | 0 => false
     | S n => stored_within addDocument n chunk (S retry)
     end.

(** [chunk(array, size)] of lodash, for a [size] of at least 1: groups
    of [size] elements, the last one with what is left. *)
Fixpoint chunk {A : Type} (fuel size : nat) (array : list A) : list (list A) :=
  match fuel, array with
  | S fuel, _ :: _ => take size array :: chunk fuel size (drop size array)
  | _, _ => []
  end.

Section Documents.

(** [this.options.batchSize] (the constructor stores
    [options.batchSize || 10]), the text splitter, and the two
    functions the chunks are handed to.  [this.options.concurrentBatches]
    bounds how many batches [processBatch] runs at a time; the counters
    do not depend on it. *)
Context {M : Type}.
Variable batchSize : option nat.
Variable splitText : string -> list string.
Variable addDocument : string -> nat -> bool.
Variable chunkProcessor : string -> nat -> bool.

Record Chunk := {
  text : string;
  metadata : M;
  chunkIndex : nat
}.

(** The loop of [processBatch] that splits the documents.  The chunks of
    a document are mapped before they are pushed, so [allChunks.length]
    is read once per document. *)
Fixpoint splitDocuments (documents : list (string * M)) (allChunks : list Chunk)
  : list Chunk :=
  match documents with
  | [] => allChunks
  | (doc_text, doc_metadata) :: rest =>
      let chunks := splitText doc_text in
      splitDocuments rest
        (allChunks ++ map (fun c => {| text := c; metadata := doc_metadata;
                                       chunkIndex := length allChunks |}) chunks)
  end.

(** The chunks of one batch, [Promise.all(batchPromises)]:
    [processChunkWithRetry] does not throw, and its counters commute, so
    the chunks are taken one after the other. *)
Fixpoint processChunks (batch : list Chunk) (s : State) : option State :=
  match batch with
  | [] => Some s
  | c :: rest =>
      match processChunkWithRetry addDocument (or_default (maxRetries s) 3) (text c) 0 s with
      | None => None
      | Some (_, s) => processChunks rest s
      end
  end.

Fixpoint processAll (batches : list (list Chunk)) (s : State) : option State :=
  match batches with
  | [] => Some s
  | batch :: rest =>
      match processChunks batch s with
      | None => None
      | Some s => processAll rest s
      end
  end.

(** [processBatch(documents)], called without a progress callback; the
    result is the copy of the metrics it returns. *)
Definition processBatch (documents : list (string * M)) (s : State)
  : option (ProcessingMetrics * State) :=
  let allChunks := splitDocuments documents [] in
  let m := metrics s in
  let s := set_metrics {| totalChunks := length allChunks;
                          processedChunks := processedChunks m;
                          failedChunks := failedChunks m;
                          retryCount := retryCount m |} s in
  let batches := chunk (length allChunks) (or_default batchSize 10) allChunks in
  match processAll batches s with
  | None => None
  | Some s => Some (metrics s, s)
  end.

(** [processLargeDocument]: the state of the processor and the calls of
    [chunkProcessor] made so far. *)
Record Run := {
  state : State;
  called : list (string * nat)
}.

(** The callback mapped over a batch: a failure is counted, and throws
    once more than [maxRetries] failures were counted. *)
Definition processOne (chunk : string) (globalIndex : nat) (r : Run)
  : BatchProcessor.Completion * Run :=
  let s := state r in
  let m := metrics s in
  let log := called r ++ [(chunk, globalIndex)] in
  if chunkProcessor chunk globalIndex then
    (BatchProcessor.Fulfilled,
     {| state := set_metrics {| totalChunks := totalChunks m;
                                processedChunks := S (processedChunks m);
                                failedChunks := failedChunks m;
                                retryCount := retryCount m |} s;
        called := log |})
  else
    (if or_default (maxRetries s) 3 <? S (retryCount m)
     then BatchProcessor.Thrown else BatchProcessor.Fulfilled,
     {| state := set_metrics {| totalChunks := totalChunks m;
                                processedChunks := processedChunks m;
                                failedChunks := S (failedChunks m);
                                retryCount := S (retryCount m) |} s;
        called := log |}).

(** [Promise.all(batch.map(...))]: every callback runs to its end. *)
Fixpoint mapBatch (batch : list string) (batchIndex chunkIndex : nat) (r : Run)
  : BatchProcessor.Completion * Run :=
  match batch with
  | [] => (BatchProcessor.Fulfilled, r)
  | chunk :: rest =>
      let globalIndex := batchIndex * or_default batchSize 10 + chunkIndex in
      let (c, r) := processOne chunk globalIndex r in
      let (c', r) := mapBatch rest batchIndex (S chunkIndex) r in
      (BatchProcessor.both c c', r)
  end.

(** The [for] loop over [batches.entries()]: a rejected batch throws out
    of the loop. *)
Fixpoint forBatches (batches : list (list string)) (batchIndex : nat) (r : Run)
  : BatchProcessor.Completion * Run :=
  match batches with
  | [] => (BatchProcessor.Fulfilled, r)
  | batch :: rest =>
      match mapBatch batch batchIndex 0 r with
      | (BatchProcessor.Thrown, r) => (BatchProcessor.Thrown, r)
      | (BatchProcessor.Fulfilled, r) => forBatches rest (S batchIndex) r
      end
  end.

Definition processLargeDocument (doc_text : string) (s : State)
  : option (BatchProcessor.Completion * Run) :=
  let chunks := splitText doc_text in
  let m := metrics s in
  let s := set_metrics {| totalChunks := length chunks;
                          processedChunks := processedChunks m;
                          failedChunks := failedChunks m;
                          retryCount := retryCount m |} s in
  match BatchProcessor.createBatches_loop (length chunks) (or_default batchSize 10)
          chunks 0 with
  | None => None
  | Some batches => Some (forBatches batches 0 {| state := s; called := [] |})
  end.

(** The chunks for which [chunkProcessor] fails, when the first one is
    given the index [i]. *)
Fixpoint failures (chunks : list string) (i : nat) : nat :=
  match chunks with
  | [] => 0
  | c :: rest => (if chunkProcessor c i then 0 else 1) + failures rest (S i)
  end.

(** What a part of the run did: the chunks [l] were passed to
    [chunkProcessor] with the indices from [i] on, and counted. *)
Definition ran (l : list string) (i : nat) (r r' : Run) : Prop :=
  called r' = called r ++ zip l (seq i (length l)) /\
  maxRetries (state r') = maxRetries (state r) /\
  totalChunks (metrics (state r')) = totalChunks (metrics (state r)) /\
  processedChunks (metrics (state r')) + failures l i
  = processedChunks (metrics (state r)) + length l /\
  failedChunks (metrics (state r'))
  = failedChunks (metrics (state r)) + failures l i /\
  retryCount (metrics (state r'))
  = retryCount (metrics (state r)) + failures l i.

End Documents.

(** Examples: a splitter that cuts a text into its characters, and a
    chunk function that fails on the chunk ["x"]. *)
Fixpoint characters (t : string) : list string :=
  match t with
  | EmptyString => []
  | String a rest => String a EmptyString :: characters rest
  end.

Definition fails_on_x (c : string) (i : nat) : bool := negb (String.eqb c "x").

End ChunkBatchProcessor.

(** * Insertion-ordered maps

    A JavaScript [Map] (and the key order of a plain object with string
    keys) iterates in insertion order, and eviction depends on that
    order, so these stores are association lists with unique keys. *)

Fixpoint map_get {A : Type} (k : string) (m : list (string * A)) : option A :=
  match m with
  | [] => None
  | (k', v) :: r => if String.eqb k' k then Some v else map_get k r
  end.

(** [set] keeps the position of a key that is already present. *)
Fixpoint map_set {A : Type} (k : string) (v : A) (m : list (string * A))
  : list (string * A) :=
  match m with
  | [] => [(k, v)]
  | (k', v') :: r =>
      if String.eqb k' k then (k, v) :: r else (k', v') :: map_set k v r
  end.

Definition map_delete {A : Type} (k : string) (m : list (string * A))
  : list (string * A) :=
  List.filter (fun x => negb (String.eqb (fst x) k)) m.

(** * The TTL cache ([Cache]) *)

Module Cache.

Record CacheOptions := {
  opt_enabled : option bool;
  opt_maxSize : option Z;
  opt_ttl : option Z
}.

Section Store.

Context {V : Type}.

Record CacheEntry := {
  value : V;
  timestamp : Z
}.

Record Cache := {
  cache : list (string * CacheEntry);
  enabled : bool;
  maxSize : Z;
  ttl : Z
}.

Definition constructor (o : CacheOptions) : Cache :=
  {| cache := [];
     enabled := nullish (opt_enabled o) true;
     maxSize := nullish (opt_maxSize o) 1000%Z;
     ttl := nullish (opt_ttl o) (24 * 60 * 60 * 1000)%Z |}.

Definition set_cache (m : list (string * CacheEntry)) (c : Cache) : Cache :=
  {| cache := m; enabled := enabled c; maxSize := maxSize c; ttl := ttl c |}.

(** [get(key)] at time [now]: the value or [null], and the store. *)
Definition get (now : Z) (key : string) (c : Cache) : option V * Cache :=
  if negb (enabled c) then (None, c)
  else
    match map_get key (cache c) with
    | None => (None, c)
    | Some entry =>
        if (ttl c <? now - timestamp entry)%Z
        then (None, set_cache (map_delete key (cache c)) c)
        else (Some (value entry), c)
    end.

(** [this.cache.delete(this.cache.keys().next().value)]: on an empty map
    the key is [undefined] and nothing is deleted. *)
Definition delete_oldest (m : list (string * CacheEntry)) : list (string * CacheEntry) :=
  match m with
  | [] => []
  | (oldestKey, _) :: _ => map_delete oldestKey m
  end.

(** The [while (this.cache.size >= this.maxSize)] loop of [set]; [None]
    when [fuel] iterations did not end it. *)
Fixpoint evict_loop (fuel : nat) (limit : Z) (m : list (string * CacheEntry))
  : option (list (string * CacheEntry)) :=
  if (limit <=? Z.of_nat (length m))%Z then
    match fuel with
    | 0 => None
    | S fuel => evict_loop fuel limit (delete_oldest m)
    end
  else Some m.

(** [set(key, value)] at time [now].  The loop deletes one entry per
    iteration while there is one, so it ends within [length cache]
    iterations or not at all: [None] is a call that does not return. *)
Definition set (now : Z) (key : string) (v : V) (c : Cache) : option Cache :=
  if negb (enabled c) then Some c
  else
    match evict_loop (length (cache c)) (maxSize c) (cache c) with
    | None => None
    | Some m =>
        Some (set_cache (map_set key {| value := v; timestamp := now |} m) c)
    end.

Definition delete (key : string) (c : Cache) : Cache :=
  set_cache (map_delete key (cache c)) c.

Definition clear (c : Cache) : Cache := set_cache [] c.

Definition cleanup (now : Z) (c : Cache) : Cache :=
  set_cache
    (List.filter (fun x => negb (ttl c <? now - timestamp (snd x))%Z) (cache c)) c.

(** The round trip as the specification words it, for every key and
    value. *)
Definition round_trip (c : Cache) : Prop :=
  forall now key v,
    exists c', set now key v c = Some c' /\ fst (get now key c') = Some v.

End Store.

Arguments CacheEntry : clear implicits.
Arguments Cache : clear implicits.

(** Examples: [new Cache({ enabled: false })], and a cache of capacity 3
    that is full. *)
Definition disabled : Cache Z :=
  constructor {| opt_enabled := Some false; opt_maxSize := None; opt_ttl := None |}.

Definition full : Cache Z :=
  {| cache := [("a", {| value := 1%Z; timestamp := 0 |});
               ("b", {| value := 2%Z; timestamp := 1 |});
               ("c", {| value := 3%Z; timestamp := 2 |})];
     enabled := true; maxSize := 3; ttl := 1000 |}.

(** ** The calls of a client *)

Section Calls.

Context {V : Type}.

(** [getStats()]. *)
Record Stats := {
  stats_size : nat;
  stats_maxSize : Z;
  stats_enabled : bool;
  stats_ttl : Z
}.

Definition getStats (c : Cache V) : Stats :=
  {| stats_size := length (cache c); stats_maxSize := maxSize c;
     stats_enabled := enabled c; stats_ttl := ttl c |}.

(** What happens to a cache: the calls of its methods, with the reading
    of [Date.now()] where the method takes one, and the hourly
    [cleanup] of the timer the constructor sets. *)
Inductive Call :=
| CGet (now : Z) (key : string)
| CSet (now : Z) (key : string) (v : V)
| CDelete (key : string)
| CClear
| CCleanup (now : Z).

Definition call (op : Call) (c : Cache V) : option (Cache V) :=
  match op with
  | CGet now key => Some (snd (get now key c))
  | CSet now key v => set now key v c
  | CDelete key => Some (delete key c)
  | CClear => Some (clear c)
  | CCleanup now => Some (cleanup now c)
  end.

Fixpoint calls (ops : list Call) (c : Cache V) : option (Cache V) :=
  match ops with
  | [] => Some c
  | op :: rest =>
      match call op c with
      | None => None
      | Some c => calls rest c
      end
  end.

End Calls.

Arguments Call : clear implicits.

End Cache.

(** * IEEE doubles

    [keys.length <= maxKeys * 0.7] and [Math.floor(n * 0.3)] are
    evaluated on doubles.  The product of a natural number with a double
    constant [c / 2^e] is the integer [n * c] rounded to 53 significant
    bits (ties to even) and scaled by [2^-e]; the rounded integer is
    kept as [q * 2^s]. *)

Definition round53 (x : Z) : Z * Z :=
  if (x <? 2 ^ 53)%Z then (x, 0%Z)
  else
    let s := (Z.log2 x - 52)%Z in
    let q := (x / 2 ^ s)%Z in
    let r := (x mod 2 ^ s)%Z in
    let half := (2 ^ (s - 1))%Z in
    if (half <? r)%Z || ((r =? half)%Z && Z.odd q)
    then ((q + 1)%Z, s) else (q, s).

(** [0.7 = 3152519739159347 / 2^52], [0.3 = 5404319552844595 / 2^54] and
    [0.9 = 8106479329266893 / 2^53]. *)
Definition times_0_7 (n : nat) : Z * Z := round53 (Z.of_nat n * 3152519739159347).
Definition times_0_3 (n : nat) : Z * Z := round53 (Z.of_nat n * 5404319552844595).
Definition times_0_9 (n : nat) : Z * Z := round53 (Z.of_nat n * 8106479329266893).

(** [k > maxKeys * 0.9]. *)
Definition gt_times_0_9 (k maxKeys : nat) : bool :=
  let '(q, s) := times_0_9 maxKeys in
  (q * 2 ^ s <? Z.of_nat k * 2 ^ 53)%Z.

(** [k <= maxKeys * 0.7]. *)
Definition le_times_0_7 (k maxKeys : nat) : bool :=
  let '(q, s) := times_0_7 maxKeys in
  (Z.of_nat k * 2 ^ 52 <=? q * 2 ^ s)%Z.

(** [Math.floor(n * 0.3)]. *)
Definition floor_times_0_3 (n : nat) : nat :=
  let '(q, s) := times_0_3 n in
  Z.to_nat (q * 2 ^ s / 2 ^ 54).

(** * The query cache ([CacheManager]) *)

(** [Array.prototype.sort((a, b) => a[1] - b[1])] is stable: an insertion
    sort in which an element stays before the later elements that
    compare equal to it. *)
Fixpoint insert_sorted (x : string * Z) (l : list (string * Z)) : list (string * Z) :=
  match l with
  | [] => [x]
  | y :: r => if (snd x <=? snd y)%Z then x :: y :: r else y :: insert_sorted x r
  end.

Fixpoint sort_by_count (l : list (string * Z)) : list (string * Z) :=
  match l with
  | [] => []
  | x :: r => insert_sorted x (sort_by_count r)
  end.


Module CacheManager.

(** What a JavaScript function call comes to. *)
Inductive Result (A : Type) :=
| Ok (a : A)
| Throw (e : string).
Arguments Ok {A} a.
Arguments Throw {A} e.

(** The values a caller can pass as [filters]. *)
#[warnings="-register-all"]
Inductive JSValue :=
| JUndefined
| JNull
| JBool (b : bool)
| JNum (z : Z)
| JStr (s : string)
| JBigInt (z : Z)
| JArr (elements : list JSValue)
| JObj (fields : list (string * JSValue)).

Record CacheConfig := {
  cfg_stdTTL : option Z;
  cfg_checkperiod : option Z;
  cfg_maxKeys : option nat;
  cfg_useClones : option bool
}.

Section Manager.

(** [V] is the type of the fetched values.  [sha256] is the hex digest
    of [createHash('sha256')], and [quote] the JSON rendering of a
    string. *)
Context {V : Type}.
Variable sha256 : string -> string.
Variable quote : string -> string.

(** What the store holds: an object with its [_accessCount] property
    (when it has one that is a number) and the rest of it, either a
    fetched value or the metadata written next to one. *)
Inductive Content :=
| Fetched (v : V)
| Metadata (_createdAt : Z) (query : string) (filters : JSValue).

Record Obj := {
  _accessCount : option Z;
  content : Content
}.

(** The [node-cache] store, a package the repository imports: an entry
    is the value and the time [t] in milliseconds at which it expires
    ([0] for never); the length of [data] is [stats.keys].  [maxKeys] is
    a number of keys (the [-1] by which the package means no limit is
    left out). *)
Record Wrapped := {
  t : Z;
  v : Obj
}.

Record NodeCache := {
  stdTTL : Z;
  checkperiod : Z;
  maxKeys : nat;
  useClones : bool;
  data : list (string * Wrapped)
}.

Record CacheMetricsState := {
  hits : nat;
  misses : nat;
  queries : nat
}.

(** [totalAccessTime] sums floating-point readings of
    [performance.now()] and is left out. *)
Record CacheManager := {
  cache : NodeCache;
  metrics : CacheMetricsState
}.

Definition constructor (config : CacheConfig) : CacheManager :=
  {| cache := {| stdTTL := or_default_ms (cfg_stdTTL config) 3600;
                 checkperiod := or_default_ms (cfg_checkperiod config) 600;
                 maxKeys := or_default (cfg_maxKeys config) 1000;
                 useClones := nullish (cfg_useClones config) true;
                 data := [] |};
     metrics := {| hits := 0; misses := 0; queries := 0 |} |}.

Definition set_data (d : list (string * Wrapped)) (c : NodeCache) : NodeCache :=
  {| stdTTL := stdTTL c; checkperiod := checkperiod c; maxKeys := maxKeys c;
     useClones := useClones c; data := d |}.

Definition set_nodecache (c : NodeCache) (cm : CacheManager) : CacheManager :=
  {| cache := c; metrics := metrics cm |}.

Definition set_metrics (m : CacheMetricsState) (cm : CacheManager) : CacheManager :=
  {| cache := cache cm; metrics := m |}.

(** [NodeCache.keys()], [get], [del] and [set]. *)
Definition nc_keys (c : NodeCache) : list string := map fst (data c).

(** [data.t !== 0 && data.t < Date.now()]. *)
Definition expired (now : Z) (w : Wrapped) : bool :=
  negb (t w =? 0)%Z && (t w <? now)%Z.

Definition nc_get (now : Z) (key : string) (c : NodeCache) : option Obj * NodeCache :=
  match map_get key (data c) with
  | None => (None, c)
  | Some w =>
      if expired now w
      then (None, set_data (map_delete key (data c)) c)
      else (Some (v w), c)
  end.

Definition nc_del (key : string) (c : NodeCache) : NodeCache :=
  set_data (map_delete key (data c)) c.

Definition nc_wrap (now : Z) (ttl : option Z) (c : NodeCache) : Z :=
  match nullish ttl (stdTTL c) with
  | 0%Z => 0%Z
  | ttl => (now + ttl * 1000)%Z
  end.

Definition nc_set (now : Z) (key : string) (o : Obj) (ttl : option Z) (c : NodeCache)
  : Result NodeCache :=
  if maxKeys c <=? length (data c) then Throw "ECACHEFULL"
  else Ok (set_data (map_set key {| t := nc_wrap now ttl c; v := o |} (data c)) c).

(** [value && value._accessCount]. *)
Definition truthy_count (o : option Obj) : option Z :=
  match o with
  | Some o =>
      match _accessCount o with
      | Some 0%Z | None => None
      | Some n => Some n
      end
  | None => None
  end.

(** The [keys.forEach] pass of [cleanCache] that fills [accessPatterns]:
    every key is read through [get], which drops an expired entry. *)
Fixpoint accessPatterns (now : Z) (keys : list string) (c : NodeCache)
  : list (string * Z) * NodeCache :=
  match keys with
  | [] => ([], c)
  | key :: rest =>
      let '(value, c) := nc_get now key c in
      let '(acc, c) := accessPatterns now rest c in
      match truthy_count value with
      | Some n => ((key, n) :: acc, c)
      | None => (acc, c)
      end
  end.

(** [cleanCache] at time [now]. *)
Definition cleanCache (now : Z) (cm : CacheManager) : CacheManager :=
  let keys := nc_keys (cache cm) in
  if le_times_0_7 (length keys) (or_default (Some (maxKeys (cache cm))) 1000) then cm
  else
    let '(patterns, c) := accessPatterns now keys (cache cm) in
    let sortedKeys := map fst (sort_by_count patterns) in
    let removeCount := floor_times_0_3 (length sortedKeys) in
    set_nodecache (fold_left (fun c key => nc_del key c) (slice 0 removeCount sortedKeys) c) cm.

(** The callback of the interval set by [setupAutoClean]. *)
Definition autoClean (now : Z) (cm : CacheManager) : CacheManager :=
  if gt_times_0_9 (length (data (cache cm))) (or_default (Some (maxKeys (cache cm))) 1000)
  then cleanCache now cm
  else cm.

(** The keys [cleanCache] deletes at time [now]. *)
Definition evicted (now : Z) (cm : CacheManager) : list string :=
  let keys := nc_keys (cache cm) in
  if le_times_0_7 (length keys) (or_default (Some (maxKeys (cache cm))) 1000) then []
  else
    let sortedKeys := map fst (sort_by_count (fst (accessPatterns now keys (cache cm)))) in
    slice 0 (floor_times_0_3 (length sortedKeys)) sortedKeys.

(** [JSON.stringify]: [Ok None] is [undefined]; a [BigInt] anywhere in
    the value throws a [TypeError]. *)
Definition join (sep : string) (l : list string) : string :=
  match l with
  | [] => ""%string
  | x :: r => fold_left (fun acc y => String.append acc (String.append sep y)) r x
  end.

Fixpoint stringify (x : JSValue) : Result (option string) :=
  match x with
  | JUndefined => Ok None
  | JNull => Ok (Some "null"%string)
  | JBool b => Ok (Some (if b then "true" else "false")%string)
  | JNum z => Ok (Some (pretty z))
  | JStr s => Ok (Some (quote s))
  | JBigInt _ => Throw "TypeError: Do not know how to serialize a BigInt"
  | JArr l =>
      let fix elements (l : list JSValue) : Result (list string) :=
        match l with
        | [] => Ok []
        | y :: r =>
            match stringify y with
            | Throw e => Throw e
            | Ok sy =>
                match elements r with
                | Throw e => Throw e
                | Ok sr => Ok (default "null"%string sy :: sr)
                end
            end
        end in
      match elements l with
      | Throw e => Throw e
      | Ok ss => Ok (Some (String.append "[" (String.append (join "," ss) "]")))
      end
  | JObj fs =>
      let fix members (fs : list (string * JSValue)) : Result (list string) :=
        match fs with
        | [] => Ok []
        | (k, y) :: r =>
            match stringify y with
            | Throw e => Throw e
            | Ok sy =>
                match members r with
                | Throw e => Throw e
                | Ok sr =>
                    match sy with
                    | Some s => Ok (String.append (quote k) (String.append ":" s) :: sr)
                    | None => Ok sr
                    end
                end
            end
        end in
      match members fs with
      | Throw e => Throw e
      | Ok ss => Ok (Some (String.append "{" (String.append (join "," ss) "}")))
      end
  end.

(** [generateKey(query, filters)]. *)
Definition generateKey (query : string) (filters : JSValue) : Result string :=
  match stringify (JObj [("query"%string, JStr query); ("filters"%string, filters)]) with
  | Throw e => Throw e
  | Ok content => Ok (sha256 (default ""%string content))
  end.

(** Code that reads and writes the manager and may throw. *)
Definition M (A : Type) : Type := CacheManager -> Result A * CacheManager.

Definition ret {A : Type} (a : A) : M A := fun cm => (Ok a, cm).

Definition bind {A B : Type} (c : M A) (k : A -> M B) : M B :=
  fun cm =>
    match c cm with
    | (Ok a, cm) => k a cm
    | (Throw e, cm) => (Throw e, cm)
    end.

(** [try { body } catch (error) { handler }]. *)
Definition try_catch {A : Type} (body : M A) (handler : string -> M A) : M A :=
  fun cm =>
    match body cm with
    | (Ok a, cm) => (Ok a, cm)
    | (Throw e, cm) => handler e cm
    end.

Notation "'let*' x ':=' c 'in' k" := (bind c (fun x => k))
  (at level 10, x name, c at level 100, k at level 200).
Notation "c ';;' k" := (bind c (fun _ => k))
  (at level 100, k at level 200, right associativity).

Definition cache_get (now : Z) (key : string) : M (option Obj) :=
  fun cm => let '(o, c) := nc_get now key (cache cm) in (Ok o, set_nodecache c cm).

Definition cache_set (now : Z) (key : string) (o : Obj) (ttl : option Z) : M unit :=
  fun cm =>
    match nc_set now key o ttl (cache cm) with
    | Ok c => (Ok tt, set_nodecache c cm)
    | Throw e => (Throw e, cm)
    end.

Definition count_hit : M unit :=
  fun cm => (Ok tt, set_metrics {| hits := S (hits (metrics cm));
                                   misses := misses (metrics cm);
                                   queries := queries (metrics cm) |} cm).

Definition count_miss : M unit :=
  fun cm => (Ok tt, set_metrics {| hits := hits (metrics cm);
                                   misses := S (misses (metrics cm));
                                   queries := queries (metrics cm) |} cm).

Definition updateMetrics : M unit :=
  fun cm => (Ok tt, set_metrics {| hits := hits (metrics cm);
                                   misses := misses (metrics cm);
                                   queries := S (queries (metrics cm)) |} cm).

(** [await fetchFunction()]. *)
Definition await (r : Result Obj) : M Obj := fun cm => (r, cm).

(** [get(query, filters, fetchFunction, ttl)] at time [now]: the key is
    computed before the [try] block is entered. *)
Definition get (query : string) (filters : JSValue) (fetchFunction : option (Result Obj))
  (ttl : option Z) (now : Z) : M (option Obj) :=
  fun cm =>
    match generateKey query filters with
    | Throw e => (Throw e, cm)
    | Ok key =>
        try_catch
          (let* value := cache_get now key in
           match value with
           | Some value =>
               let* metadata := cache_get now (String.append key "_metadata") in
               (match metadata with
                | Some metadata =>
                    cache_set now (String.append key "_metadata")
                      {| _accessCount :=
                           Some (match _accessCount metadata with
                                 | Some n => n
                                 | None => 0
                                 end + 1)%Z;
                         content := content metadata |} None
                | None => ret tt
                end) ;;
               count_hit ;;
               updateMetrics ;;
               ret (Some value)
           | None =>
               count_miss ;;
               match fetchFunction with
               | None => updateMetrics ;; ret None
               | Some fetched =>
                   let* value := await fetched in
                   cache_set now key value ttl ;;
                   cache_set now (String.append key "_metadata")
                     {| _accessCount := Some 1%Z;
                        content := Metadata now query filters |} None ;;
                   updateMetrics ;;
                   ret (Some value)
               end
           end)
          (fun _ => updateMetrics ;; ret None)
          cm
    end.

(** The entries that carry an access count, in the order of the store. *)
Fixpoint counted (d : list (string * Wrapped)) : list (string * Z) :=
  match d with
  | [] => []
  | (key, w) :: rest =>
      match truthy_count (Some (v w)) with
      | Some n => (key, n) :: counted rest
      | None => counted rest
      end
  end.



End Manager.

Arguments Content : clear implicits.
Arguments Obj : clear implicits.
Arguments Wrapped : clear implicits.
Arguments NodeCache : clear implicits.
Arguments CacheManager : clear implicits.

(** Example: a manager of capacity 10 after five queries were fetched
    and stored (the digest and the quoting of strings are taken to be
    the identity): five values and their five metadata entries. *)
Definition fetched (n : Z) : Obj Z := {| _accessCount := None; content := Fetched n |}.

Definition after_five_fetches : CacheManager Z :=
  fold_left
    (fun cm query =>
       snd (get (fun s => s) (fun s => s) query JUndefined
              (Some (Ok (fetched 0))) None 0 cm))
    ["q1"; "q2"; "q3"; "q4"; "q5"]
    (constructor {| cfg_stdTTL := None; cfg_checkperiod := None;
                    cfg_maxKeys := Some 10; cfg_useClones := None |}).


End CacheManager.

(** * Properties of the worker pool *)

Module WorkerPoolSpec.
Import WorkerPool.

Ltac break_match :=
  repeat match goal with
         | |- context [match ?x with _ => _ end] => destruct x eqn:?; simpl
         | |- context [if ?x then _ else _] => destruct x eqn:?; simpl
         end.

Ltac unfold_pool :=
  unfold executeTask, onMessage, onTimeout, handleWorkerExit, handleWorkerError,
    removeWorker, processNextTask, createWorker, reject, resolve, postMessage,
    terminate, registerWorkerScript, initialize_step, shutdown, shutdown_finish;
  simpl.

(** ** [workers] is never written to *)

Lemma or_default_pos x d : 0 < d -> 0 < or_default x d.
Proof. destruct x as [[|n]|]; simpl; lia. Qed.

Lemma cleanup_no_workers p : workers p = [] -> cleanupIdleWorkers p = p.
Proof.
  intros H. unfold cleanupIdleWorkers.
  destruct (length (idleWorkers p)); simpl; [reflexivity|].
  rewrite H. simpl. reflexivity.
Qed.

Lemma step_options e p : workers p = [] -> options (step e p) = options p.
Proof.
  intros H. destruct e; simpl; try rewrite (cleanup_no_workers p H);
    unfold_pool; break_match; rewrite ?H; reflexivity.
Qed.

Lemma step_workers e p : workers p = [] -> workers (step e p) = [].
Proof.
  intros H. destruct e; simpl; try rewrite (cleanup_no_workers p H);
    unfold_pool; break_match; rewrite ?H; simpl; auto.
Qed.

Lemma constructor_workers o : workers (constructor o) = [].
Proof. unfold constructor. simpl. break_match; reflexivity. Qed.

Lemma constructor_options o : options (constructor o) = normalise o.
Proof. unfold constructor. simpl. break_match; reflexivity. Qed.

Lemma reachable_workers p :
  reachable p -> workers p = [] /\ 0 < maxWorkers (options p).
Proof.
  induction 1 as [o | p e _ [IHw IHo] _].
  - rewrite constructor_workers, constructor_options. split; [reflexivity|].
    simpl. apply or_default_pos. lia.
  - split; [now apply step_workers|]. rewrite step_options; auto.
Qed.


(** ** Idle workers are not executing *)

Lemma last_removelast {A : Type} (l : list A) (x : A) :
  last l = Some x -> l = removelast l ++ [x].
Proof.
  intros H. apply last_Some in H as [l' ->].
  now rewrite removelast_last.
Qed.

Lemma remove_first_elem w x l : x ∈ remove_first w l -> x ∈ l.
Proof.
  induction l as [|y l IH]; simpl; [auto|].
  destruct (Nat.eqb y w); intros H.
  - now right.
  - apply elem_of_cons in H as [->|H]; [left | right; auto].
Qed.

Lemma remove_first_NoDup w l : NoDup l -> NoDup (remove_first w l).
Proof.
  induction 1 as [|y l Hy Hl IH]; simpl; [constructor|].
  destruct (Nat.eqb y w); [assumption|].
  constructor; [|assumption]. intros H. apply Hy. eapply remove_first_elem, H.
Qed.

Lemma elem_of_map_fst (w : Worker) (tid : string) (l : list (Worker * string)) :
  (w, tid) ∈ l -> w ∈ map fst l.
Proof.
  intros H. apply list_elem_of_In, in_map_iff. exists (w, tid).
  split; [reflexivity|]. now apply list_elem_of_In.
Qed.

Lemma remove_posted_elem w tid x l :
  x ∈ map fst (remove_posted w tid l) -> x ∈ map fst l.
Proof.
  induction l as [|[w' t'] l IH]; simpl; [auto|].
  destruct (Nat.eqb w' w && String.eqb t' tid); simpl; intros H.
  - now right.
  - apply elem_of_cons in H as [->|H]; [left | right; auto].
Qed.

Lemma remove_posted_NoDup w tid l :
  NoDup (map fst l) -> NoDup (map fst (remove_posted w tid l)).
Proof.
  induction l as [|[w' t'] l IH]; simpl; [auto|].
  intros H. apply NoDup_cons in H as [Hw Hl].
  destruct (Nat.eqb w' w && String.eqb t' tid); simpl; [assumption|].
  constructor; [|auto]. intros H. apply Hw. eapply remove_posted_elem, H.
Qed.

Lemma remove_posted_gone w tid l :
  NoDup (map fst l) -> (w, tid) ∈ l -> w ∉ map fst (remove_posted w tid l).
Proof.
  induction l as [|[w' t'] l IH]; simpl; intros Hnd Hin.
  - inversion Hin.
  - apply NoDup_cons in Hnd as [Hw Hl].
    destruct (Nat.eqb w' w && String.eqb t' tid) eqn:E; simpl.
    + apply andb_true_iff in E as [E _]. apply Nat.eqb_eq in E. now subst.
    + apply elem_of_cons in Hin as [Heq|Hin].
      * inversion Heq; subst. rewrite Nat.eqb_refl, String.eqb_refl in E. discriminate.
      * intros H. apply elem_of_cons in H as [->|H].
        -- apply Hw. eapply elem_of_map_fst, Hin.
        -- revert H. now apply IH.
Qed.

Lemma filter_exit_elem w x (l : list (Worker * string)) :
  x ∈ map fst (List.filter (fun y => negb (Nat.eqb (fst y) w)) l) -> x ∈ map fst l.
Proof.
  induction l as [|[w' t'] l IH]; simpl; [auto|].
  destruct (negb (Nat.eqb w' w)); simpl; intros H.
  - apply elem_of_cons in H as [->|H]; [left | right; auto].
  - right; auto.
Qed.

Lemma filter_exit_NoDup w (l : list (Worker * string)) :
  NoDup (map fst l) ->
  NoDup (map fst (List.filter (fun y => negb (Nat.eqb (fst y) w)) l)).
Proof.
  induction l as [|[w' t'] l IH]; simpl; [auto|].
  intros H. apply NoDup_cons in H as [Hw Hl].
  destruct (negb (Nat.eqb w' w)); simpl; [|auto].
  constructor; [|auto]. intros H. apply Hw. eapply filter_exit_elem, H.
Qed.

Lemma consistent_create idle busy n :
  consistent idle busy n -> consistent (idle ++ [n]) busy (S n).
Proof.
  intros (Hi & Hb & Hil & Hbl & Hd). repeat split.
  - apply NoDup_app. repeat split; [assumption| |apply NoDup_singleton].
    intros w Hw Hw'. apply list_elem_of_singleton in Hw'. subst.
    apply Hil in Hw. lia.
  - assumption.
  - intros w Hw. apply elem_of_app in Hw as [Hw|Hw].
    + apply Hil in Hw. lia.
    + apply list_elem_of_singleton in Hw. lia.
  - intros w Hw. apply Hbl in Hw. lia.
  - intros w Hw Hw'. apply elem_of_app in Hw as [Hw|Hw].
    + now apply (Hd w).
    + apply list_elem_of_singleton in Hw. subst. apply Hbl in Hw'. lia.
Qed.

Lemma consistent_pop idle busy n w :
  consistent (idle ++ [w]) busy n -> consistent idle busy n.
Proof.
  intros (Hi & Hb & Hil & Hbl & Hd).
  apply NoDup_app in Hi as (Hi & _ & _). repeat split; auto.
  - intros x Hx. apply Hil, elem_of_app. now left.
  - intros x Hx. apply Hd, elem_of_app. now left.
Qed.

Lemma consistent_dispatch idle busy n w :
  consistent (idle ++ [w]) busy n -> consistent idle (busy ++ [w]) n.
Proof.
  intros (Hi & Hb & Hil & Hbl & Hd).
  apply NoDup_app in Hi as (Hi & Hiw & _). repeat split; auto.
  - apply NoDup_app. repeat split; [assumption| |apply NoDup_singleton].
    intros x Hx Hx'. apply list_elem_of_singleton in Hx'. subst.
    revert Hx. apply Hd, elem_of_app. right. now apply list_elem_of_singleton.
  - intros x Hx. apply Hil, elem_of_app. now left.
  - intros x Hx. apply elem_of_app in Hx as [Hx|Hx]; [auto|].
    apply Hil, elem_of_app. now right.
  - intros x Hx Hx'. apply elem_of_app in Hx' as [Hx'|Hx'].
    + revert Hx'. apply Hd, elem_of_app. now left.
    + apply list_elem_of_singleton in Hx'. subst. apply (Hiw w Hx).
      now apply list_elem_of_singleton.
Qed.

Lemma consistent_return idle busy n w :
  consistent idle busy n -> w < n -> w ∉ idle -> w ∉ busy ->
  consistent (idle ++ [w]) busy n.
Proof.
  intros (Hi & Hb & Hil & Hbl & Hd) Hn Hwi Hwb. repeat split; auto.
  - apply NoDup_app. repeat split; [assumption| |apply NoDup_singleton].
    intros x Hx Hx'. apply list_elem_of_singleton in Hx'. now subst.
  - intros x Hx. apply elem_of_app in Hx as [Hx|Hx]; [auto|].
    apply list_elem_of_singleton in Hx. now subst.
  - intros x Hx. apply elem_of_app in Hx as [Hx|Hx]; [auto|].
    apply list_elem_of_singleton in Hx. now subst.
Qed.

Lemma consistent_remove idle busy n w :
  consistent idle busy n -> consistent (remove_first w idle) busy n.
Proof.
  intros (Hi & Hb & Hil & Hbl & Hd). repeat split; auto.
  - now apply remove_first_NoDup.
  - intros x Hx. eapply Hil, remove_first_elem, Hx.
  - intros x Hx. eapply Hd, remove_first_elem, Hx.
Qed.

Lemma consistent_busy_sub idle busy busy' n :
  consistent idle busy n -> NoDup busy' -> (forall x, x ∈ busy' -> x ∈ busy) ->
  consistent idle busy' n.
Proof.
  intros (Hi & Hb & Hil & Hbl & Hd) Hnd Hsub. repeat split; auto.
  intros x Hx Hx'. apply (Hd x Hx). auto.
Qed.

Lemma wf_createWorker p : wf p -> wf (createWorker p).
Proof. unfold wf, createWorker. simpl. apply consistent_create. Qed.

Lemma wf_removeWorker w p : wf p -> wf (removeWorker w p).
Proof. unfold wf, removeWorker. simpl. apply consistent_remove. Qed.

Lemma wf_processNextTask p : wf p -> wf (processNextTask p).
Proof.
  unfold wf, processNextTask. intros H.
  destruct (taskQueue p) as [|task q]; [assumption|].
  destruct (last (idleWorkers p)) as [worker|] eqn:E; [|assumption].
  apply last_removelast in E. rewrite E in H. simpl.
  destruct (truthy_string _); unfold postMessage, reject, busyWorkers in *; simpl.
  - rewrite map_app. simpl. now apply consistent_dispatch.
  - eapply consistent_pop, H.
Qed.

Lemma wf_step e p : wf p -> enabled p e -> wf (step e p).
Proof.
  intros H He. destruct e; simpl in *.
  - unfold initialize_step. destruct (initPending p); [assumption|].
    apply (wf_createWorker p) in H. exact H.
  - exact H.
  - unfold executeTask. apply wf_processNextTask.
    match goal with |- wf (if ?c then _ else _) => destruct c end.
    + apply wf_createWorker. exact H.
    + exact H.
  - unfold onMessage. simpl.
    assert (Hin : worker ∈ busyWorkers p).
    { unfold busyWorkers. eapply elem_of_map_fst, He. }
    assert (H' : consistent (idleWorkers p)
                   (map fst (remove_posted worker (taskId m) (inbox p))) (spawned p)).
    { destruct H as (Hi & Hb & Hil & Hbl & Hd).
      eapply consistent_busy_sub; [repeat split; eauto | |].
      - now apply remove_posted_NoDup.
      - intros x. apply remove_posted_elem. }
    destruct (List.find _ _) as [task|]; [|exact H'].
    apply wf_processNextTask.
    assert (Hgoal : consistent (idleWorkers p ++ [worker])
                      (map fst (remove_posted worker (taskId m) (inbox p))) (spawned p)).
    { destruct H as (Hi & Hb & Hil & Hbl & Hd).
      apply consistent_return; auto.
      - intros Hw. now apply (Hd worker Hw).
      - now apply remove_posted_gone. }
    destruct (truthy_string (error m)); exact Hgoal.
  - unfold onTimeout. destruct (List.find _ _) as [task|]; [|exact H].
    unfold handleWorkerError. apply wf_createWorker, wf_removeWorker. exact H.
  - unfold handleWorkerError. apply wf_createWorker, wf_removeWorker. exact H.
  - unfold handleWorkerExit.
    assert (H' : wf (removeWorker worker
                       (set_inbox (List.filter (fun x => negb (Nat.eqb (fst x) worker))
                                     (inbox p)) p))).
    { apply wf_removeWorker. unfold wf. simpl.
      eapply consistent_busy_sub; [exact H | |].
      - apply filter_exit_NoDup. apply H.
      - intros x. apply filter_exit_elem. }
    match goal with |- wf (if ?c then _ else _) => destruct c end.
    + apply wf_createWorker. exact H'.
    + exact H'.
  - destruct (initPending p); [|exact H].
    unfold cleanupIdleWorkers. generalize (length (idleWorkers p)). intros fuel.
    revert p H He. induction fuel as [|fuel IH]; intros p H He; simpl; [exact H|].
    destruct (_ && _); [|exact H].
    destruct (last (idleWorkers p)) as [w|] eqn:E; [|exact H].
    apply IH; [|exact I]. apply wf_removeWorker.
    apply last_removelast in E. unfold wf in *. simpl. rewrite E in H.
    eapply consistent_pop, H.
  - unfold shutdown. destruct (taskQueue p); simpl; [|exact H].
    unfold shutdown_finish. unfold wf. simpl.
    assert (Hf : forall l q, inbox (fold_left (fun p w => terminate w p) l q) = inbox q
                          /\ spawned (fold_left (fun p w => terminate w p) l q) = spawned q).
    { induction l as [|x l IHl]; intros q; simpl; [auto|].
      destruct (IHl (terminate x q)) as [-> ->]. auto. }
    unfold busyWorkers. simpl. destruct (Hf (workers p) p) as [-> ->].
    destruct H as (Hi & Hb & Hil & Hbl & Hd). repeat split; auto.
    + constructor.
    + intros w Hw. inversion Hw.
    + intros w Hw. inversion Hw.
Qed.

Lemma wf_constructor o : wf (constructor o).
Proof.
  unfold constructor. simpl.
  assert (H0 : consistent [] [] 0).
  { repeat split; try constructor; intros w Hw; inversion Hw. }
  destruct (or_default (opt_minWorkers o) 2); [exact H0|].
  apply consistent_create in H0. exact H0.
Qed.

(** In every reachable pool, a worker of the idle list is not executing
    a task. *)
Lemma idle_not_executing p w :
  reachable p -> w ∈ idleWorkers p -> w ∉ busyWorkers p.
Proof.
  intros H. assert (Hwf : wf p).
  { induction H; [apply wf_constructor | now apply wf_step]. }
  apply Hwf.
Qed.

(** ** The claims *)

Lemma processNextTask_spawned p : spawned (processNextTask p) = spawned p.
Proof. unfold_pool. break_match; reflexivity. Qed.

(** C10. In every reachable state of the pool the [workers] list is
    empty ([createWorker] pushes on [idleWorkers] only).  So the guard
    [workers.length < maxWorkers] of [executeTask] holds, and a worker is
    constructed whenever a task is submitted while the idle list is
    empty; the condition [workers.length > minWorkers] of
    [cleanupIdleWorkers] fails, and the sweep changes nothing;
    [getMetrics] reports [activeWorkers = 0 - idleWorkers.length], which
    is not positive. *)
Theorem workers_list_stays_empty (p : Pool) :
  reachable p ->
  workers p = [] /\
  (length (workers p) <? maxWorkers (options p)) = true /\
  (forall tid ty d now,
     idleWorkers p = [] -> spawned (executeTask tid ty d now p) = S (spawned p)) /\
  (minWorkers (options p) <? length (workers p)) = false /\
  cleanupIdleWorkers p = p /\
  activeWorkers (getMetrics p) = (0 - Z.of_nat (length (idleWorkers p)))%Z /\
  (activeWorkers (getMetrics p) <= 0)%Z.
Proof.
  intros H. destruct (reachable_workers p H) as [Hw Hmax].
  assert (Hguard : (length (workers p) <? maxWorkers (options p)) = true).
  { rewrite Hw. simpl. apply Nat.ltb_lt. exact Hmax. }
  repeat split.
  - exact Hw.
  - exact Hguard.
  - intros tid ty d now Hidle. unfold executeTask.
    rewrite processNextTask_spawned. simpl. rewrite Hidle. simpl.
    rewrite Hguard. reflexivity.
  - rewrite Hw. simpl. apply Nat.ltb_ge. lia.
  - now apply cleanup_no_workers.
  - unfold getMetrics. simpl. rewrite Hw. reflexivity.
  - unfold getMetrics. simpl. rewrite Hw. simpl. lia.
Qed.

Lemma workers_list_stays_empty_witness :
  let p := step (EExecute "a" "t" 1 0) single_pool in
  workers p = [] /\
  idleWorkers p = [] /\
  spawned (executeTask "b" "t" 2 0 p) = S (spawned p) /\
  cleanupIdleWorkers p = p /\
  activeWorkers (getMetrics p) = 0%Z.
Proof.
  intros p.
  assert (R : reachable p).
  { apply reachable_step; [|exact I].
    apply reachable_step; [|exact I]. apply reachable_new. }
  destruct (workers_list_stays_empty p R) as (H1 & _ & H3 & _ & H5 & H6 & _).
  split; [exact H1|]. split; [reflexivity|].
  split; [apply H3; reflexivity|]. split; [exact H5 | exact H6].
Defined.

(** Whatever [maxWorkers] is, a task submitted while no worker is idle
    makes the pool construct a worker and start it on the task at the
    head of the queue. *)
Lemma executeTask_starts_a_worker tid ty d now p head :
  reachable p ->
  idleWorkers p = [] ->
  hd_error (taskQueue p ++ [{| id := tid; type := ty; data := d; startTime := now |}])
  = Some head ->
  truthy_string (workerScripts p !! type head) = true ->
  busyWorkers (executeTask tid ty d now p) = busyWorkers p ++ [spawned p] /\
  spawned (executeTask tid ty d now p) = S (spawned p).
Proof.
  intros H Hidle Hhead Hscript.
  destruct (reachable_workers p H) as [Hw Hmax].
  unfold executeTask. simpl. rewrite Hidle, Hw. simpl.
  replace (0 <? maxWorkers (options p)) with true
    by (symmetry; apply Nat.ltb_lt; exact Hmax).
  unfold processNextTask, createWorker. simpl. rewrite Hidle. simpl.
  destruct (taskQueue p ++ _) as [|task q] eqn:E; [discriminate|].
  injection Hhead as ->. simpl. rewrite Hscript.
  unfold busyWorkers, postMessage. simpl. rewrite map_app. auto.
Qed.

(** C1, at the input that shows the defect.  A pool built with
    [minWorkers = 1] and [maxWorkers = 1] is sent two tasks before the
    first one is answered: the second submission finds no idle worker,
    [workers.length] is [0], so a second worker is constructed and
    started, and two workers are busy although [maxWorkers] is [1]. *)
Theorem busy_workers_exceed_maxWorkers :
  let p1 := run [EExecute "a" "t" 1 0] single_pool in
  let p2 := run [EExecute "b" "t" 2 0] p1 in
  maxWorkers (options p2) = 1 /\
  idleWorkers p1 = [] /\ spawned p1 = 1 /\ busyWorkers p1 = [0] /\
  spawned p2 = 2 /\ busyWorkers p2 = [0; 1] /\
  length (busyWorkers p2) > maxWorkers (options p2).
Proof. vm_compute. repeat split; lia. Qed.

(** C2, at the input that shows the defect.  [processNextTask] reads
    the task at the head of the queue and leaves it there, so when a
    second task is submitted while the first one is executed, it is the
    first one that is sent again, to another worker; the second task is
    sent to none. *)
Theorem head_task_dispatched_twice :
  let p := run [EExecute "a" "t" 1 0; EExecute "b" "t" 2 0] default_pool in
  map id (taskQueue p) = ["a"; "b"] /\
  executing "a" p = [1; 0] /\
  executing "b" p = [] /\
  idleWorkers p = [].
Proof. vm_compute. repeat split. Qed.

(** [shutdown] terminates the workers of the [workers] list only, which
    is empty: no worker is terminated. *)
Lemma shutdown_terminates_no_worker p q :
  reachable p -> shutdown p = Some q ->
  terminated q = terminated p /\ spawned q = spawned p /\
  idleWorkers q = [] /\ workers q = [].
Proof.
  intros H. destruct (reachable_workers p H) as [Hw _].
  unfold shutdown. destruct (taskQueue p); [|discriminate].
  intros [= <-]. unfold shutdown_finish. rewrite Hw. simpl. auto.
Qed.

(** [shutdown] has the same effect when it is called again. *)
Lemma shutdown_finish_idempotent p :
  workers p = [] -> shutdown_finish (shutdown_finish p) = shutdown_finish p.
Proof. intros H. unfold shutdown_finish. rewrite H. simpl. reflexivity. Qed.

(** C9, at the input that shows the defect.  [shutdown] on a fresh pool
    with no task resolves, and empties both lists, but it calls
    [terminate()] on no worker: the two workers that [initialize]
    constructed are still running. *)
Theorem shutdown_leaves_workers_running :
  exists p,
    shutdown default_pool = Some p /\
    idleWorkers default_pool = [0; 1] /\
    terminated p = [] /\
    notTerminated p = [0; 1] /\
    idleWorkers p = [] /\ workers p = [].
Proof. eexists. vm_compute. repeat split. Qed.

End WorkerPoolSpec.

(** * Properties of the batch processors *)

Module BatchProcessorSpec.
Import BatchProcessor.

Section Facts.

Context {T : Type}.
Variable processor : T -> nat -> bool.

Local Abbreviation State := (@State T).

Lemma sameConfig_refl (s : State) : sameConfig s s.
Proof. repeat split. Qed.

Lemma sameConfig_trans (s1 s2 s3 : State) :
  sameConfig s1 s2 -> sameConfig s2 s3 -> sameConfig s1 s3.
Proof. unfold sameConfig. intuition congruence. Qed.

Lemma advanced_refl batchId (s : State) m :
  metrics s !! batchId = Some m -> advanced batchId 0 0 s s.
Proof.
  intros H. split; [apply sameConfig_refl|].
  exists m, m. repeat split; auto.
Qed.

Lemma advanced_trans batchId a b c d (s1 s2 s3 : State) :
  advanced batchId a b s1 s2 -> advanced batchId c d s2 s3 ->
  advanced batchId (a + c) (b + d) s1 s3.
Proof.
  intros [C1 (m1 & m2 & H1 & H2 & Ht & Hp & Hf & Hs & He)]
         [C2 (m2' & m3 & H2' & H3 & Ht' & Hp' & Hf' & Hs' & He')].
  rewrite H2 in H2'. injection H2' as <-.
  split; [eapply sameConfig_trans; eauto|].
  exists m1, m3. repeat split; auto; try congruence; lia.
Qed.

Lemma advanced_record batchId a (s : State) m :
  metrics s !! batchId = Some m -> advanced batchId 0 0 s (record a s).
Proof.
  intros H. split; [repeat split|]. exists m, m. repeat split; auto.
Qed.

Lemma advanced_retries batchId (s : State) m :
  metrics s !! batchId = Some m ->
  advanced batchId 0 0 s (update incr_retries batchId s).
Proof.
  intros H. split; [repeat split|].
  exists m, (incr_retries m). unfold update. simpl.
  rewrite lookup_alter_eq, H. repeat split; auto.
Qed.

Lemma advanced_processed batchId (s : State) m :
  metrics s !! batchId = Some m ->
  advanced batchId 1 0 s (update incr_processed batchId s).
Proof.
  intros H. split; [repeat split|].
  exists m, (incr_processed m). unfold update. simpl.
  rewrite lookup_alter_eq, H. repeat split; simpl; auto; lia.
Qed.

Lemma advanced_failed batchId (s : State) m :
  metrics s !! batchId = Some m ->
  advanced batchId 0 1 s (update incr_failed batchId s).
Proof.
  intros H. split; [repeat split|].
  exists m, (incr_failed m). unfold update. simpl.
  rewrite lookup_alter_eq, H. repeat split; simpl; auto; lia.
Qed.

Lemma advanced_is_Some batchId a b (s s' : State) :
  advanced batchId a b s s' -> is_Some (metrics s' !! batchId).
Proof. intros [_ (m & m' & _ & H & _)]. eauto. Qed.

Lemma sameConfig_item_ok (s s' : State) item :
  sameConfig s s' -> item_ok processor s' item = item_ok processor s item.
Proof. intros (_ & H & _). unfold item_ok. now rewrite H. Qed.

Lemma sameConfig_forallb (s s' : State) l :
  sameConfig s s' ->
  forallb (item_ok processor s') l = forallb (item_ok processor s) l.
Proof.
  intros H. induction l as [|x l IH]; simpl; [reflexivity|].
  now rewrite IH, (sameConfig_item_ok s s' x H).
Qed.

(** ** One item *)

(** [processWithRetry] always settles: it is fulfilled when one of the
    calls up to [maxRetries] is, and counts the item once, as processed
    or as failed. *)
Lemma processWithRetry_spec fuel item batchId rc (s : State) m :
  metrics s !! batchId = Some m ->
  fuel + rc = maxRetries s ->
  exists s',
    processWithRetry processor fuel item batchId rc s
    = Some (if succeeds_within processor fuel item rc then Fulfilled else Thrown, s') /\
    (if succeeds_within processor fuel item rc
     then advanced batchId 1 0 s s' else advanced batchId 0 1 s s').
Proof.
  revert rc s m. induction fuel as [|fuel IH]; intros rc s m Hm Hf; simpl.
  - destruct (processor item rc) eqn:E; simpl.
    + eexists. split; [reflexivity|].
      apply (advanced_trans batchId 0 0 1 0 _ (record (Call item rc) s)).
      * eapply advanced_record, Hm.
      * eapply advanced_processed. simpl. exact Hm.
    + replace (rc <? maxRetries s) with false
        by (symmetry; apply Nat.ltb_ge; simpl in Hf; lia).
      eexists. split; [reflexivity|].
      apply (advanced_trans batchId 0 0 0 1 _ (record (Call item rc) s)).
      * eapply advanced_record, Hm.
      * eapply advanced_failed. simpl. exact Hm.
  - destruct (processor item rc) eqn:E; simpl.
    + eexists. split; [reflexivity|].
      apply (advanced_trans batchId 0 0 1 0 _ (record (Call item rc) s)).
      * eapply advanced_record, Hm.
      * eapply advanced_processed. simpl. exact Hm.
    + replace (rc <? maxRetries s) with true
        by (symmetry; apply Nat.ltb_lt; lia).
      set (s1 := record (Call item rc) s).
      set (s2 := update incr_retries batchId s1).
      set (s3 := record (Wait item (retryDelay s)) s2).
      assert (A1 : advanced batchId 0 0 s s1) by (eapply advanced_record, Hm).
      assert (A2 : advanced batchId 0 0 s1 s2) by (eapply advanced_retries; simpl; exact Hm).
      destruct (advanced_is_Some _ _ _ _ _ A2) as [m2 Hm2].
      assert (A3 : advanced batchId 0 0 s2 s3) by (eapply advanced_record, Hm2).
      assert (A : advanced batchId 0 0 s s3).
      { apply (advanced_trans batchId 0 0 0 0 _ s2); [|exact A3].
        apply (advanced_trans batchId 0 0 0 0 _ s1); assumption. }
      destruct (IH (S rc) s3 m2) as (s' & Hrun & Hadv).
      * exact Hm2.
      * simpl. lia.
      * exists s'. split; [exact Hrun|].
        destruct (succeeds_within processor fuel item (S rc)).
        -- apply (advanced_trans batchId 0 0 1 0 _ s3); assumption.
        -- apply (advanced_trans batchId 0 0 0 1 _ s3); assumption.
Qed.

(** ** The items of a batch, and the batches of a round *)

Lemma processBatch_spec batch batchId (s : State) m :
  metrics s !! batchId = Some m ->
  exists s' dp df,
    processBatch processor batch batchId s
    = Some (if forallb (item_ok processor s) batch then Fulfilled else Thrown, s') /\
    advanced batchId dp df s s' /\
    dp + df = length batch /\
    (if forallb (item_ok processor s) batch then df = 0 else 1 <= df).
Proof.
  revert s m. induction batch as [|item rest IH]; intros s m Hm; simpl.
  - exists s, 0, 0. split; [reflexivity|].
    split; [eapply advanced_refl, Hm | auto].
  - destruct (processWithRetry_spec (maxRetries s) item batchId 0 s m Hm)
      as (s1 & Hrun & Hadv); [lia|].
    rewrite Hrun. fold (item_ok processor s item) in *.
    assert (Hadv' : exists a b, advanced batchId a b s s1 /\ a + b = 1 /\
                      (if item_ok processor s item then b = 0 else b = 1)).
    { destruct (item_ok processor s item); [exists 1, 0 | exists 0, 1]; auto. }
    destruct Hadv' as (a & b & Hab & Hsum & Hb).
    destruct (advanced_is_Some _ _ _ _ _ Hab) as [m1 Hm1].
    destruct (IH s1 m1 Hm1) as (s2 & dp & df & Hrest & Hadv2 & Hlen & Hdf).
    rewrite Hrest.
    rewrite (sameConfig_forallb s s1 rest (proj1 Hab)) in *.
    exists s2, (a + dp), (b + df).
    split; [|split; [eapply advanced_trans; eauto|split; [lia|]]].
    + destruct (item_ok processor s item), (forallb (item_ok processor s) rest);
        reflexivity.
    + destruct (item_ok processor s item), (forallb (item_ok processor s) rest);
        simpl; lia.
Qed.

Lemma processBatches_spec batches batchId (s : State) m :
  metrics s !! batchId = Some m ->
  exists s' dp df,
    processBatches processor batches batchId s
    = Some (if forallb (item_ok processor s) (concat batches)
            then Fulfilled else Thrown, s') /\
    advanced batchId dp df s s' /\
    dp + df = length (concat batches) /\
    (if forallb (item_ok processor s) (concat batches) then df = 0 else 1 <= df).
Proof.
  revert s m. induction batches as [|batch rest IH]; intros s m Hm; simpl.
  - exists s, 0, 0. split; [reflexivity|].
    split; [eapply advanced_refl, Hm | auto].
  - destruct (processBatch_spec batch batchId s m Hm)
      as (s1 & a & b & Hrun & Hab & Hsum & Hb).
    rewrite Hrun.
    destruct (advanced_is_Some _ _ _ _ _ Hab) as [m1 Hm1].
    destruct (IH s1 m1 Hm1) as (s2 & dp & df & Hrest & Hadv2 & Hlen & Hdf).
    rewrite Hrest.
    rewrite (sameConfig_forallb s s1 (concat rest) (proj1 Hab)) in *.
    rewrite forallb_app, length_app.
    exists s2, (a + dp), (b + df).
    split; [|split; [eapply advanced_trans; eauto|split; [lia|]]].
    + destruct (forallb (item_ok processor s) batch),
        (forallb (item_ok processor s) (concat rest)); reflexivity.
    + destruct (forallb (item_ok processor s) batch),
        (forallb (item_ok processor s) (concat rest)); simpl; lia.
Qed.

(** ** The rounds of a run *)

Lemma slice_from {A : Type} i n (l : list A) : slice i (i + n) l = take n (drop i l).
Proof. unfold slice. now replace (i + n - i) with n by lia. Qed.

Lemma drop_split {A : Type} i n (l : list A) :
  drop i l = take n (drop i l) ++ drop (i + n) l.
Proof. now rewrite <- drop_drop, take_drop. Qed.

Lemma rounds_spec fuel batches batchId i (s : State) m :
  metrics s !! batchId = Some m ->
  0 < maxConcurrent s ->
  length batches <= i + fuel ->
  exists s' dp df,
    rounds processor fuel batches batchId i s
    = Some (if forallb (item_ok processor s) (concat (drop i batches))
            then Fulfilled else Thrown, s') /\
    advanced batchId dp df s s' /\
    dp + df <= length (concat (drop i batches)) /\
    (if forallb (item_ok processor s) (concat (drop i batches))
     then df = 0 /\ dp = length (concat (drop i batches)) else 1 <= df).
Proof.
  revert i s m. induction fuel as [|fuel IH]; intros i s m Hm Hmc Hlen.
  - simpl. replace (i <? length batches) with false
      by (symmetry; apply Nat.ltb_ge; lia).
    rewrite drop_ge by lia. simpl.
    exists s, 0, 0. split; [reflexivity|].
    split; [eapply advanced_refl, Hm | auto].
  - simpl. destruct (i <? length batches) eqn:Hi.
    + rewrite slice_from.
      assert (Hsplit := drop_split i (maxConcurrent s) batches).
      set (current := take (maxConcurrent s) (drop i batches)) in *.
      rewrite Hsplit, concat_app, forallb_app, length_app.
      destruct (processBatches_spec current batchId s m Hm)
        as (s1 & a & b & Hrun & Hab & Hsum & Hb).
      rewrite Hrun.
      destruct (forallb (item_ok processor s) (concat current)) eqn:Hok; simpl.
      * destruct (advanced_is_Some _ _ _ _ _ Hab) as [m1 Hm1].
        assert (Hcfg : sameConfig s s1) by apply Hab.
        assert (Hmc1 : maxConcurrent s1 = maxConcurrent s) by apply Hcfg.
        destruct (IH (i + maxConcurrent s) s1 m1 Hm1) as (s2 & dp & df & Hrest & Hadv & Hle & Hdf).
        -- lia.
        -- lia.
        -- rewrite Hmc1 in *.
           rewrite (sameConfig_forallb s s1 _ Hcfg) in *.
           exists s2, (a + dp), (b + df).
           split; [exact Hrest|]. split; [eapply advanced_trans; eauto|].
           split; [lia|].
           destruct (forallb (item_ok processor s)
                       (concat (drop (i + maxConcurrent s) batches))); lia.
      * exists s1, a, b. split; [reflexivity|]. split; [exact Hab|].
        split; [lia | exact Hb].
    + apply Nat.ltb_ge in Hi. rewrite drop_ge by lia. simpl.
      exists s, 0, 0. split; [reflexivity|].
      split; [eapply advanced_refl, Hm | auto].
Qed.

Lemma rounds_stuck fuel (batches : list (list T)) batchId i (s : State) :
  maxConcurrent s = 0 -> i < length batches ->
  rounds processor fuel batches batchId i s = None.
Proof.
  intros Hmc Hi. induction fuel as [|fuel IH]; simpl;
    replace (i <? length batches) with true by (symmetry; apply Nat.ltb_lt; lia).
  - reflexivity.
  - rewrite slice_from, Hmc. simpl. rewrite Hmc, Nat.add_0_r. exact IH.
Qed.

(** ** The partition into batches *)

Lemma createBatches_loop_spec fuel size (items : list T) i :
  0 < size -> length items <= i + fuel ->
  exists batches,
    createBatches_loop fuel size items i = Some batches /\
    concat batches = drop i items.
Proof.
  intros Hsize. revert i. induction fuel as [|fuel IH]; intros i Hlen; simpl.
  - replace (i <? length items) with false by (symmetry; apply Nat.ltb_ge; lia).
    exists []. rewrite drop_ge by lia. auto.
  - destruct (i <? length items) eqn:Hi.
    + destruct (IH (i + size)) as (batches & -> & Hcat); [lia|].
      eexists. split; [reflexivity|]. simpl.
      rewrite Hcat, slice_from. symmetry. apply drop_split.
    + apply Nat.ltb_ge in Hi. exists []. rewrite drop_ge by lia. auto.
Qed.

Lemma createBatches_loop_stuck fuel (items : list T) i :
  i < length items -> createBatches_loop fuel 0 items i = None.
Proof.
  intros Hi. induction fuel as [|fuel IH]; simpl;
    replace (i <? length items) with true by (symmetry; apply Nat.ltb_lt; lia).
  - reflexivity.
  - rewrite Nat.add_0_r, IH. reflexivity.
Qed.

(** ** A whole run *)

(** With a positive batch size and concurrency limit, [process] settles:
    it resolves when every item gets through and rejects otherwise, and
    the counters are as follows. *)
Lemma process_spec items batchId t0 t1 (s : State) :
  0 < batchSize s -> 0 < maxConcurrent s ->
  exists s' m,
    process processor items batchId t0 t1 s
    = Some (if forallb (item_ok processor s) items then Fulfilled else Thrown, s') /\
    getMetrics batchId s' = Some m /\
    totalItems m = length items /\
    processedItems m + failedItems m <= length items /\
    (if forallb (item_ok processor s) items
     then failedItems m = 0 /\ processedItems m = length items
     else 1 <= failedItems m) /\
    startTime m = t0 /\ endTime m = Some t1.
Proof.
  intros Hbs Hmc. unfold process, createBatches.
  set (m0 := {| totalItems := length items; processedItems := 0; failedItems := 0;
                retries := 0; startTime := t0; endTime := None |}).
  set (s0 := set_metrics (<[batchId := m0]> (metrics s)) s).
  assert (Hm0 : metrics s0 !! batchId = Some m0) by apply lookup_insert_eq.
  destruct (createBatches_loop_spec (length items) (batchSize s0) items 0)
    as (batches & -> & Hcat); [exact Hbs | lia |].
  rewrite drop_0 in Hcat.
  destruct (rounds_spec (length batches) batches batchId 0 s0 m0 Hm0)
    as (s1 & dp & df & Hrun & Hadv & Hle & Hdf); [exact Hmc | lia |].
  rewrite drop_0, Hcat in Hrun, Hle, Hdf.
  rewrite Hrun.
  assert (Hok : forallb (item_ok processor s0) items = forallb (item_ok processor s) items).
  { apply sameConfig_forallb. repeat split. }
  rewrite Hok in Hrun, Hdf.
  destruct Hadv as [_ (m & m1 & Hm & Hm1 & Ht & Hp & Hf & Hs & He)].
  rewrite Hm0 in Hm. injection Hm as <-.
  exists (update (stamp_end t1) batchId s1), (stamp_end t1 m1).
  split; [reflexivity|]. split.
  { unfold getMetrics, update. simpl. now rewrite lookup_alter_eq, Hm1. }
  simpl. rewrite Ht, Hp, Hf, Hs. simpl.
  split; [reflexivity|]. split; [lia|]. split; [|auto].
  destruct (forallb (item_ok processor s) items); lia.
Qed.

Lemma process_empty batchId t0 t1 (s : State) :
  process processor [] batchId t0 t1 s
  = Some (Fulfilled,
          set_metrics
            (<[batchId := {| totalItems := 0; processedItems := 0; failedItems := 0;
                             retries := 0; startTime := t0; endTime := Some t1 |}]>
               (metrics s)) s).
Proof.
  unfold process, createBatches. simpl. unfold update. simpl.
  rewrite alter_insert_eq. reflexivity.
Qed.

Lemma process_stuck items batchId t0 t1 (s : State) :
  items <> [] -> batchSize s = 0 \/ maxConcurrent s = 0 ->
  process processor items batchId t0 t1 s = None.
Proof.
  intros Hne Hz. unfold process, createBatches. simpl.
  destruct (Nat.eq_dec (batchSize s) 0) as [E|E].
  - rewrite E, createBatches_loop_stuck; [reflexivity|].
    destruct items; [contradiction | simpl; lia].
  - destruct Hz as [Hz|Hz]; [contradiction|].
    destruct (createBatches_loop_spec (length items) (batchSize s) items 0)
      as (batches & -> & Hcat); [lia | lia |].
    rewrite rounds_stuck; [reflexivity | exact Hz |].
    rewrite drop_0 in Hcat.
    destruct batches; [simpl in Hcat; now subst | simpl; lia].
Qed.

Lemma item_ok_intro (s : State) item k :
  k <= maxRetries s -> processor item k = true -> item_ok processor s item = true.
Proof.
  unfold item_ok. generalize (maxRetries s). intros n.
  replace k with (0 + k) at 2 by lia. generalize 0 as rc.
  revert n. induction k as [|k IH]; intros n rc Hk Hp.
  - rewrite Nat.add_0_r in Hp. destruct n; simpl; now rewrite Hp.
  - destruct n as [|n]; [lia|]. simpl. apply orb_true_iff. right.
    apply IH; [lia|]. now replace (S rc + k) with (rc + S k) by lia.
Qed.

Lemma item_ok_never (s : State) item :
  (forall n, processor item n = false) -> item_ok processor s item = false.
Proof.
  intros H. unfold item_ok. generalize (maxRetries s) as n, 0 as rc.
  induction n as [|n IH]; intros rc; simpl; rewrite H; simpl; auto.
Qed.

(** ** The delay between two attempts *)

Lemma waits_app (tr1 tr2 : list (@Action T)) :
  waits (tr1 ++ tr2) = waits tr1 ++ waits tr2.
Proof.
  induction tr1 as [|[item rc|item ms] tr1 IH]; simpl; [reflexivity|exact IH|].
  now rewrite IH.
Qed.

(** Every delay [processWithRetry] waits is [retryDelay], whatever the
    attempt. *)
Lemma processWithRetry_waits fuel item batchId rc (s s' : State) c :
  processWithRetry processor fuel item batchId rc s = Some (c, s') ->
  exists k, waits (trace s') = waits (trace s) ++ repeat (retryDelay s) k.
Proof.
  revert rc s. induction fuel as [|fuel IH]; intros rc s; simpl.
  - destruct (processor item rc); [|destruct (rc <? maxRetries s)];
      intros [= <- <-] || discriminate 1; exists 0; simpl;
      now rewrite waits_app, !app_nil_r.
  - destruct (processor item rc).
    + intros [= <- <-]. exists 0. simpl. now rewrite waits_app, !app_nil_r.
    + destruct (rc <? maxRetries s).
      * intros H. apply IH in H as [k Hk]. exists (S k).
        rewrite Hk. simpl. rewrite !waits_app. simpl.
        rewrite app_nil_r, <- app_assoc. reflexivity.
      * intros [= <- <-]. exists 0. simpl. now rewrite waits_app, !app_nil_r.
Qed.

(** ** The claims *)

(** What holds of the runs that resolve.  Once
    [process(items, perItemFn, batchId)] has resolved, the metrics of
    the run satisfy [processedItems + failedItems = totalItems], and
    [totalItems] is the length of the collection.  The run does resolve
    when every item is fulfilled at one of its attempts up to
    [maxRetries] (a function that always succeeds, or one that fails
    [k] times with [k <= maxRetries]) and the batch size and the
    concurrency limit are positive.  On an empty collection it resolves
    at once, with no call of the function and all counters zero. *)
Theorem resolved_run_accounts_for_every_item
  (items : list T) (batchId : string) (t0 t1 : Z) (s : State) :
  (forall s',
     process processor items batchId t0 t1 s = Some (Fulfilled, s') ->
     exists m,
       getMetrics batchId s' = Some m /\
       processedItems m + failedItems m = totalItems m /\
       totalItems m = length items) /\
  (0 < batchSize s -> 0 < maxConcurrent s ->
   (forall item, item ∈ items ->
      exists k, k <= maxRetries s /\ processor item k = true) ->
   exists s', process processor items batchId t0 t1 s = Some (Fulfilled, s')) /\
  (items = [] ->
   exists s' m,
     process processor items batchId t0 t1 s = Some (Fulfilled, s') /\
     trace s' = trace s /\
     getMetrics batchId s' = Some m /\
     totalItems m = 0 /\ processedItems m = 0 /\
     failedItems m = 0 /\ retries m = 0).
Proof.
  split; [|split].
  - intros s' Hrun. destruct items as [|x l] eqn:Hitems.
    + rewrite process_empty in Hrun. injection Hrun as <-.
      eexists. split; [apply lookup_insert_eq|]. simpl. auto.
    + rewrite <- Hitems in *.
      destruct (Nat.eq_dec (batchSize s) 0) as [Hb|Hb].
      { rewrite process_stuck in Hrun; [discriminate | now subst | now left]. }
      destruct (Nat.eq_dec (maxConcurrent s) 0) as [Hc|Hc].
      { rewrite process_stuck in Hrun; [discriminate | now subst | now right]. }
      destruct (process_spec items batchId t0 t1 s) as
        (s1 & m & Hrun' & Hm & Ht & _ & Hcount & _); [lia | lia |].
      rewrite Hrun in Hrun'.
      destruct (forallb (item_ok processor s) items); [|discriminate].
      injection Hrun' as ->. exists m. split; [exact Hm|]. lia.
  - intros Hb Hc Hall.
    destruct (process_spec items batchId t0 t1 s Hb Hc) as (s1 & m & Hrun & _).
    replace (forallb (item_ok processor s) items) with true in Hrun; [eauto|].
    symmetry. apply forallb_forall. intros item Hin.
    destruct (Hall item) as (k & Hk & Hp); [now apply list_elem_of_In|].
    eapply item_ok_intro; eauto.
  - intros ->. rewrite process_empty. eexists. eexists.
    split; [reflexivity|]. split; [reflexivity|].
    split; [apply lookup_insert_eq|]. simpl. auto.
Qed.

(** What the code does with an item that is given up.  An item whose
    function fails at every attempt is counted as failed, once, when its
    retries are exhausted, and the error is thrown again: with a
    positive batch size and concurrency limit, a run that contains such
    an item rejects, with that failure recorded in its metrics, and no
    more items accounted for than it has. *)
Theorem exhausted_item_is_counted_then_rethrown :
  (forall item batchId (s : State) m,
     metrics s !! batchId = Some m ->
     (forall n, processor item n = false) ->
     exists s',
       processWithRetry processor (maxRetries s) item batchId 0 s = Some (Thrown, s') /\
       advanced batchId 0 1 s s') /\
  (forall items batchId t0 t1 (s : State),
     0 < batchSize s -> 0 < maxConcurrent s ->
     (exists item, item ∈ items /\ forall n, processor item n = false) ->
     exists s' m,
       process processor items batchId t0 t1 s = Some (Thrown, s') /\
       getMetrics batchId s' = Some m /\
       1 <= failedItems m /\
       processedItems m + failedItems m <= totalItems m /\
       totalItems m = length items /\
       endTime m = Some t1).
Proof.
  split.
  - intros item batchId s m Hm Hfail.
    destruct (processWithRetry_spec (maxRetries s) item batchId 0 s m Hm)
      as (s' & Hrun & Hadv); [lia|].
    fold (item_ok processor s item) in *.
    rewrite (item_ok_never s item Hfail) in *. eauto.
  - intros items batchId t0 t1 s Hb Hc (item & Hin & Hfail).
    destruct (process_spec items batchId t0 t1 s Hb Hc)
      as (s' & m & Hrun & Hm & Ht & Hle & Hcount & _ & He).
    assert (Hok : forallb (item_ok processor s) items = false).
    { apply not_true_is_false. intros H.
      rewrite forallb_forall in H. specialize (H item).
      rewrite (item_ok_never s item Hfail) in H.
      discriminate H. now apply list_elem_of_In. }
    rewrite Hok in *. exists s', m.
    split; [exact Hrun|]. split; [exact Hm|]. split; [exact Hcount|].
    split; [lia|]. split; [exact Ht | exact He].
Qed.

End Facts.

Lemma resolved_run_accounts_for_every_item_witness :
  (exists m,
     getMetrics "run" (default three_retries
                         (snd <$> process fails_twice [7; 8] "run" 0 5 three_retries))
     = Some m /\
     processedItems m + failedItems m = totalItems m /\ totalItems m = 2) /\
  (exists s', process fails_twice [7; 8] "run" 0 5 three_retries = Some (Fulfilled, s')).
Proof.
  destruct (resolved_run_accounts_for_every_item fails_twice [7; 8] "run" 0 5 three_retries)
    as (Hcount & Hresolves & _).
  destruct Hresolves as [s' Hrun].
  - vm_compute. lia.
  - vm_compute. lia.
  - intros item _. exists 2. split; [vm_compute; lia | reflexivity].
  - split; [|eauto]. rewrite Hrun. simpl. apply Hcount. exact Hrun.
Defined.

(** C4, at an input that shows the defect.  A processor that takes the
    items one by one is given an item that always fails and one that
    would succeed.  The failure of the first item is counted when its
    retries are exhausted, but the error is thrown again and aborts the
    run: [process] rejects, the function is never called on the second
    item, and the run does not complete with a partial success.  (The
    retry wrapper of the other batch processor, [processChunkWithRetry],
    counts the failure and returns.) *)
Lemma exhausted_item_aborts_run :
  (exists s' m,
     process first_item_fails [1; 2] "run" 0 5 one_by_one = Some (Thrown, s') /\
     trace s' = [Call 1 0; Wait 1 1000; Call 1 1] /\
     getMetrics "run" s' = Some m /\
     totalItems m = 2 /\ processedItems m = 0 /\ failedItems m = 1) /\
  ~ completes_with_partial_success first_item_fails [1; 2] "run" 0 5 one_by_one.
Proof.
  assert (H : exists s' m,
     process first_item_fails [1; 2] "run" 0 5 one_by_one = Some (Thrown, s') /\
     trace s' = [Call 1 0; Wait 1 1000; Call 1 1] /\
     getMetrics "run" s' = Some m /\
     totalItems m = 2 /\ processedItems m = 0 /\ failedItems m = 1).
  { eexists. eexists. split; [vm_compute; reflexivity|].
    split; [reflexivity|]. split; [vm_compute; reflexivity|]. auto. }
  split; [exact H|].
  destruct H as (s' & m & Hrun & _).
  intros (s'' & m' & Hrun' & _). rewrite Hrun in Hrun'. discriminate.
Qed.

(** A run whose per-item function fails at every attempt never
    resolves, whatever the processor is configured with. *)
Lemma always_failing_run_never_resolves (processor : nat -> nat -> bool)
    (items : list nat) batchId t0 t1 (s s' : @State nat) :
  items <> [] -> (forall item n, processor item n = false) ->
  process processor items batchId t0 t1 s <> Some (Fulfilled, s').
Proof.
  intros Hne Hfail Hrun.
  destruct (Nat.eq_dec (batchSize s) 0) as [Hb|Hb].
  { rewrite process_stuck in Hrun; [discriminate | exact Hne | now left]. }
  destruct (Nat.eq_dec (maxConcurrent s) 0) as [Hc|Hc].
  { rewrite process_stuck in Hrun; [discriminate | exact Hne | now right]. }
  destruct (process_spec processor items batchId t0 t1 s) as (s1 & m & Hrun' & _);
    [lia | lia |].
  rewrite Hrun in Hrun'.
  destruct items as [|item rest]; [contradiction|].
  simpl in Hrun'. rewrite (item_ok_never processor s item (Hfail item)) in Hrun'.
  discriminate.
Qed.

(** C3, at an input that shows the defect.  The claim takes a run
    whose per-item function always fails to resolve, with every item
    counted as failed.  A processor that takes the items one by one
    (so that no other item is under way when the run settles) is given
    three items and a function that fails at every attempt: the run
    rejects when the retries of the first item are exhausted, the
    function was never called on the other two, and the metrics count
    one failed item out of three, so that
    [processedItems + failedItems] is not [totalItems]; the run does not
    resolve. *)
Theorem always_failing_run_leaves_items_uncounted :
  (exists s' m,
     process always_fails [1; 2; 3] "run" 0 5 one_by_one = Some (Thrown, s') /\
     trace s' = [Call 1 0; Wait 1 1000; Call 1 1] /\
     getMetrics "run" s' = Some m /\
     totalItems m = 3 /\ processedItems m = 0 /\ failedItems m = 1 /\
     retries m = 1 /\ endTime m = Some 5%Z /\
     processedItems m + failedItems m <> totalItems m) /\
  (forall s', process always_fails [1; 2; 3] "run" 0 5 one_by_one <> Some (Fulfilled, s')).
Proof.
  split.
  - eexists. eexists. split; [vm_compute; reflexivity|].
    split; [reflexivity|]. split; [vm_compute; reflexivity|].
    simpl. repeat split; lia.
  - intros s'. apply always_failing_run_never_resolves; [discriminate | reflexivity].
Qed.

Lemma exhausted_item_is_counted_then_rethrown_witness :
  exists s' m,
    process first_item_fails [1; 2] "run" 0 5 one_by_one = Some (Thrown, s') /\
    getMetrics "run" s' = Some m /\
    1 <= failedItems m /\
    processedItems m + failedItems m <= totalItems m /\
    totalItems m = 2 /\
    endTime m = Some 5%Z.
Proof.
  apply (proj2 (exhausted_item_is_counted_then_rethrown first_item_fails)).
  - vm_compute. lia.
  - vm_compute. lia.
  - exists 1. split; [apply list_elem_of_here | reflexivity].
Defined.

(** The delays [processChunkWithRetry] waits double from one attempt to
    the next: before the attempt that follows [retryCount = j] it waits
    [retryDelay * 2^j]. *)
Lemma processChunkWithRetry_delays addDocument fuel chunk rc
  (s s' : ChunkBatchProcessor.State) (b : bool) :
  ChunkBatchProcessor.processChunkWithRetry addDocument fuel chunk rc s = Some (b, s') ->
  exists k,
    ChunkBatchProcessor.delays s'
    = ChunkBatchProcessor.delays s
      ++ map (fun j => (Z.of_nat (or_default (ChunkBatchProcessor.retryDelay s) 1000)
                        * 2 ^ Z.of_nat j)%Z)
             (seq rc k).
Proof.
  revert rc s. induction fuel as [|fuel IH]; intros rc s; simpl.
  - destruct (addDocument chunk rc).
    + intros [= <- <-]. exists 0. simpl. now rewrite app_nil_r.
    + destruct (rc <? _); [discriminate|].
      intros [= <- <-]. exists 0. simpl. now rewrite app_nil_r.
  - destruct (addDocument chunk rc).
    + intros [= <- <-]. exists 0. simpl. now rewrite app_nil_r.
    + destruct (rc <? _).
      * intros H. apply IH in H as [k Hk]. exists (S k).
        rewrite Hk. simpl. now rewrite <- app_assoc.
      * intros [= <- <-]. exists 0. simpl. now rewrite app_nil_r.
Qed.

(** C5, at the input that shows the defect.  With [maxRetries = 3] and
    [retryDelay = 1000], an item that fails twice and then succeeds is
    counted as processed, but [processWithRetry] waits 1000 ms before
    the second attempt and 1000 ms again before the third, where
    [retryDelay * 2^attempt] is 2000; [processChunkWithRetry] on the
    same inputs waits 1000 ms and then 2000 ms. *)
Theorem retry_delay_does_not_grow :
  (exists s' m,
     process fails_twice [7] "run" 0 5 three_retries = Some (Fulfilled, s') /\
     trace s' = [Call 7 0; Wait 7 1000; Call 7 1; Wait 7 1000; Call 7 2] /\
     waits (trace s') = [1000; 1000]%Z /\
     getMetrics "run" s' = Some m /\
     processedItems m = 1 /\ failedItems m = 0 /\ retries m = 2) /\
  (exists c',
     ChunkBatchProcessor.processChunkWithRetry ChunkBatchProcessor.stored_at_third
       3 "chunk" 0 ChunkBatchProcessor.three_retries = Some (true, c') /\
     ChunkBatchProcessor.delays c' = [1000; 2000]%Z /\
     ChunkBatchProcessor.processedChunks (ChunkBatchProcessor.metrics c') = 1).
Proof.
  split.
  - eexists. eexists. split; [vm_compute; reflexivity|].
    split; [reflexivity|]. split; [reflexivity|].
    split; [vm_compute; reflexivity|]. auto.
  - eexists. split; [vm_compute; reflexivity|]. auto.
Qed.

End BatchProcessorSpec.

(** * Properties of the TTL cache *)

Module CacheSpec.

Section Facts.

Context {V : Type}.

Lemma map_get_set {A : Type} key (x : A) m : map_get key (map_set key x m) = Some x.
Proof.
  induction m as [|[k y] m IH]; simpl.
  - now rewrite String.eqb_refl.
  - destruct (String.eqb k key) eqn:E; simpl.
    + now rewrite String.eqb_refl.
    + now rewrite E.
Qed.

Lemma map_get_delete {A : Type} key (m : list (string * A)) :
  map_get key (map_delete key m) = None.
Proof.
  induction m as [|[k y] m IH]; simpl; [reflexivity|].
  destruct (String.eqb k key) eqn:E; simpl; [exact IH|].
  now rewrite E.
Qed.

Lemma map_delete_length {A : Type} key (m : list (string * A)) :
  length (map_delete key m) <= length m.
Proof.
  induction m as [|[k y] m IH]; simpl; [lia|].
  destruct (negb (String.eqb k key)); simpl; lia.
Qed.

Lemma delete_oldest_length (m : list (string * Cache.CacheEntry V)) :
  m <> [] -> length (Cache.delete_oldest m) < length m.
Proof.
  destruct m as [|[k e] m]; [contradiction|]. intros _. simpl.
  rewrite String.eqb_refl. simpl.
  pose proof (map_delete_length k m). unfold map_delete in *. lia.
Qed.

(** With a capacity of at least one entry, the eviction loop of [set]
    comes to an end within [length m] iterations. *)
Lemma evict_loop_total fuel limit (m : list (string * Cache.CacheEntry V)) :
  (0 < limit)%Z -> length m <= fuel ->
  exists m', Cache.evict_loop fuel limit m = Some m' /\
             (Z.of_nat (length m') < limit)%Z.
Proof.
  intros Hl. revert m. induction fuel as [|fuel IH]; intros m Hf; simpl.
  - destruct m; [|simpl in Hf; lia]. simpl.
    destruct (limit <=? Z.of_nat 0)%Z eqn:E; [apply Z.leb_le in E; lia|].
    exists []. split; [reflexivity | simpl; lia].
  - destruct (limit <=? Z.of_nat (length m))%Z eqn:E.
    + apply IH. apply Z.leb_le in E.
      assert (Hne : m <> []) by (intros ->; simpl in E; lia).
      pose proof (delete_oldest_length m Hne). lia.
    + apply Z.leb_gt in E. eauto.
Qed.

(** With a capacity of zero or less the loop of [set] never ends. *)
Lemma evict_loop_stuck fuel limit (m : list (string * Cache.CacheEntry V)) :
  (limit <= 0)%Z -> Cache.evict_loop fuel limit m = None.
Proof.
  intros Hl. revert m. induction fuel as [|fuel IH]; intros m; simpl;
    replace (limit <=? Z.of_nat (length m))%Z with true
      by (symmetry; apply Z.leb_le; lia); auto.
Qed.

(** [set] on a full cache evicts one entry, the one inserted first. *)
Lemma full_cache_evicts_oldest_only :
  (fun c => map fst (Cache.cache c)) <$> Cache.set 5 "d" 4%Z Cache.full
  = Some ["b"; "c"; "d"].
Proof. reflexivity. Qed.

(** C7, as amended.  On an enabled cache with a capacity of at least
    one entry, [set(k, v)] returns, and a [get(k)] that follows while no
    more than the TTL has elapsed returns [v]; a [get(k)] on an entry
    whose TTL has elapsed returns a miss and removes the entry from the
    store. *)
Theorem enabled_cache_round_trip (c : Cache.Cache V) :
  Cache.enabled c = true ->
  (0 < Cache.maxSize c)%Z ->
  (forall now now' key v,
     (now' - now <= Cache.ttl c)%Z ->
     exists c', Cache.set now key v c = Some c' /\
                Cache.get now' key c' = (Some v, c')) /\
  (forall now key entry,
     map_get key (Cache.cache c) = Some entry ->
     (Cache.ttl c < now - Cache.timestamp entry)%Z ->
     Cache.get now key c = (None, Cache.delete key c) /\
     map_get key (Cache.cache (Cache.delete key c)) = None).
Proof.
  intros Hen Hmax. split.
  - intros now now' key v Hage. unfold Cache.set. rewrite Hen. simpl.
    destruct (evict_loop_total (length (Cache.cache c)) (Cache.maxSize c) (Cache.cache c))
      as (m & -> & _); [exact Hmax | lia |].
    eexists. split; [reflexivity|].
    unfold Cache.get. simpl. rewrite Hen. simpl. rewrite map_get_set. simpl.
    replace (Cache.ttl c <? now' - now)%Z with false
      by (symmetry; apply Z.ltb_ge; lia).
    reflexivity.
  - intros now key entry Hget Hage. split.
    + unfold Cache.get. rewrite Hen, Hget. simpl.
      replace (Cache.ttl c <? now - Cache.timestamp entry)%Z with true
        by (symmetry; apply Z.ltb_lt; lia).
      reflexivity.
    + simpl. apply map_get_delete.
Qed.

End Facts.

Lemma enabled_cache_round_trip_witness :
  let c : Cache.Cache Z :=
    Cache.constructor {| Cache.opt_enabled := None; Cache.opt_maxSize := Some 2%Z;
                         Cache.opt_ttl := Some 10%Z |} in
  (exists c', Cache.set 0 "k" 7%Z c = Some c' /\ Cache.get 10 "k" c' = (Some 7%Z, c')) /\
  (forall c', Cache.set 0 "k" 7%Z c = Some c' ->
     Cache.get 11 "k" c' = (None, Cache.delete "k" c')).
Proof.
  intros c. split.
  - apply (enabled_cache_round_trip c); [reflexivity | reflexivity | simpl; lia].
  - intros c' [= <-].
    eapply (enabled_cache_round_trip _); [reflexivity | reflexivity | reflexivity | simpl; lia].
Defined.

(** C7, as the specification words it, fails on a cache that was built
    with [enabled: false]: [set] stores nothing and [get] answers
    [null]. *)
Lemma disabled_cache_misses :
  Cache.set 0 "k" 7%Z Cache.disabled = Some Cache.disabled /\
  Cache.get 0 "k" Cache.disabled = (None, Cache.disabled) /\
  ~ Cache.round_trip Cache.disabled.
Proof.
  split; [reflexivity|]. split; [reflexivity|].
  intros H. destruct (H 0%Z "k" 7%Z) as (c' & Hset & Hget).
  injection Hset as <-. discriminate Hget.
Qed.

End CacheSpec.

(** * Properties of the query cache *)

Module CacheManagerSpec.
Import CacheManager.

(** ** Doubles *)



(** ** The stable sort by access count *)





(** ** The store *)

Section Store.

Context {V : Type}.

Local Arguments truthy_count : simpl never.



Lemma map_get_elem {A : Type} key (x : A) m : map_get key m = Some x -> (key, x) ∈ m.
Proof.
  induction m as [|[k y] m IH]; simpl; [discriminate|].
  destruct (String.eqb k key) eqn:E.
  - apply String.eqb_eq in E. intros [= ->]. subst. left.
  - intros H. right. auto.
Qed.



Lemma map_delete_keys {A : Type} key x (m : list (string * A)) :
  x ∈ map fst (map_delete key m) <-> x ∈ map fst m /\ x <> key.
Proof.
  induction m as [|[k y] m IH]; simpl.
  - split; [intros H; inversion H | intros [H _]; inversion H].
  - destruct (String.eqb k key) eqn:E; simpl.
    + apply String.eqb_eq in E. subst. rewrite IH, elem_of_cons. split.
      * intros [H1 H2]. auto.
      * intros [[->|H1] H2]; [contradiction | auto].
    + apply String.eqb_neq in E. rewrite !elem_of_cons, IH. split.
      * intros [->|[H1 H2]]; auto.
      * intros [[->|H1] H2]; auto.
Qed.

Lemma map_delete_NoDup {A : Type} key (m : list (string * A)) :
  NoDup (map fst m) -> NoDup (map fst (map_delete key m)).
Proof.
  induction m as [|[k y] m IH]; simpl; [auto|]. intros H.
  apply NoDup_cons in H as [Hk Hnd].
  destruct (negb (String.eqb k key)); simpl; [|auto].
  constructor; [|auto]. intros H. apply Hk.
  now apply (map_delete_keys key k m) in H as [H _].
Qed.

Lemma map_delete_absent {A : Type} key (m : list (string * A)) :
  key ∉ map fst m -> map_delete key m = m.
Proof.
  induction m as [|[k y] m IH]; simpl; [reflexivity|]. intros H.
  destruct (String.eqb k key) eqn:E; simpl.
  - apply String.eqb_eq in E. subst. exfalso. apply H. left.
  - f_equal. apply IH. intros H'. apply H. now right.
Qed.



(** ** The pass that collects the access counts *)










(** ** Eviction *)





End Store.



(** In a store that [get] filled, only the metadata entries carry an
    access count: at capacity, [cleanCache] deletes the metadata of one
    query and leaves nine keys out of ten, the fetched values among
    them. *)
Lemma cleanCache_after_five_fetches :
  length (nc_keys (cache after_five_fetches)) = 10 /\
  length (counted (data (cache after_five_fetches))) = 5 /\
  autoClean 0 after_five_fetches = cleanCache 0 after_five_fetches /\
  evicted 0 after_five_fetches = ["{query:q1}_metadata"] /\
  length (nc_keys (cache (cleanCache 0 after_five_fetches))) = 9.
Proof. vm_compute. repeat split. Qed.

(** A store that is at capacity refuses a new entry: [set] throws, and
    [get] answers [null] for a query it had to fetch. *)
Lemma get_on_full_store :
  fst (get (fun s => s) (fun s => s) "q6" JUndefined
         (Some (Ok (fetched 0))) None 0 after_five_fetches)
  = Ok None.
Proof. vm_compute. reflexivity. Qed.

(** ** Faults *)

Section Faults.

Context {V : Type}.
Variable sha256 : string -> string.
Variable quote : string -> string.

(** Once the key is computed, whatever is thrown in the [try] block is
    caught, and [get] returns. *)
Lemma get_absorbs_faults_after_key query filters fetch ttl now
  (cm : CacheManager V) key :
  generateKey sha256 quote query filters = Ok key ->
  exists r cm', get sha256 quote query filters fetch ttl now cm = (Ok r, cm').
Proof.
  intros Hkey. unfold get. rewrite Hkey. unfold try_catch.
  match goal with |- context [match ?b with _ => _ end] => destruct b as [[r|e] cm'] end.
  - eauto.
  - unfold bind, updateMetrics, ret. eauto.
Qed.

(** A fault of the fetch function is answered by [null]. *)
Lemma get_fetch_fault_is_miss query filters e ttl now (cm : CacheManager V) key :
  generateKey sha256 quote query filters = Ok key ->
  map_get key (data (cache cm)) = None ->
  fst (get sha256 quote query filters (Some (Throw e)) ttl now cm) = Ok None.
Proof.
  intros Hkey Hmiss. unfold get. rewrite Hkey.
  unfold try_catch, bind, cache_get, nc_get. simpl. rewrite Hmiss. reflexivity.
Qed.

(** C8, at an input that shows the defect.  [generateKey] is called
    before the [try] block of [get] is entered, and [JSON.stringify]
    throws a [TypeError] on a [BigInt]: with such a value as [filters],
    [get] throws to its caller instead of answering [null], whatever the
    state of the cache and whether a fetch function is given or not. *)
Theorem get_raises_when_filters_do_not_serialise
  query z fetch ttl now (cm : CacheManager V) :
  get sha256 quote query (JBigInt z) fetch ttl now cm
  = (Throw "TypeError: Do not know how to serialize a BigInt", cm) /\
  get sha256 quote query (JObj [("views"%string, JArr [JNum 1; JBigInt z])]) fetch ttl now cm
  = (Throw "TypeError: Do not know how to serialize a BigInt", cm).
Proof. split; reflexivity. Qed.

End Faults.

End CacheManagerSpec.

(** * More on the worker pool *)

Module WorkerPoolMore.
Import WorkerPool.
Import WorkerPoolSpec.

(** ** Initialisation *)

Lemma initialize_steps k p j :
  idleWorkers p = seq 0 j -> spawned p = j -> workers p = [] ->
  idleWorkers (run (repeat EInit k) p) = seq 0 (j + min k (initPending p)) /\
  spawned (run (repeat EInit k) p) = j + min k (initPending p) /\
  initPending (run (repeat EInit k) p) = initPending p - k /\
  workers (run (repeat EInit k) p) = [] /\
  taskQueue (run (repeat EInit k) p) = taskQueue p /\
  inbox (run (repeat EInit k) p) = inbox p /\
  options (run (repeat EInit k) p) = options p.
Proof.
  revert p j. induction k as [|k IH]; intros p j Hidle Hsp Hw.
  - cbn [repeat run fold_left]. rewrite Nat.min_0_l, Nat.add_0_r, Nat.sub_0_r. auto 10.
  - cbn [repeat run fold_left step]. fold (run (repeat EInit k) (initialize_step p)).
    unfold initialize_step. destruct (initPending p) as [|n] eqn:E.
    + destruct (IH p j Hidle Hsp Hw) as (H1 & H2 & H3 & H4 & H5 & H6 & H7).
      rewrite E in *. rewrite Nat.min_0_r in *. auto 10.
    + destruct (IH (set_initPending n (createWorker p)) (S j))
        as (H1 & H2 & H3 & H4 & H5 & H6 & H7).
      * change (idleWorkers p ++ [spawned p] = seq 0 (S j)).
        rewrite Hidle, Hsp, seq_S. reflexivity.
      * simpl. now rewrite Hsp.
      * simpl. exact Hw.
      * simpl in H1, H2, H3, H4, H5, H6, H7.
        replace (j + min (S k) (S n)) with (S j + min k n) by lia.
        replace (S n - S k) with (n - k) by lia. auto 10.
Qed.

(** X1. Once [initialize] has run, the pool holds exactly [minWorkers]
    workers (two when the option is left out or is 0), all of them
    idle, and [workers] is empty; the iterations left over change
    nothing. *)
Theorem initialize_creates_minWorkers (o : WorkerPoolOptions) (k : nat) :
  let n := minWorkers (normalise o) in
  let p := run (repeat EInit (n - 1 + k)) (constructor o) in
  1 <= n /\
  idleWorkers p = seq 0 n /\ spawned p = n /\ initPending p = 0 /\
  workers p = [] /\ taskQueue p = [] /\ busyWorkers p = [].
Proof.
  intros n p.
  assert (Hn : 1 <= n) by (unfold n; simpl; apply or_default_pos; lia).
  split; [exact Hn|].
  assert (Hc : exists p0, constructor o = p0 /\ idleWorkers p0 = seq 0 1 /\
            spawned p0 = 1 /\ workers p0 = [] /\ initPending p0 = n - 1 /\
            taskQueue p0 = [] /\ inbox p0 = []).
  { unfold constructor. cbn [initPending]. fold n. destruct n as [|m]; [lia|].
    eexists. split; [reflexivity|]. simpl. rewrite Nat.sub_0_r. auto 10. }
  destruct Hc as (p0 & Hc & Hi & Hs & Hw & Hp & Hq & Hb).
  subst p. rewrite Hc.
  destruct (initialize_steps (n - 1 + k) p0 1 Hi Hs Hw) as (H1 & H2 & H3 & H4 & H5 & H6 & _).
  rewrite Hp in *.
  replace (1 + min (n - 1 + k) (n - 1)) with n in * by lia.
  replace (n - 1 - (n - 1 + k)) with 0 in * by lia.
  unfold busyWorkers. rewrite H1, H2, H3, H4, H5, H6, Hq, Hb. simpl. auto 10.
Qed.

(** ** Consistency *)

Lemma reachable_wf p : reachable p -> wf p.
Proof. induction 1; [apply wf_constructor | now apply wf_step]. Qed.

Lemma NoDup_bounded_length (l : list nat) n :
  NoDup l -> (forall x, x ∈ l -> x < n) -> length l <= n.
Proof.
  intros Hnd Hb.
  assert (H : l ⊆+ seq 0 n).
  { apply NoDup_submseteq; [exact Hnd|]. intros x Hx.
    apply list_elem_of_In, in_seq. specialize (Hb x Hx). lia. }
  apply submseteq_length in H. now rewrite length_seq in H.
Qed.

(** X2. In every reachable state the idle workers are pairwise
    distinct, none of them is executing a task, no worker executes two
    tasks, and idle and executing workers together are no more than the
    workers that were constructed. *)
Theorem reachable_pool_is_consistent (p : Pool) :
  reachable p ->
  NoDup (idleWorkers p) /\
  NoDup (busyWorkers p) /\
  (forall w, w ∈ idleWorkers p -> w ∉ busyWorkers p) /\
  length (idleWorkers p) + length (busyWorkers p) <= spawned p.
Proof.
  intros H. destruct (reachable_wf p H) as (Hi & Hb & Hil & Hbl & Hd).
  split; [exact Hi|]. split; [exact Hb|]. split; [exact Hd|].
  rewrite <- length_app. apply NoDup_bounded_length.
  - apply NoDup_app. auto.
  - intros x Hx. apply elem_of_app in Hx as [Hx|Hx]; auto.
Qed.

Lemma reachable_pool_is_consistent_witness :
  let p := run [EExecute "a" "t" 1 0; EExecute "b" "t" 2 0] default_pool in
  NoDup (idleWorkers p) /\ NoDup (busyWorkers p) /\
  length (idleWorkers p) + length (busyWorkers p) <= spawned p.
Proof.
  intros p.
  assert (R : reachable p).
  { repeat (apply reachable_step; [|exact I]). apply reachable_new. }
  destruct (reachable_pool_is_consistent p R) as (H1 & H2 & _ & H4). auto.
Defined.


(** ** The counters and the promises *)

Lemma resolutions_app l1 l2 : resolutions (l1 ++ l2) = resolutions l1 + resolutions l2.
Proof. induction l1 as [|[t [r|r]] l1 IH]; simpl; lia. Qed.

Lemma rejections_app l1 l2 : rejections (l1 ++ l2) = rejections l1 + rejections l2.
Proof. induction l1 as [|[t [r|r]] l1 IH]; simpl; lia. Qed.

Lemma settlements_length l : resolutions l + rejections l = length l.
Proof. induction l as [|[t [r|r]] l IH]; simpl; lia. Qed.

Lemma cleanup_loop_keeps fuel p :
  metrics (cleanup_loop fuel p) = metrics p /\
  settled (cleanup_loop fuel p) = settled p /\
  taskQueue (cleanup_loop fuel p) = taskQueue p /\
  inbox (cleanup_loop fuel p) = inbox p /\
  spawned (cleanup_loop fuel p) = spawned p.
Proof.
  revert p. induction fuel as [|fuel IH]; intros p; simpl; [auto 10|].
  destruct (_ && _); [|auto 10].
  destruct (last (idleWorkers p)); [|auto 10].
  destruct (IH (removeWorker w (terminate w (set_idleWorkers (removelast (idleWorkers p)) p))))
    as (-> & -> & -> & -> & ->).
  auto 10.
Qed.

Lemma terminate_all_keeps l p :
  metrics (fold_left (fun p w => terminate w p) l p) = metrics p /\
  settled (fold_left (fun p w => terminate w p) l p) = settled p.
Proof.
  revert p. induction l as [|x l IH]; intros p; simpl; [auto|].
  destruct (IH (terminate x p)) as [-> ->]. auto.
Qed.

Lemma counted_processNextTask p :
  counted_settlements p -> counted_settlements (processNextTask p).
Proof.
  unfold counted_settlements, processNextTask. intros [H1 H2].
  destruct (taskQueue p); [auto|]. destruct (last (idleWorkers p)); [|auto].
  simpl. destruct (truthy_string _); simpl; [auto|].
  rewrite resolutions_app, rejections_app. simpl. lia.
Qed.

Lemma counted_step e p : counted_settlements p -> counted_settlements (step e p).
Proof.
  intros H. destruct e; simpl.
  - unfold initialize_step. destruct (initPending p); exact H.
  - exact H.
  - unfold executeTask. apply counted_processNextTask.
    match goal with |- counted_settlements (if ?c then _ else _) => destruct c end; exact H.
  - unfold onMessage. simpl. destruct (List.find _ _); [|exact H].
    apply counted_processNextTask. destruct H as [H1 H2].
    unfold counted_settlements.
    destruct (truthy_string (error m)); simpl;
      rewrite resolutions_app, rejections_app; simpl; lia.
  - unfold onTimeout. destruct (List.find _ _); [|exact H].
    destruct H as [H1 H2]. unfold counted_settlements. simpl.
    rewrite resolutions_app, rejections_app. simpl. lia.
  - exact H.
  - unfold handleWorkerExit.
    match goal with |- counted_settlements (if ?c then _ else _) => destruct c end; exact H.
  - destruct (initPending p); [|exact H]. unfold cleanupIdleWorkers, counted_settlements.
    destruct (cleanup_loop_keeps (length (idleWorkers p)) p) as (-> & -> & _). exact H.
  - unfold shutdown. destruct (taskQueue p); simpl; [|exact H].
    unfold shutdown_finish, counted_settlements. simpl.
    destruct (terminate_all_keeps (workers p) p) as (-> & ->). exact H.
Qed.

(** X5. In every reachable state, [completedTasks] is the number of
    calls the pool made of a task's [resolve], and [failedTasks] is not
    more than the number of calls it made of a task's [reject]: the call
    made for a task type without a registered script is not counted as
    a failure.  The counters count calls and not promises: a promise
    that was rejected ignores the [resolve] that follows. *)
Theorem counters_count_resolve_and_reject_calls (p : Pool) :
  reachable p ->
  completedTasks (metrics p) = resolutions (settled p) /\
  failedTasks (metrics p) <= rejections (settled p) /\
  completedTasks (metrics p) + failedTasks (metrics p) <= length (settled p).
Proof.
  intros H.
  assert (Hc : counted_settlements p).
  { induction H as [o | p e _ IH _]; [|now apply counted_step].
    unfold constructor, counted_settlements. simpl.
    destruct (or_default (opt_minWorkers o) 2); simpl; lia. }
  destruct Hc as [H1 H2]. split; [exact H1|]. split; [exact H2|].
  rewrite H1. clear H1.
  pose proof (settlements_length (settled p)). lia.
Qed.

(** A task that is rejected for want of a script, and answered once the
    script is registered, is counted as completed; its promise stays
    rejected. *)
Lemma counters_count_resolve_and_reject_calls_witness :
  let p := run [EInit; EExecute "a" "u" 1 0; ERegister "u" "u.js";
                EExecute "b" "u" 2 0;
                EMessage 0 (workerWrapper "a" (Returns (Some 7%Z))) 9]
             (constructor defaults) in
  completedTasks (metrics p) = resolutions (settled p) /\
  completedTasks (metrics p) = 1 /\
  failedTasks (metrics p) = 0 /\
  settled p = [("a", Rejected "No worker script registered for task type: u");
               ("a", Resolved (Some 7%Z))] /\
  promise "a" (settled p)
  = Some (Rejected "No worker script registered for task type: u").
Proof.
  intros p.
  assert (R : reachable p).
  { repeat (apply reachable_step;
            [|first [exact I | vm_compute; apply list_elem_of_here]]).
    apply reachable_new. }
  destruct (counters_count_resolve_and_reject_calls p R) as (H1 & _ & _).
  split; [exact H1|]. vm_compute. auto.
Defined.


(** ** Workers are never terminated *)

Lemma reachable_minWorkers p : reachable p -> 0 < minWorkers (options p).
Proof.
  induction 1 as [o | p e H IH _].
  - rewrite constructor_options. simpl. apply or_default_pos. lia.
  - rewrite step_options; [exact IH|]. now apply reachable_workers.
Qed.

Lemma step_terminated e p : workers p = [] -> terminated (step e p) = terminated p.
Proof.
  intros H. destruct e; simpl; try rewrite (cleanup_no_workers p H);
    unfold_pool; break_match; rewrite ?H; reflexivity.
Qed.

Lemma step_spawned e p : workers p = [] -> spawned p <= spawned (step e p).
Proof.
  intros H. destruct e; simpl; try rewrite (cleanup_no_workers p H);
    unfold_pool; break_match; rewrite ?H; simpl; lia.
Qed.

Lemma pool_terminates_nothing p : reachable p -> terminated p = [].
Proof.
  induction 1 as [o | p e H IH _].
  - unfold constructor. simpl. break_match; reflexivity.
  - rewrite step_terminated; [exact IH|]. now apply reachable_workers.
Qed.

(** X7. The pool never calls [terminate()]: in every reachable state
    every worker that was constructed is still running, no event makes
    the number of constructed workers smaller, and every ['exit'] and
    every ['error'] of a worker makes the pool construct another one,
    whatever the number of workers it holds. *)
Theorem pool_only_grows (p : Pool) :
  reachable p ->
  terminated p = [] /\
  notTerminated p = seq 0 (spawned p) /\
  (forall e, spawned p <= spawned (step e p)) /\
  (forall w, spawned (step (EExit w) p) = S (spawned p)) /\
  (forall w, spawned (step (EError w) p) = S (spawned p)).
Proof.
  intros H.
  pose proof (pool_terminates_nothing p H) as Ht.
  destruct (reachable_workers p H) as [Hw _].
  pose proof (reachable_minWorkers p H) as Hmin.
  split; [exact Ht|]. split.
  { unfold notTerminated. rewrite Ht. simpl.
    induction (seq 0 (spawned p)) as [|x l IH]; simpl; congruence. }
  split; [intros e; now apply step_spawned|]. split.
  - intros w. simpl. unfold handleWorkerExit, removeWorker. simpl. rewrite Hw. simpl.
    replace (0 <? minWorkers (options p)) with true
      by (symmetry; apply Nat.ltb_lt; exact Hmin).
    reflexivity.
  - intros w. reflexivity.
Qed.

Lemma pool_only_grows_witness :
  let p := run [EExecute "a" "t" 1 0; EExit 0; ECleanup; EShutdown] default_pool in
  terminated p = [] /\ notTerminated p = [0; 1; 2] /\
  spawned (step (EExit 1) p) = 4.
Proof.
  intros p.
  assert (R : reachable p).
  { repeat (apply reachable_step; [|first [exact I | vm_compute; lia]]).
    apply reachable_new. }
  destruct (pool_only_grows p R) as (H1 & H2 & _ & H4 & _).
  split; [exact H1|]. split; [exact H2|]. exact (H4 1).
Defined.

(** ** A task type without a script *)

Lemma snoc_case {A : Type} (l : list A) : l = [] \/ exists l' x, l = l' ++ [x].
Proof. destruct l as [|x l] using rev_ind; [now left | right; eauto]. Qed.

Lemma blocked_submission t q tid ty d now p :
  workers p = [] -> 0 < maxWorkers (options p) ->
  taskQueue p = t :: q ->
  truthy_string (workerScripts p !! type t) = false ->
  let p' := executeTask tid ty d now p in
  workers p' = [] /\ options p' = options p /\
  taskQueue p' = t :: q ++ [{| id := tid; type := ty; data := d; startTime := now |}] /\
  workerScripts p' = workerScripts p /\
  inbox p' = inbox p /\
  idleWorkers p' = removelast (idleWorkers p) /\
  settled p' = settled p ++
    [(id t, Rejected (String.append "No worker script registered for task type: " (type t)))].
Proof.
  intros Hw Hmax Hq Hs p'. subst p'. unfold executeTask. simpl. rewrite Hw. simpl.
  replace (0 <? maxWorkers (options p)) with true
    by (symmetry; apply Nat.ltb_lt; exact Hmax).
  unfold processNextTask, createWorker.
  destruct (snoc_case (idleWorkers p)) as [Hi | (l & x & Hi)].
  - rewrite Hi. simpl. rewrite Hi, Hq. simpl. rewrite Hs. simpl. rewrite Hw. auto 10.
  - rewrite Hi, length_app. simpl.
    replace (length l + 1 =? 0) with false by (symmetry; apply Nat.eqb_neq; lia).
    simpl. rewrite Hi, Hq. simpl.
    rewrite last_snoc, removelast_last. simpl. rewrite Hs. simpl.
    rewrite Hw. auto 10.
Qed.

(** X3. A task whose type has no registered script is rejected when it
    reaches the head of the queue but it is not taken out of the queue.
    From then on every call of [executeTask] takes one more worker out
    of the idle list without giving it work, rejects the promise of the
    head task once more, and sends nothing to any worker: the tasks
    behind it are neither started nor settled, and [shutdown] stays in
    its polling loop. *)
Theorem unregistered_head_blocks_queue (p : Pool) (t : WorkerTask) (q : list WorkerTask)
    (es : list Event) :
  reachable p ->
  taskQueue p = t :: q ->
  truthy_string (workerScripts p !! type t) = false ->
  forallb is_submission es = true ->
  let p' := run es p in
  hd_error (taskQueue p') = Some t /\
  length (taskQueue p') = length (taskQueue p) + length es /\
  inbox p' = inbox p /\
  length (idleWorkers p') = length (idleWorkers p) - length es /\
  settled p' = settled p ++
    repeat (id t, Rejected (String.append "No worker script registered for task type: " (type t)))
      (length es) /\
  shutdown p' = None.
Proof.
  intros H Hq Hs Hes.
  destruct (reachable_workers p H) as [Hw Hmax]. clear H.
  revert p q Hq Hs Hw Hmax. induction es as [|e es IH]; intros p q Hq Hs Hw Hmax; simpl.
  - rewrite Hq, app_nil_r, Nat.sub_0_r, Nat.add_0_r. unfold shutdown. rewrite Hq. auto 10.
  - simpl in Hes. apply andb_true_iff in Hes as [He Hes].
    destruct e; try discriminate. simpl.
    destruct (blocked_submission t q tid ty d now p Hw Hmax Hq Hs)
      as (Hw' & Ho' & Hq' & Hs' & Hi' & Hidle' & Hset').
    specialize (IH Hes (executeTask tid ty d now p) _ Hq').
    rewrite Hs', Ho' in IH. specialize (IH Hs Hw' Hmax).
    destruct IH as (I1 & I2 & I3 & I4 & I5 & I6).
    fold (run es (executeTask tid ty d now p)).
    rewrite I1, I2, I3, I4, I5, I6, Hq', Hi', Hidle', Hset', Hq.
    rewrite <- app_assoc. simpl. rewrite length_app.
    assert (Hl : length (removelast (idleWorkers p)) = length (idleWorkers p) - 1).
    { destruct (snoc_case (idleWorkers p)) as [-> | (l & x & ->)]; [reflexivity|].
      rewrite removelast_last, length_app. simpl. lia. }
    rewrite Hl. simpl. split; [reflexivity|]. split; [lia|]. split; [reflexivity|].
    split; [lia|]. auto.
Qed.

Lemma unregistered_head_blocks_queue_witness :
  let p := run [EExecute "a" "u" 1 0] default_pool in
  let p' := run [EExecute "b" "t" 2 0; EExecute "c" "t" 3 0] p in
  map id (taskQueue p') = ["a"; "b"; "c"] /\ inbox p' = [] /\ idleWorkers p' = [] /\
  shutdown p' = None.
Proof.
  intros p p'.
  assert (R : reachable p).
  { repeat (apply reachable_step; [|exact I]). apply reachable_new. }
  destruct (unregistered_head_blocks_queue p
              {| id := "a"; type := "u"; data := 1; startTime := 0 |} []
              [EExecute "b" "t" 2 0; EExecute "c" "t" 3 0] R
              eq_refl eq_refl eq_refl) as (_ & _ & H3 & _ & _ & H6).
  split; [reflexivity|]. split; [exact H3|]. split; [reflexivity|]. exact H6.
Defined.


(** ** From the submission of a task to its answer *)

Lemma remove_first_absent w l : w ∉ l -> remove_first w l = l.
Proof.
  induction l as [|x l IH]; simpl; [reflexivity|]. intros H.
  apply not_elem_of_cons in H as [Hx Hl].
  destruct (Nat.eqb x w) eqn:E; [apply Nat.eqb_eq in E; congruence|].
  now rewrite IH.
Qed.

Lemma remove_posted_snoc w tid l :
  w ∉ map fst l -> remove_posted w tid (l ++ [(w, tid)]) = l.
Proof.
  induction l as [|[w' t'] l IH]; simpl; intros H.
  - now rewrite Nat.eqb_refl, String.eqb_refl.
  - apply not_elem_of_cons in H as [Hx Hl].
    destruct (Nat.eqb w' w) eqn:E; [apply Nat.eqb_eq in E; congruence|].
    simpl. now rewrite IH.
Qed.

(** X4. A task submitted to a pool whose queue is empty, for a type
    with a registered script, is sent at once to the worker at the end
    of the idle list (to a new worker when no worker is idle).  When
    that worker posts its answer, the promise of the task is settled
    once, resolved with the result of the script or rejected with the
    message of the error it threw, the queue is empty again, the worker
    is idle again, and one counter of the metrics went up by one.  A
    script that throws an error with an empty message has its task
    resolved, with no value, and counted as completed. *)
Theorem task_round_trip (p : Pool) (tid ty : string) (d now now' : Z) (o : ScriptOutcome) :
  reachable p ->
  taskQueue p = [] ->
  truthy_string (workerScripts p !! ty) = true ->
  let w := default (spawned p) (last (idleWorkers p)) in
  let p1 := step (EExecute tid ty d now) p in
  let p2 := step (EMessage w (workerWrapper tid o) now') p1 in
  let failed := match o with
                | Returns _ => false
                | ThrowsError message => negb (String.eqb message "")
                | ThrowsOther => true
                end in
  inbox p1 = inbox p ++ [(w, tid)] /\
  settled p1 = settled p /\
  inbox p2 = inbox p /\
  taskQueue p2 = [] /\
  idleWorkers p2 = match idleWorkers p with [] => [w] | _ :: _ => idleWorkers p end /\
  settled p2 = settled p ++
    [(tid, match o with
           | Returns r => Resolved r
           | ThrowsError message =>
               if String.eqb message "" then Resolved None else Rejected message
           | ThrowsOther => Rejected "Unknown error"
           end)] /\
  completedTasks (metrics p2) = completedTasks (metrics p) + (if failed then 0 else 1) /\
  failedTasks (metrics p2) = failedTasks (metrics p) + (if failed then 1 else 0) /\
  totalProcessingTime (metrics p2) = (totalProcessingTime (metrics p) + (now' - now))%Z.
Proof.
  intros H Hq Hs w p1 p2 failed.
  destruct (reachable_workers p H) as [Hw Hmax].
  destruct (reachable_wf p H) as (Hi & Hb & Hil & Hbl & Hd).
  assert (Hfresh : w ∉ map fst (inbox p)).
  { unfold w. destruct (snoc_case (idleWorkers p)) as [E | (l & x & E)]; rewrite E.
    - simpl. intros Hin. apply Hbl in Hin. lia.
    - rewrite last_snoc. simpl. apply Hd. rewrite E. apply elem_of_app. right.
      now apply list_elem_of_singleton. }
  assert (H1 : p1 = set_inbox (inbox p ++ [(w, tid)])
                      (set_idleWorkers (removelast (idleWorkers p))
                         (set_spawned (match idleWorkers p with
                                       | [] => S (spawned p) | _ :: _ => spawned p end)
                            (set_taskQueue
                               [{| id := tid; type := ty; data := d; startTime := now |}] p)))).
  { unfold p1, w. simpl. unfold executeTask. simpl. rewrite Hw, Hq. simpl.
    replace (0 <? maxWorkers (options p)) with true
      by (symmetry; apply Nat.ltb_lt; exact Hmax).
    unfold processNextTask, createWorker, postMessage.
    destruct (snoc_case (idleWorkers p)) as [E | (l & x & E)].
    - rewrite E. simpl. rewrite E. simpl. rewrite Hs. simpl. reflexivity.
    - rewrite E, length_app. simpl.
      replace (length l + 1 =? 0) with false by (symmetry; apply Nat.eqb_neq; lia).
      simpl. rewrite E, last_snoc, removelast_last. simpl. rewrite Hs. simpl.
      destruct (l ++ [x]) eqn:E'; [destruct l; discriminate|]. reflexivity. }
  assert (Hidle : removelast (idleWorkers p) ++ [w]
                  = match idleWorkers p with [] => [w] | _ :: _ => idleWorkers p end).
  { unfold w. destruct (snoc_case (idleWorkers p)) as [E | (l & x & E)]; rewrite E.
    - reflexivity.
    - rewrite removelast_last, last_snoc. simpl.
      destruct (l ++ [x]) eqn:E'; [destruct l; discriminate|].
      first [reflexivity | exact E' | congruence]. }
  split; [rewrite H1; reflexivity|]. split; [rewrite H1; reflexivity|].
  unfold p2. rewrite H1. simpl.
  assert (Ht : taskId (workerWrapper tid o) = tid) by (destruct o; reflexivity).
  rewrite Ht, remove_posted_snoc by exact Hfresh.
  rewrite <- Hidle.
  unfold onMessage, processNextTask. simpl. rewrite !Ht, !String.eqb_refl. simpl.
  destruct o as [r | message |]; simpl.
  - rewrite String.eqb_refl. simpl. split; [reflexivity|]. split; [reflexivity|].
    split; [reflexivity|]. split; [reflexivity|]. split; [lia|]. split; [lia|]. reflexivity.
  - destruct (String.eqb message "") eqn:Em; simpl; rewrite String.eqb_refl; simpl;
      (split; [reflexivity|]); (split; [reflexivity|]);
      (split; [reflexivity|]); (split; [reflexivity|]); (split; [lia|]); (split; [lia|]);
      reflexivity.
  - rewrite String.eqb_refl. simpl. split; [reflexivity|]. split; [reflexivity|].
    split; [reflexivity|]. split; [reflexivity|]. split; [lia|]. split; [lia|]. reflexivity.
Qed.

Lemma task_round_trip_witness :
  let p2 := run [EExecute "a" "t" 1 0; EMessage 1 (workerWrapper "a" (ThrowsError "")) 5]
              default_pool in
  settled p2 = [("a", Resolved None)] /\ idleWorkers p2 = [0; 1] /\
  completedTasks (metrics p2) = 1 /\ failedTasks (metrics p2) = 0.
Proof.
  assert (R : reachable default_pool).
  { repeat (apply reachable_step; [|exact I]). apply reachable_new. }
  destruct (task_round_trip default_pool "a" "t" 1 0 5 (ThrowsError "") R eq_refl eq_refl)
    as (_ & _ & _ & _ & H5 & H6 & H7 & H8 & _).
  exact (conj H6 (conj H5 (conj H7 H8))).
Defined.

(** ** A task that times out *)

Lemma find_id (tid : string) (q : list WorkerTask) (task : WorkerTask) :
  List.find (fun t => String.eqb (id t) tid) q = Some task -> id task = tid.
Proof. intros H. apply find_some in H as [_ H]. now apply String.eqb_eq. Qed.

(** X6. When the timeout of a task runs while the task is still in the
    queue, the task is taken out of the queue, its promise is rejected
    with ['Task timeout'], [failedTasks] goes up by one and a new worker
    is constructed and put on the idle list; nothing is sent to it, and
    [terminate()] is not called on the worker that was executing the
    task.  When that worker answers later, the answer is dropped: no
    promise is settled, no counter changes, and the worker is neither
    put back on the idle list nor terminated. *)
Theorem timed_out_worker_is_lost (p : Pool) (tid : string) (w : Worker)
    (task : WorkerTask) (m : Reply) (now : Z) :
  reachable p ->
  (w, tid) ∈ inbox p ->
  List.find (fun t => String.eqb (id t) tid) (taskQueue p) = Some task ->
  List.find (fun t => String.eqb (id t) tid) (remove_task tid (taskQueue p)) = None ->
  taskId m = tid ->
  let p1 := step (ETimeout tid w) p in
  let p2 := step (EMessage w m now) p1 in
  taskQueue p1 = remove_task tid (taskQueue p) /\
  settled p1 = settled p ++ [(tid, Rejected "Task timeout")] /\
  failedTasks (metrics p1) = S (failedTasks (metrics p)) /\
  completedTasks (metrics p1) = completedTasks (metrics p) /\
  idleWorkers p1 = idleWorkers p ++ [spawned p] /\
  spawned p1 = S (spawned p) /\
  inbox p1 = inbox p /\
  terminated p1 = terminated p /\
  settled p2 = settled p1 /\ metrics p2 = metrics p1 /\ taskQueue p2 = taskQueue p1 /\
  idleWorkers p2 = idleWorkers p1 /\
  (w ∉ idleWorkers p2) /\ (w ∉ busyWorkers p2) /\ (w ∉ terminated p2).
Proof.
  intros H Hin Hfind Hgone Hm p1 p2.
  destruct (reachable_workers p H) as [Hw Hmax].
  destruct (reachable_wf p H) as (Hi & Hb & Hil & Hbl & Hd).
  pose proof (pool_terminates_nothing p H) as Ht.
  assert (Hbusy : w ∈ busyWorkers p) by (eapply elem_of_map_fst, Hin).
  assert (Hnotidle : w ∉ idleWorkers p) by (intros Hx; now apply (Hd w Hx)).
  assert (Hid := find_id _ _ _ Hfind).
  assert (E1 : p1 = createWorker
                      (removeWorker w
                         (reject task "Task timeout"
                            (set_metrics
                               {| completedTasks := completedTasks (metrics p);
                                  failedTasks := S (failedTasks (metrics p));
                                  totalProcessingTime := totalProcessingTime (metrics p) |}
                               (set_taskQueue (remove_task tid (taskQueue p)) p))))).
  { unfold p1. simpl. unfold onTimeout. now rewrite Hfind. }
  clearbody p1.
  assert (Hq1 : taskQueue p1 = remove_task tid (taskQueue p)) by (rewrite E1; reflexivity).
  assert (E2 : p2 = set_inbox (remove_posted w tid (inbox p1)) p1).
  { unfold p2. simpl. rewrite Hm. unfold onMessage. simpl. rewrite Hm, Hq1, Hgone.
    reflexivity. }
  clearbody p2. rewrite E2. simpl. rewrite E1. simpl.
  rewrite Hid, (remove_first_absent w (idleWorkers p) Hnotidle).
  split; [reflexivity|]. split; [reflexivity|]. split; [reflexivity|].
  split; [reflexivity|]. split; [reflexivity|]. split; [reflexivity|].
  split; [reflexivity|]. split; [reflexivity|]. split; [reflexivity|].
  split; [reflexivity|]. split; [reflexivity|]. split; [reflexivity|].
  split; [|split].
  - intros Hx. apply elem_of_app in Hx as [Hx|Hx]; [now apply Hnotidle|].
    apply list_elem_of_singleton in Hx. apply Hbl in Hbusy. lia.
  - unfold busyWorkers. simpl. now apply remove_posted_gone.
  - rewrite Ht. intros Hx. inversion Hx.
Qed.

Lemma timed_out_worker_is_lost_witness :
  let p := run [EExecute "a" "t" 1 0] default_pool in
  let p2 := run [ETimeout "a" 1; EMessage 1 (workerWrapper "a" (Returns (Some 7%Z))) 9] p in
  settled p2 = [("a", Rejected "Task timeout")] /\
  idleWorkers p2 = [0; 2] /\ busyWorkers p2 = [] /\ terminated p2 = [].
Proof.
  intros p.
  assert (R : reachable p).
  { repeat (apply reachable_step; [|exact I]). apply reachable_new. }
  assert (Hin : (1, "a"%string) ∈ inbox p) by (vm_compute; constructor).
  destruct (timed_out_worker_is_lost p "a" 1
              {| id := "a"; type := "t"; data := 1; startTime := 0 |}
              (workerWrapper "a" (Returns (Some 7%Z))) 9 R Hin eq_refl eq_refl eq_refl)
    as (_ & _ & _ & _ & _ & _ & _ & _ & H9 & _ & _ & H12 & _).
  simpl. split; [exact H9|]. split; [exact H12|]. split; reflexivity.
Defined.


(** ** Which task is sent to a worker *)

Lemma processNextTask_head p x :
  x ∈ inbox (processNextTask p) ->
  x ∈ inbox p \/
  exists t, hd_error (taskQueue (processNextTask p)) = Some t /\ snd x = id t /\
            truthy_string (workerScripts p !! type t) = true.
Proof.
  unfold processNextTask.
  destruct (taskQueue p) as [|task q] eqn:Hq; [rewrite Hq; auto|].
  destruct (last (idleWorkers p)) as [worker|]; [|rewrite Hq; auto].
  simpl. destruct (truthy_string (workerScripts p !! type task)) eqn:Hs;
    unfold postMessage, reject; simpl; rewrite Hq; [|auto].
  intros H. apply elem_of_app in H as [H|H]; [auto|].
  apply list_elem_of_singleton in H. subst. right. exists task. auto.
Qed.

Lemma cleanup_loop_inbox fuel p : inbox (cleanup_loop fuel p) = inbox p.
Proof. apply cleanup_loop_keeps. Qed.

(** X22. Whatever happens to the pool, the only task that is sent to a
    worker is the one at the head of the queue, and only when a script
    is registered for its type: a task behind the head is not started
    before the head has left the queue, however many workers are
    idle. *)
Theorem only_the_head_task_is_dispatched (p : Pool) (e : Event) (x : Worker * string) :
  x ∈ inbox (step e p) ->
  x ∈ inbox p \/
  exists t, hd_error (taskQueue (step e p)) = Some t /\ snd x = id t /\
            truthy_string (workerScripts (step e p) !! type t) = true.
Proof.
  destruct e; simpl.
  - unfold initialize_step. destruct (initPending p); simpl; auto.
  - auto.
  - unfold executeTask. intros H. apply processNextTask_head in H as [H|H].
    + left. revert H. match goal with |- context [if ?c then _ else _] => destruct c end; auto.
    + right. destruct H as (t & H1 & H2 & H3). exists t. split; [exact H1|].
      split; [exact H2|].
      replace (workerScripts (processNextTask _)) with (workerScripts p);
        [revert H3; match goal with |- context [if ?c then _ else _] => destruct c end; auto|].
      unfold_pool. break_match; reflexivity.
  - unfold onMessage. simpl. destruct (List.find _ _) as [task|]; simpl.
    + intros H. apply processNextTask_head in H as [H|H].
      * left. revert H. destruct (truthy_string (error m)); simpl; intros H;
          apply list_elem_of_In in H; apply list_elem_of_In;
          clear -H; induction (inbox p) as [|[w' t'] l IH]; simpl in *; auto;
          destruct (Nat.eqb w' worker && String.eqb t' (taskId m)); simpl in *; tauto.
      * right. destruct H as (t & H1 & H2 & H3). exists t. split; [exact H1|].
        split; [exact H2|].
        replace (workerScripts (processNextTask _)) with (workerScripts p);
          [revert H3; destruct (truthy_string (error m)); auto|].
        unfold_pool. break_match; reflexivity.
    + intros H. left. apply list_elem_of_In in H. apply list_elem_of_In.
      clear -H. induction (inbox p) as [|[w' t'] l IH]; simpl in *; auto.
      destruct (Nat.eqb w' worker && String.eqb t' (taskId m)); simpl in *; tauto.
  - unfold onTimeout. destruct (List.find _ _); simpl; auto.
  - auto.
  - unfold handleWorkerExit. simpl.
    match goal with |- context [if ?c then _ else _] => destruct c end; simpl;
      intros H; left; apply list_elem_of_In in H; apply filter_In in H as [H _];
      now apply list_elem_of_In.
  - destruct (initPending p); [|auto]. unfold cleanupIdleWorkers.
    rewrite cleanup_loop_inbox. auto.
  - unfold shutdown. destruct (taskQueue p); simpl; [|auto].
    unfold shutdown_finish. simpl. intros H. left. revert H.
    generalize (workers p). intros l. revert p.
    induction l as [|w l IH]; intros p; simpl; [auto|].
    intros H. apply IH in H. exact H.
Qed.

Lemma only_the_head_task_is_dispatched_witness :
  let p := run [EExecute "a" "t" 1 0] default_pool in
  exists t, hd_error (taskQueue (step (EExecute "b" "t" 2 0) p)) = Some t /\ id t = "a"%string.
Proof.
  intros p.
  destruct (only_the_head_task_is_dispatched p (EExecute "b" "t" 2 0) (0, "a"%string))
    as [H | (t & H1 & H2 & _)].
  - vm_compute. apply list_elem_of_further, list_elem_of_here.
  - exfalso. vm_compute in H. apply list_elem_of_singleton in H. discriminate.
  - exists t. split; [exact H1 | now rewrite <- H2].
Defined.

End WorkerPoolMore.

(** * More on the batch processor *)

Module BatchProcessorMore.
Import BatchProcessor.
Import BatchProcessorSpec.

Section Facts.

Context {T : Type}.
Variable processor : T -> nat -> bool.

Local Abbreviation State := (@State T).

(** ** The batches *)

Lemma createBatches_loop_lookup fuel size (items : list T) i :
  0 < size -> length items <= i + fuel ->
  exists batches,
    createBatches_loop fuel size items i = Some batches /\
    length batches = (length items - i + size - 1) / size /\
    forall k, batches !! k =
              if i + k * size <? length items
              then Some (take size (drop (i + k * size) items))
              else None.
Proof.
  intros Hsize. revert i. induction fuel as [|fuel IH]; intros i Hlen; simpl.
  - replace (i <? length items) with false by (symmetry; apply Nat.ltb_ge; lia).
    exists []. split; [reflexivity|]. split.
    + replace (length items - i + size - 1) with (size - 1) by lia.
      symmetry. apply Nat.div_small. lia.
    + intros k. simpl.
      replace (i + k * size <? length items) with false
        by (symmetry; apply Nat.ltb_ge; lia).
      reflexivity.
  - destruct (i <? length items) eqn:Hi.
    + apply Nat.ltb_lt in Hi.
      destruct (IH (i + size)) as (batches & -> & Hl & Hk); [lia|].
      eexists. split; [reflexivity|]. split.
      * simpl. rewrite Hl.
        destruct (Nat.le_gt_cases size (length items - i)) as [Hge|Hlt].
        -- replace (length items - i + size - 1)
             with (length items - (i + size) + size - 1 + 1 * size) by lia.
           rewrite Nat.div_add by lia. lia.
        -- replace (length items - (i + size) + size - 1) with (size - 1) by lia.
           rewrite (Nat.div_small (size - 1)) by lia.
           apply (Nat.div_unique _ _ 1 (length items - i - 1)); lia.
      * intros [|k]; simpl.
        -- rewrite Nat.add_0_r, slice_from.
           replace (i <? length items) with true by (symmetry; apply Nat.ltb_lt; lia).
           reflexivity.
        -- rewrite Hk. replace (i + size + k * size) with (i + (size + k * size)) by lia.
           reflexivity.
    + apply Nat.ltb_ge in Hi. exists []. split; [reflexivity|]. split.
      * replace (length items - i + size - 1) with (size - 1) by lia.
        symmetry. apply Nat.div_small. lia.
      * intros k. simpl.
        replace (i + k * size <? length items) with false
          by (symmetry; apply Nat.ltb_ge; lia).
        reflexivity.
Qed.

(** X8. With a positive [batchSize], [createBatches] cuts the
    collection into consecutive batches: joined in order they give the
    collection back, there are [ceil(length / batchSize)] of them, batch
    number [k] holds the items from position [k * batchSize] on, no
    batch is empty or longer than [batchSize], and every batch but the
    last one holds exactly [batchSize] items. *)
Theorem createBatches_partitions (s : State) (items : list T) :
  0 < batchSize s ->
  exists batches,
    createBatches s items = Some batches /\
    concat batches = items /\
    length batches = (length items + batchSize s - 1) / batchSize s /\
    forall k b, batches !! k = Some b ->
      b = take (batchSize s) (drop (k * batchSize s) items) /\
      0 < length b <= batchSize s /\
      (S k < length batches -> length b = batchSize s).
Proof.
  intros Hsize. unfold createBatches.
  destruct (createBatches_loop_lookup (length items) (batchSize s) items 0 Hsize)
    as (batches & Hrun & Hl & Hk); [lia|].
  destruct (createBatches_loop_spec (length items) (batchSize s) items 0 Hsize)
    as (batches' & Hrun' & Hcat); [lia|].
  rewrite Hrun in Hrun'. injection Hrun' as <-.
  exists batches. split; [exact Hrun|]. split; [now rewrite drop_0 in Hcat|].
  split; [rewrite Hl; f_equal; lia|].
  intros k b Hb. rewrite Hk in Hb. simpl in Hb.
  destruct (k * batchSize s <? length items) eqn:E; [|discriminate].
  apply Nat.ltb_lt in E. injection Hb as <-.
  split; [reflexivity|]. rewrite length_take, length_drop. split; [lia|].
  intros Hnext.
  assert (Hn : is_Some (batches !! S k)) by (apply lookup_lt_is_Some; lia).
  rewrite Hk in Hn. simpl in Hn.
  destruct (batchSize s + k * batchSize s <? length items) eqn:E'.
  - apply Nat.ltb_lt in E'. lia.
  - destruct Hn as [x Hx]. discriminate.
Qed.

(** ** Runs that never settle *)

(** X9. The constructor keeps a [batchSize] or a [maxConcurrent] of
    [0] ([??] only replaces [undefined]); with either of them [process]
    never settles on a collection that is not empty: the loop of
    [createBatches], or the loop over the rounds, does not advance,
    whatever the number of iterations it is given. *)
Theorem process_never_settles_with_zero_size
    (o : BatchProcessorOptions) (items : list T) (batchId : string) (t0 t1 : Z) :
  items <> [] ->
  opt_batchSize o = Some 0 \/ opt_maxConcurrent o = Some 0 ->
  process processor items batchId t0 t1 (constructor o) = None /\
  (opt_batchSize o = Some 0 ->
   forall fuel, createBatches_loop fuel (batchSize (@constructor T o)) items 0 = None) /\
  (opt_maxConcurrent o = Some 0 ->
   forall fuel batches s, batches <> [] -> sameConfig (constructor o) s ->
     rounds processor fuel batches batchId 0 s = None).
Proof.
  intros Hne Hz. split; [|split].
  - apply process_stuck; [exact Hne|].
    destruct Hz as [Hz|Hz]; [left | right]; simpl; rewrite Hz; reflexivity.
  - intros Hb fuel. simpl. rewrite Hb. simpl. apply createBatches_loop_stuck.
    destruct items; [contradiction | simpl; lia].
  - intros Hc fuel batches s Hbs (_ & _ & _ & Hmc). apply rounds_stuck.
    + rewrite Hmc. simpl. rewrite Hc. reflexivity.
    + destruct batches; [contradiction | simpl; lia].
Qed.

(** ** Calls, delays and counters *)

Lemma calls_app (tr1 tr2 : list (@Action T)) :
  calls (tr1 ++ tr2) = calls tr1 + calls tr2.
Proof.
  induction tr1 as [|[item rc|item ms] tr1 IH]; simpl; [reflexivity| |exact IH].
  now rewrite IH.
Qed.

Lemma accounted_refl batchId (s : State) m :
  metrics s !! batchId = Some m -> accounted batchId 0 0 0 s s.
Proof.
  intros H. split; [apply sameConfig_refl|]. split; [auto|].
  exists m, m. rewrite !Nat.add_0_r. simpl. rewrite app_nil_r. auto 10.
Qed.

Lemma accounted_trans batchId a b c a' b' c' (s1 s2 s3 : State) :
  accounted batchId a b c s1 s2 -> accounted batchId a' b' c' s2 s3 ->
  accounted batchId (a + a') (b + b') (c + c') s1 s3.
Proof.
  intros (C1 & F1 & m1 & m2 & H1 & H2 & Ht & Hp & Hf & Hr & Hc & Hw)
         (C2 & F2 & m2' & m3 & H2' & H3 & Ht' & Hp' & Hf' & Hr' & Hc' & Hw').
  rewrite H2 in H2'. injection H2' as <-.
  split; [eapply sameConfig_trans; eauto|].
  split; [intros other Ho; rewrite F2, F1; auto|].
  exists m1, m3.
  split; [exact H1|]. split; [exact H3|]. split; [congruence|].
  split; [lia|]. split; [lia|]. split; [lia|]. split; [lia|].
  rewrite Hw', Hw. destruct C1 as (_ & _ & -> & _).
  rewrite <- app_assoc, repeat_app. reflexivity.
Qed.

Lemma accounted_is_Some batchId a b c (s s' : State) :
  accounted batchId a b c s s' -> is_Some (metrics s' !! batchId).
Proof. intros (_ & _ & m & m' & _ & H & _). eauto. Qed.

Lemma accounted_call f batchId item rc (s : State) m dp df :
  metrics s !! batchId = Some m ->
  totalItems (f m) = totalItems m ->
  processedItems (f m) = processedItems m + dp ->
  failedItems (f m) = failedItems m + df ->
  retries (f m) = retries m ->
  dp + df = 1 ->
  accounted batchId dp df 0 s (update f batchId (record (Call item rc) s)).
Proof.
  intros Hm Ht Hp Hf Hr Hsum. split; [repeat split|]. split.
  - intros other Ho. unfold update. simpl. now rewrite lookup_alter_ne.
  - exists m, (f m). unfold update. simpl. rewrite lookup_alter_eq, Hm. simpl.
    rewrite calls_app, waits_app. simpl. rewrite !app_nil_r.
    split; [reflexivity|]. split; [reflexivity|]. split; [exact Ht|].
    split; [exact Hp|]. split; [exact Hf|]. split; [lia|]. split; [lia|]. reflexivity.
Qed.

Lemma accounted_retry batchId item rc (s : State) m :
  metrics s !! batchId = Some m ->
  accounted batchId 0 0 1 s
    (record (Wait item (retryDelay s))
       (update incr_retries batchId (record (Call item rc) s))).
Proof.
  intros Hm. split; [repeat split|]. split.
  - intros other Ho. unfold update. simpl. now rewrite lookup_alter_ne.
  - exists m, (incr_retries m). unfold update. simpl. rewrite lookup_alter_eq, Hm. simpl.
    rewrite !calls_app, !waits_app. simpl. rewrite !app_nil_r.
    split; [reflexivity|]. split; [reflexivity|]. split; [reflexivity|].
    split; [lia|]. split; [lia|]. split; [lia|]. split; [lia|]. reflexivity.
Qed.

Lemma processWithRetry_accounted fuel item batchId rc (s s' : State) m c :
  metrics s !! batchId = Some m ->
  fuel + rc = maxRetries s ->
  processWithRetry processor fuel item batchId rc s = Some (c, s') ->
  exists dp df dr,
    accounted batchId dp df dr s s' /\ dp + df = 1 /\ dr <= fuel /\
    (df = 1 -> dr = fuel).
Proof.
  revert rc s m. induction fuel as [|fuel IH]; intros rc s m Hm Hf; simpl.
  - destruct (processor item rc) eqn:E.
    + intros [= <- <-]. exists 1, 0, 0. split; [|lia].
      eapply accounted_call; eauto; simpl; lia.
    + replace (rc <? maxRetries s) with false
        by (symmetry; apply Nat.ltb_ge; simpl in Hf; lia).
      intros [= <- <-]. exists 0, 1, 0. split; [|lia].
      eapply accounted_call; eauto; simpl; lia.
  - destruct (processor item rc) eqn:E.
    + intros [= <- <-]. exists 1, 0, 0. split; [|lia].
      eapply accounted_call; eauto; simpl; lia.
    + replace (rc <? maxRetries s) with true
        by (symmetry; apply Nat.ltb_lt; lia).
      intros Hrun.
      pose proof (accounted_retry batchId item rc s m Hm) as A.
      destruct (accounted_is_Some _ _ _ _ _ _ A) as [m2 Hm2].
      destruct (IH (S rc) _ m2 Hm2 ltac:(simpl; lia) Hrun)
        as (dp & df & dr & A' & Hsum & Hle & Hex).
      exists dp, df, (S dr). split; [|lia].
      apply (accounted_trans batchId 0 0 1 dp df dr _ _ _ A A').
Qed.

Lemma processBatch_accounted batch batchId (s s' : State) m c :
  metrics s !! batchId = Some m ->
  processBatch processor batch batchId s = Some (c, s') ->
  exists dp df dr,
    accounted batchId dp df dr s s' /\ dp + df = length batch /\
    maxRetries s * df <= dr <= maxRetries s * (dp + df).
Proof.
  revert s m c. induction batch as [|item rest IH]; intros s m c Hm; simpl.
  - intros [= <- <-]. exists 0, 0, 0. split; [eapply accounted_refl, Hm | lia].
  - destruct (processWithRetry processor (maxRetries s) item batchId 0 s)
      as [[c1 s1]|] eqn:E1; [|discriminate].
    destruct (processWithRetry_accounted _ _ _ _ _ _ _ _ Hm (Nat.add_0_r _) E1)
      as (a & b & r & A & Hsum & Hle & Hex).
    destruct (accounted_is_Some _ _ _ _ _ _ A) as [m1 Hm1].
    destruct (processBatch processor rest batchId s1) as [[c2 s2]|] eqn:E2; [|discriminate].
    intros [= <- <-].
    destruct (IH s1 m1 c2 Hm1 E2) as (dp & df & dr & A' & Hlen & Hb).
    assert (Hmr : maxRetries s1 = maxRetries s) by apply A.
    rewrite Hmr in Hb.
    exists (a + dp), (b + df), (r + dr).
    split; [eapply accounted_trans; eauto|]. split; [lia|].
    assert (Hcase : (a = 1 /\ b = 0) \/ (a = 0 /\ b = 1 /\ r = maxRetries s)) by lia.
    destruct Hcase as [[-> ->]|(-> & -> & ->)]; nia.
Qed.

Lemma processBatches_accounted batches batchId (s s' : State) m c :
  metrics s !! batchId = Some m ->
  processBatches processor batches batchId s = Some (c, s') ->
  exists dp df dr,
    accounted batchId dp df dr s s' /\
    maxRetries s * df <= dr <= maxRetries s * (dp + df).
Proof.
  revert s m c. induction batches as [|batch rest IH]; intros s m c Hm; simpl.
  - intros [= <- <-]. exists 0, 0, 0. split; [eapply accounted_refl, Hm | lia].
  - destruct (processBatch processor batch batchId s) as [[c1 s1]|] eqn:E1; [|discriminate].
    destruct (processBatch_accounted _ _ _ _ _ _ Hm E1) as (a & b & r & A & _ & Hb1).
    destruct (accounted_is_Some _ _ _ _ _ _ A) as [m1 Hm1].
    destruct (processBatches processor rest batchId s1) as [[c2 s2]|] eqn:E2; [|discriminate].
    intros [= <- <-].
    destruct (IH s1 m1 c2 Hm1 E2) as (dp & df & dr & A' & Hb).
    assert (Hmr : maxRetries s1 = maxRetries s) by apply A.
    rewrite Hmr in Hb.
    exists (a + dp), (b + df), (r + dr).
    split; [eapply accounted_trans; eauto | nia].
Qed.

Lemma rounds_accounted fuel batches batchId i (s s' : State) m c :
  metrics s !! batchId = Some m ->
  rounds processor fuel batches batchId i s = Some (c, s') ->
  exists dp df dr,
    accounted batchId dp df dr s s' /\
    maxRetries s * df <= dr <= maxRetries s * (dp + df).
Proof.
  revert i s m. induction fuel as [|fuel IH]; intros i s m Hm; simpl.
  - destruct (i <? length batches); [discriminate|].
    intros [= <- <-]. exists 0, 0, 0. split; [eapply accounted_refl, Hm | lia].
  - destruct (i <? length batches).
    + destruct (processBatches processor _ batchId s) as [[c1 s1]|] eqn:E1; [|discriminate].
      destruct (processBatches_accounted _ _ _ _ _ _ Hm E1) as (a & b & r & A & Hb1).
      destruct c1.
      * intros Hrun.
        destruct (accounted_is_Some _ _ _ _ _ _ A) as [m1 Hm1].
        destruct (IH _ s1 m1 Hm1 Hrun) as (dp & df & dr & A' & Hb).
        assert (Hmr : maxRetries s1 = maxRetries s) by apply A.
        rewrite Hmr in Hb.
        exists (a + dp), (b + df), (r + dr).
        split; [eapply accounted_trans; eauto | nia].
      * intros [= <- <-]. exists a, b, r. auto.
    + intros [= <- <-]. exists 0, 0, 0. split; [eapply accounted_refl, Hm | lia].
Qed.

Lemma process_accounted items batchId t0 t1 (s s' : State) c :
  process processor items batchId t0 t1 s = Some (c, s') ->
  sameConfig s s' /\
  (forall other, other <> batchId -> getMetrics other s' = getMetrics other s) /\
  exists m,
    getMetrics batchId s' = Some m /\
    calls (trace s') = calls (trace s) + processedItems m + failedItems m + retries m /\
    waits (trace s') = waits (trace s) ++ repeat (retryDelay s) (retries m) /\
    maxRetries s * failedItems m <= retries m /\
    retries m <= maxRetries s * (processedItems m + failedItems m).
Proof.
  unfold process.
  set (m0 := {| totalItems := length items; processedItems := 0; failedItems := 0;
                retries := 0; startTime := t0; endTime := None |}).
  set (s0 := set_metrics (<[batchId := m0]> (metrics s)) s).
  assert (Hm0 : metrics s0 !! batchId = Some m0) by apply lookup_insert_eq.
  destruct (createBatches s0 items) as [batches|]; [|discriminate].
  destruct (rounds processor (length batches) batches batchId 0 s0) as [[c1 s1]|] eqn:E;
    [|discriminate].
  intros [= <- <-].
  destruct (rounds_accounted _ _ _ _ _ _ _ _ Hm0 E)
    as (dp & df & dr & (C & F & m & m1 & Hm & Hm1 & Ht & Hp & Hf & Hr & Hc & Hw) & Hb).
  rewrite Hm0 in Hm. injection Hm as <-. simpl in *.
  split; [exact C|]. split.
  - intros other Ho. unfold getMetrics, update. simpl.
    rewrite lookup_alter_ne by congruence. rewrite F by exact Ho.
    apply lookup_insert_ne. congruence.
  - exists (stamp_end t1 m1). unfold getMetrics, update. simpl.
    rewrite lookup_alter_eq, Hm1. simpl. rewrite Hp, Hf, Hr.
    split; [reflexivity|]. split; [lia|]. split; [exact Hw|]. lia.
Qed.

Lemma resolved_run_has_no_failure items batchId t0 t1 (s s' : State) m :
  process processor items batchId t0 t1 s = Some (Fulfilled, s') ->
  getMetrics batchId s' = Some m ->
  failedItems m = 0 /\ processedItems m = length items.
Proof.
  intros Hrun Hm. destruct items as [|x l] eqn:Hitems.
  - rewrite process_empty in Hrun. injection Hrun as <-.
    unfold getMetrics in Hm. simpl in Hm. rewrite lookup_insert_eq in Hm.
    injection Hm as <-. auto.
  - rewrite <- Hitems in *.
    destruct (Nat.eq_dec (batchSize s) 0) as [Hb|Hb].
    { rewrite process_stuck in Hrun; [discriminate | now subst | now left]. }
    destruct (Nat.eq_dec (maxConcurrent s) 0) as [Hc|Hc].
    { rewrite process_stuck in Hrun; [discriminate | now subst | now right]. }
    destruct (process_spec processor items batchId t0 t1 s) as
      (s1 & m1 & Hrun' & Hm1 & _ & _ & Hcount & _); [lia | lia |].
    rewrite Hrun in Hrun'.
    destruct (forallb (item_ok processor s) items); [|discriminate].
    injection Hrun' as ->. rewrite Hm in Hm1. injection Hm1 as ->. exact Hcount.
Qed.

(** X11. Once every item that a run started has finished, the
    per-item function was called once for each item counted as
    processed, once for each item counted as failed and once more for
    each retry; one delay of [retryDelay] was awaited for each retry;
    every failed item used all its [maxRetries] retries and no item
    used more.  For a run that resolves that is the moment it resolves,
    and then no item is counted as failed and every item is counted as
    processed.  (A run that rejects does so at the first item that is
    given up, and the other items of its round may finish later.) *)
Theorem finished_run_counts_every_call
    (items : list T) (batchId : string) (t0 t1 : Z) (s s' : State) (c : Completion) :
  process processor items batchId t0 t1 s = Some (c, s') ->
  exists m,
    getMetrics batchId s' = Some m /\
    calls (trace s') = calls (trace s) + processedItems m + failedItems m + retries m /\
    waits (trace s') = waits (trace s) ++ repeat (retryDelay s) (retries m) /\
    maxRetries s * failedItems m <= retries m /\
    retries m <= maxRetries s * (processedItems m + failedItems m) /\
    (c = Fulfilled ->
     failedItems m = 0 /\ processedItems m = length items /\
     calls (trace s') = calls (trace s) + length items + retries m /\
     retries m <= maxRetries s * length items).
Proof.
  intros H. destruct (process_accounted _ _ _ _ _ _ _ H) as (_ & _ & m & Hm & Hc & Hw & Hlo & Hhi).
  exists m. split; [exact Hm|]. split; [exact Hc|]. split; [exact Hw|].
  split; [exact Hlo|]. split; [exact Hhi|].
  intros ->. destruct (resolved_run_has_no_failure _ _ _ _ _ _ _ H Hm) as [Hf Hp].
  rewrite Hf, Hp in *. split; [reflexivity|]. split; [reflexivity|].
  split; lia.
Qed.

(** X10. A run only touches the metrics entry of its own [batchId]:
    the entries of the other runs and the configuration of the
    processor are as before, and [clearMetrics] removes the entry of
    the run and no other. *)
Theorem run_keeps_other_metrics
    (items : list T) (batchId other : string) (t0 t1 : Z) (s s' : State) (c : Completion) :
  process processor items batchId t0 t1 s = Some (c, s') ->
  other <> batchId ->
  getMetrics other s' = getMetrics other s /\
  sameConfig s s' /\
  is_Some (getMetrics batchId s') /\
  getMetrics batchId (clearMetrics batchId s') = None /\
  getMetrics other (clearMetrics batchId s') = getMetrics other s.
Proof.
  intros H Ho. apply process_accounted in H as (C & F & m & Hm & _).
  split; [now apply F|]. split; [exact C|]. split; [eauto|].
  unfold getMetrics, clearMetrics in *. simpl. split.
  - apply lookup_delete_eq.
  - rewrite lookup_delete_ne by congruence. now apply F.
Qed.

End Facts.

Lemma createBatches_partitions_witness :
  createBatches (@constructor nat {| opt_batchSize := Some 2; opt_maxRetries := None;
                                     opt_retryDelay := None; opt_maxConcurrent := None |})
    [1; 2; 3; 4; 5] = Some [[1; 2]; [3; 4]; [5]].
Proof.
  destruct (createBatches_partitions
              (@constructor nat {| opt_batchSize := Some 2; opt_maxRetries := None;
                                   opt_retryDelay := None; opt_maxConcurrent := None |})
              [1; 2; 3; 4; 5]) as (batches & Hrun & _); [simpl; lia|].
  rewrite Hrun. vm_compute in Hrun. injection Hrun as <-. reflexivity.
Defined.

Lemma finished_run_counts_every_call_witness :
  exists s' m,
    process fails_twice [7; 8] "run" 0 5 three_retries = Some (Fulfilled, s') /\
    getMetrics "run" s' = Some m /\
    failedItems m = 0 /\ processedItems m = 2 /\
    calls (trace s') = 2 + retries m /\
    waits (trace s') = repeat 1000%Z (retries m).
Proof.
  assert (H : exists s', process fails_twice [7; 8] "run" 0 5 three_retries
                         = Some (Fulfilled, s')).
  { eexists. vm_compute. reflexivity. }
  destruct H as [s' H]. exists s'.
  destruct (finished_run_counts_every_call fails_twice _ _ _ _ _ _ _ H)
    as (m & Hm & _ & Hw & _ & _ & Hful).
  destruct (Hful eq_refl) as (Hf & Hp & Hc & _).
  exists m. split; [exact H|]. split; [exact Hm|]. split; [exact Hf|].
  split; [exact Hp|]. split; [exact Hc | exact Hw].
Defined.

Lemma run_keeps_other_metrics_witness :
  exists s1 s2,
    process fails_twice [7] "first" 0 5 three_retries = Some (Fulfilled, s1) /\
    process fails_twice [8; 9] "second" 6 9 s1 = Some (Fulfilled, s2) /\
    getMetrics "first" s2 = getMetrics "first" s1.
Proof.
  assert (H1 : exists s1, process fails_twice [7] "first" 0 5 three_retries
                          = Some (Fulfilled, s1)).
  { eexists. vm_compute. reflexivity. }
  destruct H1 as [s1 H1]. exists s1.
  assert (H2 : exists s2, process fails_twice [8; 9] "second" 6 9 s1 = Some (Fulfilled, s2)).
  { destruct (process_spec fails_twice [8; 9] "second" 6 9 s1) as (s2 & m & Hrun & _).
    - vm_compute in H1. injection H1 as <-. simpl. lia.
    - vm_compute in H1. injection H1 as <-. simpl. lia.
    - vm_compute in H1. injection H1 as <-. eexists. exact Hrun. }
  destruct H2 as [s2 H2]. exists s2. split; [exact H1|]. split; [exact H2|].
  apply (run_keeps_other_metrics fails_twice [8; 9] "second" "first" 6 9 s1 s2 Fulfilled H2).
  discriminate.
Defined.

Lemma process_never_settles_with_zero_size_witness :
  process fails_twice [7] "run" 0 5
    (constructor {| opt_batchSize := Some 0; opt_maxRetries := None;
                    opt_retryDelay := None; opt_maxConcurrent := None |}) = None.
Proof.
  apply (process_never_settles_with_zero_size fails_twice
           {| opt_batchSize := Some 0; opt_maxRetries := None;
              opt_retryDelay := None; opt_maxConcurrent := None |} [7] "run" 0 5).
  - discriminate.
  - left. reflexivity.
Defined.

End BatchProcessorMore.

(** * More on the chunk-oriented batch processor *)

Module ChunkBatchProcessorMore.
Import ChunkBatchProcessor.

(** ** The retry wrapper *)

Section Retry.

Variable addDocument : string -> nat -> bool.

Lemma backoff_sum (d : Z) (rc k : nat) :
  fold_right Z.add 0%Z (map (fun j => (d * 2 ^ Z.of_nat j)%Z) (seq rc k))
  = (d * 2 ^ Z.of_nat rc * (2 ^ Z.of_nat k - 1))%Z.
Proof.
  revert rc. induction k as [|k IH]; intros rc; simpl seq; simpl map; simpl fold_right.
  - simpl. lia.
  - rewrite IH. rewrite !Nat2Z.inj_succ, !Z.pow_succ_r by lia. lia.
Qed.

Lemma processChunkWithRetry_run fuel chunk rc (s : State) :
  fuel + rc = or_default (maxRetries s) 3 ->
  exists s' k,
    processChunkWithRetry addDocument fuel chunk rc s
    = Some (stored_within addDocument fuel chunk rc, s') /\
    k <= fuel /\
    (stored_within addDocument fuel chunk rc = false -> k = fuel) /\
    (stored_within addDocument fuel chunk rc = true -> addDocument chunk (rc + k) = true) /\
    (forall j, j < k -> addDocument chunk (rc + j) = false) /\
    delays s' = delays s
                ++ map (fun j => (Z.of_nat (or_default (retryDelay s) 1000)
                                  * 2 ^ Z.of_nat j)%Z) (seq rc k) /\
    maxRetries s' = maxRetries s /\ retryDelay s' = retryDelay s /\
    totalChunks (metrics s') = totalChunks (metrics s) /\
    retryCount (metrics s') = retryCount (metrics s) /\
    processedChunks (metrics s')
    = processedChunks (metrics s)
      + (if stored_within addDocument fuel chunk rc then 1 else 0) /\
    failedChunks (metrics s')
    = failedChunks (metrics s)
      + (if stored_within addDocument fuel chunk rc then 0 else 1).
Proof.
  revert rc s. induction fuel as [|fuel IH]; intros rc s Hf; simpl.
  - destruct (addDocument chunk rc) eqn:E; simpl.
    + eexists. exists 0. split; [reflexivity|]. simpl.
      rewrite Nat.add_0_r, app_nil_r.
      split; [lia|]. split; [discriminate|]. split; [auto|].
      split; [intros j Hj; lia|]. split; [reflexivity|]. split; [reflexivity|].
      split; [reflexivity|]. split; [reflexivity|]. split; [reflexivity|].
      split; lia.
    + replace (rc <? or_default (maxRetries s) 3) with false
        by (symmetry; apply Nat.ltb_ge; simpl in Hf; lia).
      eexists. exists 0. split; [reflexivity|]. simpl. rewrite app_nil_r.
      split; [lia|]. split; [reflexivity|]. split; [discriminate|].
      split; [intros j Hj; lia|]. split; [reflexivity|]. split; [reflexivity|].
      split; [reflexivity|]. split; [reflexivity|]. split; [reflexivity|].
      split; lia.
  - destruct (addDocument chunk rc) eqn:E; simpl.
    + eexists. exists 0. split; [reflexivity|]. simpl.
      rewrite Nat.add_0_r, app_nil_r.
      split; [lia|]. split; [discriminate|]. split; [auto|].
      split; [intros j Hj; lia|]. split; [reflexivity|]. split; [reflexivity|].
      split; [reflexivity|]. split; [reflexivity|]. split; [reflexivity|].
      split; lia.
    + replace (rc <? or_default (maxRetries s) 3) with true
        by (symmetry; apply Nat.ltb_lt; lia).
      match goal with
      | |- context [processChunkWithRetry _ _ _ _ ?s1] =>
          destruct (IH (S rc) s1) as (s' & k & Hrun & Hk & Hno & Hyes & Hbefore & Hd
                                      & Hmr & Hrd & Ht & Hr & Hp & Hfl)
      end.
      { simpl. lia. }
      simpl in Hd, Hmr, Hrd, Ht, Hr, Hp, Hfl.
      exists s', (S k). split; [exact Hrun|].
      split; [lia|]. split; [intros H; apply Hno in H; lia|].
      split; [intros H; apply Hyes in H; now replace (rc + S k) with (S rc + k) by lia|].
      split.
      { intros [|j] Hj; [now rewrite Nat.add_0_r|].
        replace (rc + S j) with (S rc + j) by lia. apply Hbefore. lia. }
      split; [rewrite Hd, <- app_assoc; reflexivity|].
      auto 10.
Qed.

(** X12. [processChunkWithRetry] never throws and always returns: the
    answer is [true] when one of the calls of [addDocument] up to
    [maxRetries] is fulfilled and [false] otherwise, and the chunk is
    counted once, as processed or as failed.  Before the retry that
    follows attempt [j] it waits [retryDelay * 2^j]; a chunk that is
    given up was tried [maxRetries + 1] times and waited for
    [retryDelay * (2^maxRetries - 1)] in all.  The [retryCount] of the
    metrics is not changed by the retries. *)
Theorem chunk_retry_gives_up_quietly (chunk : string) (s : State) :
  let max := or_default (maxRetries s) 3 in
  let d := Z.of_nat (or_default (retryDelay s) 1000) in
  let stored := stored_within addDocument max chunk 0 in
  exists s' k,
    processChunkWithRetry addDocument max chunk 0 s = Some (stored, s') /\
    k <= max /\
    (stored = false -> k = max) /\
    (stored = true -> addDocument chunk k = true) /\
    (forall j, j < k -> addDocument chunk j = false) /\
    delays s' = delays s ++ map (fun j => (d * 2 ^ Z.of_nat j)%Z) (seq 0 k) /\
    fold_right Z.add 0%Z (map (fun j => (d * 2 ^ Z.of_nat j)%Z) (seq 0 k))
    = (d * (2 ^ Z.of_nat k - 1))%Z /\
    processedChunks (metrics s') = processedChunks (metrics s) + (if stored then 1 else 0) /\
    failedChunks (metrics s') = failedChunks (metrics s) + (if stored then 0 else 1) /\
    retryCount (metrics s') = retryCount (metrics s) /\
    totalChunks (metrics s') = totalChunks (metrics s).
Proof.
  intros max d stored.
  destruct (processChunkWithRetry_run max chunk 0 s)
    as (s' & k & Hrun & Hk & Hno & Hyes & Hbefore & Hd & Hmr & Hrd & Ht & Hr & Hp & Hfl);
    [unfold max; lia|].
  exists s', k. split; [exact Hrun|]. split; [exact Hk|]. split; [exact Hno|].
  split; [exact Hyes|]. split; [exact Hbefore|]. split; [exact Hd|].
  split; [rewrite backoff_sum; simpl; lia|]. auto.
Qed.

End Retry.

(** ** Documents *)

Section Documents.

Context {M : Type}.
Variable batchSize : option nat.
Variable splitText : string -> list string.
Variable addDocument : string -> nat -> bool.

Lemma splitDocuments_acc (documents : list (string * M)) (acc : list (@Chunk M)) :
  splitDocuments splitText documents acc
  = acc ++ drop (length acc) (splitDocuments splitText documents acc) /\
  map text (splitDocuments splitText documents acc)
  = map text acc ++ concat (map (fun d => splitText (fst d)) documents).
Proof.
  revert acc. induction documents as [|[t md] rest IH]; intros acc; simpl.
  - rewrite drop_all, !app_nil_r. auto.
  - destruct (IH (acc ++ map (fun c => {| text := c; metadata := md;
                                          chunkIndex := length acc |}) (splitText t)))
      as [H1 H2].
    split.
    + rewrite H1 at 1. rewrite <- app_assoc. f_equal.
      rewrite H1 at 2. rewrite <- app_assoc, drop_app_length. reflexivity.
    + rewrite H2, map_app, map_map, <- app_assoc. simpl. now rewrite map_id.
Qed.

(** X14. In the chunk list [processBatch] builds, the [chunkIndex] put
    in the metadata of a chunk is the number of chunks of the documents
    before its own: all the chunks of one document carry the same
    [chunkIndex], and those of the first document carry [0]. *)
Theorem chunks_of_a_document_share_chunkIndex
    (pre : list (string * M)) (t : string) (md : M) (post : list (string * M)) :
  let before := splitDocuments splitText pre [] in
  let own := map (fun c => {| text := c; metadata := md; chunkIndex := length before |})
               (splitText t) in
  exists after,
    splitDocuments splitText (pre ++ (t, md) :: post) [] = before ++ own ++ after /\
    length before = length (concat (map (fun d => splitText (fst d)) pre)) /\
    map text after = concat (map (fun d => splitText (fst d)) post) /\
    (forall c, c ∈ own -> chunkIndex c = length before).
Proof.
  intros before own.
  assert (H : forall (post : list (string * M)) acc,
             splitDocuments splitText (pre ++ post) acc
             = splitDocuments splitText post (splitDocuments splitText pre acc)).
  { clear. induction pre as [|[t' md'] pre IH]; intros post acc; simpl; [reflexivity|].
    apply IH. }
  rewrite H. simpl. fold before. fold own.
  destruct (splitDocuments_acc post (before ++ own)) as [H1 H2].
  exists (drop (length (before ++ own)) (splitDocuments splitText post (before ++ own))).
  split; [rewrite H1 at 1; now rewrite <- app_assoc|].
  split.
  { unfold before. rewrite <- (length_map text), (proj2 (splitDocuments_acc pre [])).
    reflexivity. }
  split.
  { rewrite H1 in H2 at 1. rewrite map_app in H2. now apply app_inv_head in H2. }
  intros c Hc. unfold own in Hc. apply list_elem_of_In, in_map_iff in Hc as (x & <- & _).
  reflexivity.
Qed.

Lemma chunk_concat {A : Type} fuel size (l : list A) :
  0 < size -> length l <= fuel -> concat (chunk fuel size l) = l.
Proof.
  intros Hsize. revert l. induction fuel as [|fuel IH]; intros l Hl.
  - destruct l; [reflexivity | simpl in Hl; lia].
  - destruct l as [|x l]; [reflexivity|].
    change (take size (x :: l) ++ concat (chunk fuel size (drop size (x :: l))) = x :: l).
    rewrite IH; [apply take_drop|]. rewrite length_drop. simpl in *. lia.
Qed.

Lemma processChunks_run (batch : list (@Chunk M)) (s : State) :
  exists s',
    processChunks addDocument batch s = Some s' /\
    maxRetries s' = maxRetries s /\
    totalChunks (metrics s') = totalChunks (metrics s) /\
    retryCount (metrics s') = retryCount (metrics s) /\
    processedChunks (metrics s') + failedChunks (metrics s')
    = processedChunks (metrics s) + failedChunks (metrics s) + length batch /\
    failedChunks (metrics s')
    = failedChunks (metrics s)
      + length (List.filter
                  (fun c => negb (stored_within addDocument (or_default (maxRetries s) 3)
                                    (text c) 0)) batch).
Proof.
  revert s. induction batch as [|c rest IH]; intros s; simpl.
  - exists s. split; [reflexivity|]. split; [reflexivity|]. split; [reflexivity|].
    split; [reflexivity|]. split; lia.
  - destruct (processChunkWithRetry_run addDocument (or_default (maxRetries s) 3) (text c) 0 s)
      as (s1 & k & Hrun & _ & _ & _ & _ & _ & Hmr & _ & Ht & Hr & Hp & Hf); [lia|].
    rewrite Hrun.
    destruct (IH s1) as (s2 & Hrest & Hmr2 & Ht2 & Hr2 & Hsum & Hfail).
    exists s2. split; [exact Hrest|]. split; [congruence|]. split; [congruence|].
    split; [congruence|]. rewrite Hmr in Hfail.
    destruct (stored_within addDocument (or_default (maxRetries s) 3) (text c) 0);
      simpl; lia.
Qed.

Lemma processAll_run (batches : list (list (@Chunk M))) (s : State) :
  exists s',
    processAll addDocument batches s = Some s' /\
    maxRetries s' = maxRetries s /\
    totalChunks (metrics s') = totalChunks (metrics s) /\
    retryCount (metrics s') = retryCount (metrics s) /\
    processedChunks (metrics s') + failedChunks (metrics s')
    = processedChunks (metrics s) + failedChunks (metrics s) + length (concat batches) /\
    failedChunks (metrics s')
    = failedChunks (metrics s)
      + length (List.filter
                  (fun c => negb (stored_within addDocument (or_default (maxRetries s) 3)
                                    (text c) 0)) (concat batches)).
Proof.
  revert s. induction batches as [|batch rest IH]; intros s; simpl.
  - exists s. split; [reflexivity|]. split; [reflexivity|]. split; [reflexivity|].
    split; [reflexivity|]. split; lia.
  - destruct (processChunks_run batch s) as (s1 & Hrun & Hmr & Ht & Hr & Hsum & Hf).
    rewrite Hrun.
    destruct (IH s1) as (s2 & Hrest & Hmr2 & Ht2 & Hr2 & Hsum2 & Hf2).
    exists s2. split; [exact Hrest|]. split; [congruence|]. split; [congruence|].
    split; [congruence|]. rewrite Hmr in Hf2.
    rewrite List.filter_app, !length_app. split; lia.
Qed.

(** X13. [processBatch] always resolves, also when chunks could not be
    stored: [totalChunks] is the number of chunks of all the documents,
    every chunk is counted once, as processed or as failed, and the
    failed ones are the chunks for which no call of [addDocument] up to
    [maxRetries] was fulfilled.  The two counters are not reset by the
    call: they add to what they were, and it is after [initialize] or
    [resetMetrics] that they sum to [totalChunks]. *)
Theorem processBatch_counts_every_chunk (documents : list (string * M)) (s : State) :
  let texts := concat (map (fun d => splitText (fst d)) documents) in
  exists m s',
    processBatch batchSize splitText addDocument documents s = Some (m, s') /\
    getMetrics s' = m /\
    totalChunks m = length texts /\
    processedChunks m + failedChunks m
    = processedChunks (metrics s) + failedChunks (metrics s) + totalChunks m /\
    failedChunks m
    = failedChunks (metrics s)
      + length (List.filter
                  (fun c => negb (stored_within addDocument (or_default (maxRetries s) 3) c 0))
                  texts) /\
    retryCount m = retryCount (metrics s) /\
    (getMetrics s = getMetrics (initialize s) \/ getMetrics s = getMetrics (resetMetrics s) ->
     processedChunks m + failedChunks m = totalChunks m).
Proof.
  intros texts. unfold processBatch.
  set (allChunks := splitDocuments splitText documents []).
  set (s0 := set_metrics _ s).
  assert (Htexts : map text allChunks = texts).
  { unfold allChunks. now rewrite (proj2 (splitDocuments_acc documents [])). }
  destruct (processAll_run (chunk (length allChunks) (or_default batchSize 10) allChunks) s0)
    as (s' & Hrun & Hmr & Ht & Hr & Hsum & Hf).
  rewrite Hrun. exists (metrics s'), s'.
  rewrite chunk_concat in Hsum, Hf;
    [|destruct batchSize as [[|n]|]; simpl; lia|lia|
      destruct batchSize as [[|n]|]; simpl; lia|lia].
  simpl in Ht, Hr, Hsum, Hf.
  split; [reflexivity|]. split; [reflexivity|].
  split; [rewrite Ht, <- Htexts, length_map; reflexivity|].
  split; [rewrite Ht; exact Hsum|]. split; [|split; [exact Hr|]].
  - rewrite Hf. f_equal. rewrite <- Htexts. clear.
    induction allChunks as [|c l IH]; simpl; [reflexivity|].
    destruct (stored_within _ _ _ _); simpl; now rewrite IH.
  - unfold getMetrics, initialize, resetMetrics. simpl.
    intros [E|E]; rewrite E in Hsum; simpl in Hsum; rewrite Ht; exact Hsum.
Qed.

End Documents.

(** ** Large documents *)

Section LargeDocument.

Variable batchSize : option nat.
Variable splitText : string -> list string.
Variable chunkProcessor : string -> nat -> bool.

Import BatchProcessor (Completion, Fulfilled, Thrown, both).

Local Abbreviation size := (or_default batchSize 10).

Lemma failures_app (l1 l2 : list string) i :
  failures chunkProcessor (l1 ++ l2) i
  = failures chunkProcessor l1 i + failures chunkProcessor l2 (i + length l1).
Proof.
  revert i. induction l1 as [|c l1 IH]; intros i; simpl.
  - now rewrite Nat.add_0_r.
  - rewrite IH. replace (S i + length l1) with (i + S (length l1)) by lia. lia.
Qed.

Lemma failures_le (l : list string) i : failures chunkProcessor l i <= length l.
Proof.
  revert i. induction l as [|c l IH]; intros i; simpl; [lia|].
  specialize (IH (S i)). destruct (chunkProcessor c i); lia.
Qed.

Lemma ran_nil i r : ran chunkProcessor [] i r r.
Proof. unfold ran. simpl. rewrite app_nil_r. repeat split; lia. Qed.

Lemma ran_app l1 l2 i r1 r2 r3 :
  ran chunkProcessor l1 i r1 r2 -> ran chunkProcessor l2 (i + length l1) r2 r3 -> ran chunkProcessor (l1 ++ l2) i r1 r3.
Proof.
  intros (Hc & Hm & Ht & Hp & Hf & Hr) (Hc' & Hm' & Ht' & Hp' & Hf' & Hr').
  pose proof (failures_le l1 i). pose proof (failures_le l2 (i + length l1)).
  unfold ran. rewrite failures_app, length_app.
  split.
  { rewrite Hc', Hc, <- app_assoc. f_equal.
    rewrite seq_app, zip_with_app by (now rewrite length_seq). reflexivity. }
  split; [congruence|]. split; [congruence|]. split; [lia|]. split; lia.
Qed.

Lemma take_length_take {A : Type} n (l : list A) :
  take (length (take n l)) l = take n l.
Proof.
  rewrite length_take. destruct (Nat.le_gt_cases n (length l)).
  - f_equal. lia.
  - replace (n `min` length l) with (length l) by lia.
    rewrite firstn_all. symmetry. apply take_ge. lia.
Qed.

Lemma mapBatch_run (batch : list string) batchIndex chunkIndex (r : Run) :
  exists r',
    mapBatch batchSize chunkProcessor batch batchIndex chunkIndex r
    = (if (0 <? failures chunkProcessor batch (batchIndex * size + chunkIndex))
          && (or_default (maxRetries (state r)) 3
              <? retryCount (metrics (state r))
                 + failures chunkProcessor batch (batchIndex * size + chunkIndex))
       then Thrown else Fulfilled, r') /\
    ran chunkProcessor batch (batchIndex * size + chunkIndex) r r'.
Proof.
  revert chunkIndex r. induction batch as [|c rest IH]; intros chunkIndex r.
  - exists r. split; [reflexivity | apply ran_nil].
  - cbn [mapBatch failures]. unfold processOne.
    set (i := batchIndex * size + chunkIndex).
    destruct (chunkProcessor c i) eqn:E.
    + match goal with
      | |- context [mapBatch _ _ rest _ _ ?x] =>
          set (r1 := x); destruct (IH (S chunkIndex) r1) as (r' & Hrun & Hran)
      end.
      rewrite Hrun. simpl state in *. simpl metrics in *.
      replace (batchIndex * size + S chunkIndex) with (S i) in * by (unfold i; lia).
      exists r'. split.
      * cbn [Nat.add]. destruct (_ && _); reflexivity.
      * apply (ran_app [c] rest i r r1 r'); [|now rewrite Nat.add_1_r].
        unfold ran. simpl. rewrite E. simpl. repeat split; lia.
    + match goal with
      | |- context [mapBatch _ _ rest _ _ ?x] =>
          set (r1 := x); destruct (IH (S chunkIndex) r1) as (r' & Hrun & Hran)
      end.
      rewrite Hrun. simpl state in *. simpl metrics in *.
      replace (batchIndex * size + S chunkIndex) with (S i) in * by (unfold i; lia).
      exists r'. split.
      * unfold set_metrics. simpl maxRetries.
        set (f := failures chunkProcessor rest (S i)).
        set (max := or_default (maxRetries (state r)) 3).
        set (rc := retryCount (metrics (state r))).
        simpl retryCount.
        replace (0 <? 1 + f) with true by (symmetry; apply Nat.ltb_lt; lia).
        destruct (max <? S rc) eqn:E1; destruct (0 <? f) eqn:E2;
          destruct (max <? S rc + f) eqn:E3; destruct (max <? rc + (1 + f)) eqn:E4;
          simpl; try reflexivity; exfalso;
          rewrite ?Nat.ltb_lt, ?Nat.ltb_ge in *; lia.
      * apply (ran_app [c] rest i r r1 r'); [|now rewrite Nat.add_1_r].
        unfold ran. simpl. rewrite E. simpl. repeat split; lia.
Qed.

Lemma forBatches_run fuel (chunks : list string) batchIndex batches (r : Run) :
  0 < size ->
  length chunks <= batchIndex * size + fuel ->
  BatchProcessor.createBatches_loop fuel size chunks (batchIndex * size) = Some batches ->
  exists c r' n,
    forBatches batchSize chunkProcessor batches batchIndex r = (c, r') /\
    n <= length (drop (batchIndex * size) chunks) /\
    ran chunkProcessor (take n (drop (batchIndex * size) chunks)) (batchIndex * size) r r' /\
    (c = Fulfilled ->
     n = length (drop (batchIndex * size) chunks) /\
     (failures chunkProcessor (drop (batchIndex * size) chunks) (batchIndex * size) = 0 \/
      retryCount (metrics (state r))
      + failures chunkProcessor (drop (batchIndex * size) chunks) (batchIndex * size)
      <= or_default (maxRetries (state r)) 3)) /\
    (c = Thrown ->
     or_default (maxRetries (state r)) 3 < retryCount (metrics (state r')) /\
     0 < failures chunkProcessor (take n (drop (batchIndex * size) chunks))
           (batchIndex * size)).
Proof.
  intros Hsize. revert batchIndex batches r.
  induction fuel as [|fuel IH]; intros batchIndex batches r Hlen; simpl.
  - replace (batchIndex * size <? length chunks) with false
      by (symmetry; apply Nat.ltb_ge; lia).
    intros [= <-]. exists Fulfilled, r, 0. split; [reflexivity|].
    rewrite drop_ge by lia. simpl. split; [lia|]. split; [apply ran_nil|].
    split; [auto | discriminate].
  - destruct (batchIndex * size <? length chunks) eqn:Hi.
    + rewrite BatchProcessorSpec.slice_from.
      replace (batchIndex * size + size) with (S batchIndex * size) by lia.
      destruct (BatchProcessor.createBatches_loop fuel size chunks (S batchIndex * size))
        as [rest|] eqn:Hrest; [|discriminate].
      intros [= <-]. cbn [forBatches].
      set (i := batchIndex * size).
      set (batch := take size (drop i chunks)).
      destruct (mapBatch_run batch batchIndex 0 r) as (r1 & Hrun & Hran).
      rewrite Nat.add_0_r in Hrun, Hran. fold i in Hrun, Hran.
      rewrite Hrun.
      apply Nat.ltb_lt in Hi.
      assert (Hbl : length batch = min size (length chunks - i)).
      { unfold batch. now rewrite length_take, length_drop. }
      destruct (_ && _) eqn:Ethrow.
      * exists Thrown, r1, (length batch). split; [reflexivity|].
        rewrite length_drop. split; [lia|]. split.
        { unfold batch at 1. rewrite take_length_take. exact Hran. }
        split; [discriminate|]. intros _.
        apply andb_true_iff in Ethrow as [E0 E].
        apply Nat.ltb_lt in E. apply Nat.ltb_lt in E0.
        unfold batch at 1. rewrite take_length_take. fold batch.
        destruct Hran as (_ & _ & _ & _ & _ & ->). split; [exact E | exact E0].
      * destruct (IH (S batchIndex) rest r1) as (c & r2 & n & Hrun2 & Hn & Hran2 & Hful & Hthr).
        { lia. }
        { exact Hrest. }
        exists c, r2, (length batch + n). split; [exact Hrun2|].
        rewrite length_drop in *.
        replace (S batchIndex * size) with (i + size) in * by (unfold i; lia).
        split; [lia|]. split.
        { assert (Hn' : n = 0 \/ length batch = size) by lia.
          replace (take (length batch + n) (drop i chunks))
            with (batch ++ take n (drop (i + size) chunks)).
          - apply (ran_app _ _ i r r1 r2 Hran).
            destruct Hn' as [-> | E]; [|now rewrite E].
            simpl. simpl in Hran2.
            destruct Hran2 as (H1 & H2 & H3 & H4 & H5 & H6). unfold ran. simpl. auto 10.
          - pose proof (BatchProcessorSpec.drop_split i size chunks) as Hsplit.
            fold batch in Hsplit. rewrite Hsplit at 1.
            now rewrite take_app_add. }
        assert (Hsplit := BatchProcessorSpec.drop_split i size chunks).
        fold batch in Hsplit.
        assert (Hfb : failures chunkProcessor batch i = 0 \/
                      retryCount (metrics (state r)) + failures chunkProcessor batch i
                      <= or_default (maxRetries (state r)) 3).
        { apply andb_false_iff in Ethrow as [E|E];
            [apply Nat.ltb_ge in E; lia | apply Nat.ltb_ge in E; lia]. }
        destruct Hran as (_ & Emr & _ & _ & _ & Erc).
        split.
        { intros Hc. apply Hful in Hc as [Hn1 Hf1]. split; [lia|].
          rewrite Hsplit, failures_app.
          assert (Hn' : drop (i + size) chunks = [] \/ length batch = size).
          { destruct (drop (i + size) chunks) eqn:Ed; [now left | right].
            apply (f_equal length) in Ed. rewrite length_drop in Ed. simpl in Ed. lia. }
          destruct Hn' as [-> | ->]; [simpl; lia|].
          rewrite Emr, Erc in Hf1. lia. }
        { intros Hc. apply Hthr in Hc as [Hc1 Hc2]. split; [rewrite <- Emr; exact Hc1|].
          assert (Hn' : n = 0 \/ length batch = size) by lia.
          destruct Hn' as [-> | E]; [simpl in Hc2; lia|].
          replace (take (length batch + n) (drop i chunks))
            with (batch ++ take n (drop (i + size) chunks))
            by (rewrite Hsplit at 1; now rewrite take_app_add).
          rewrite failures_app, E. lia. }
    + intros [= <-]. exists Fulfilled, r, 0. split; [reflexivity|].
      apply Nat.ltb_ge in Hi. rewrite drop_ge by lia. simpl.
      split; [lia|]. split; [apply ran_nil|]. split; [auto | discriminate].
Qed.

Lemma failures_take n (l : list string) i :
  failures chunkProcessor (take n l) i <= failures chunkProcessor l i.
Proof. rewrite <- (take_drop n l) at 2. rewrite failures_app. lia. Qed.

(** X15. [processLargeDocument] passes the chunks to [chunkProcessor]
    in order, each with its position in the document as index, and
    counts every chunk it passed once, as processed or as failed.  A
    failure also adds one to [retryCount], which the call does not
    reset; the call rejects as soon as a batch brings [retryCount] above
    [maxRetries], and the batches after that one are not started.  So it
    resolves exactly when no chunk fails or the failures counted so far
    plus those of this document are at most [maxRetries], and then
    every chunk was passed. *)
Theorem processLargeDocument_tolerates_maxRetries_failures (t : string) (s : State) :
  let chunks := splitText t in
  let max := or_default (maxRetries s) 3 in
  let f := failures chunkProcessor chunks 0 in
  exists c r n,
    processLargeDocument batchSize splitText chunkProcessor t s = Some (c, r) /\
    (c = Fulfilled <-> f = 0 \/ retryCount (metrics s) + f <= max) /\
    n <= length chunks /\
    called r = zip (take n chunks) (seq 0 n) /\
    totalChunks (metrics (state r)) = length chunks /\
    processedChunks (metrics (state r)) + failedChunks (metrics (state r))
    = processedChunks (metrics s) + failedChunks (metrics s) + n /\
    failedChunks (metrics (state r)) + retryCount (metrics s)
    = failedChunks (metrics s) + retryCount (metrics (state r)) /\
    (c = Fulfilled ->
     n = length chunks /\
     failedChunks (metrics (state r)) = failedChunks (metrics s) + f /\
     retryCount (metrics (state r)) = retryCount (metrics s) + f) /\
    (c = Thrown -> max < retryCount (metrics (state r))).
Proof.
  intros chunks max f. unfold processLargeDocument. fold chunks.
  assert (Hsize : 0 < size) by (destruct batchSize as [[|k]|]; simpl; lia).
  destruct (BatchProcessorSpec.createBatches_loop_spec (length chunks) size chunks 0 Hsize)
    as (batches & Hb & _); [lia|].
  rewrite Hb.
  match goal with
  | |- context [forBatches _ _ _ _ ?x] => set (r0 := x)
  end.
  destruct (forBatches_run (length chunks) chunks 0 batches r0 Hsize)
    as (c & r & n & Hrun & Hn & Hran & Hful & Hthr); [simpl; lia | exact Hb |].
  simpl in Hn, Hran, Hful, Hthr. rewrite drop_0 in *. fold f max in Hful, Hthr.
  destruct Hran as (Hc & Hmr & Ht & Hp & Hf & Hr). simpl in Hc, Hmr, Ht, Hp, Hf, Hr.
  pose proof (failures_take n chunks 0) as Hfn. fold f in Hfn.
  assert (Hlen : length (take n chunks) = n) by (rewrite length_take; lia).
  rewrite Hlen in Hc, Hp.
  exists c, r, n. split; [rewrite Hrun; reflexivity|].
  split.
  { split; [intros E; apply Hful in E as [_ E]; exact E|].
    intros Hok. destruct c; [reflexivity|].
    destruct (Hthr eq_refl) as [H1 H2]. lia. }
  split; [exact Hn|]. split; [exact Hc|]. split; [exact Ht|].
  split; [lia|]. split; [lia|]. split.
  - intros E. apply Hful in E as [-> _]. rewrite firstn_all in Hf, Hr.
    fold f in Hf, Hr. auto.
  - intros E. apply Hthr in E as [E _]. exact E.
Qed.

End LargeDocument.

Lemma processLargeDocument_tolerates_maxRetries_failures_witness :
  exists r,
    processLargeDocument (Some 2) characters fails_on_x "abxcd" three_retries
    = Some (BatchProcessor.Fulfilled, r) /\
    called r = [("a", 0); ("b", 1); ("x", 2); ("c", 3); ("d", 4)] /\
    failedChunks (metrics (state r)) = 1 /\ retryCount (metrics (state r)) = 1.
Proof.
  destruct (processLargeDocument_tolerates_maxRetries_failures (Some 2) characters fails_on_x
              "abxcd" three_retries)
    as (c & r & n & Hrun & Hiff & _ & Hc & _ & _ & _ & Hful & _).
  assert (E : c = BatchProcessor.Fulfilled) by (apply Hiff; right; vm_compute; lia).
  subst c. destruct (Hful eq_refl) as (-> & Hf & Hr).
  exists r. split; [exact Hrun|]. split; [exact Hc|]. split; [exact Hf | exact Hr].
Defined.

End ChunkBatchProcessorMore.

(** * More on the TTL cache *)

Module CacheMore.
Import Cache.

Section Facts.

Context {V : Type}.

Lemma delete_oldest_tail k (e : CacheEntry V) m :
  NoDup (map fst ((k, e) :: m)) -> delete_oldest ((k, e) :: m) = m.
Proof.
  intros H. apply NoDup_cons in H as [Hk _]. unfold delete_oldest, map_delete. simpl.
  rewrite String.eqb_refl. simpl. now apply (CacheManagerSpec.map_delete_absent k m).
Qed.

Lemma evict_loop_drop fuel limit (m : list (string * CacheEntry V)) :
  (0 < limit)%Z -> NoDup (map fst m) -> length m <= fuel ->
  evict_loop fuel limit m
  = Some (drop (Z.to_nat (Z.of_nat (length m) - limit + 1)) m).
Proof.
  intros Hl. revert m. induction fuel as [|fuel IH]; intros m Hnd Hf.
  - destruct m; [|simpl in Hf; lia]. simpl.
    destruct (limit <=? Z.of_nat 0)%Z eqn:E; [apply Z.leb_le in E; lia|].
    now rewrite drop_nil.
  - cbn [evict_loop]. destruct (limit <=? Z.of_nat (length m))%Z eqn:E.
    + apply Z.leb_le in E. destruct m as [|[k e] m]; [simpl in E; lia|].
      rewrite delete_oldest_tail by exact Hnd.
      rewrite IH; [|now apply NoDup_cons in Hnd as [_ Hnd] | simpl in Hf; lia].
      f_equal.
      replace (Z.to_nat (Z.of_nat (length ((k, e) :: m)) - limit + 1))
        with (S (Z.to_nat (Z.of_nat (length m) - limit + 1))); [reflexivity|].
      simpl length in *. lia.
    + apply Z.leb_gt in E.
      replace (Z.to_nat (Z.of_nat (length m) - limit + 1)) with 0 by lia.
      now rewrite drop_0.
Qed.

Lemma map_set_keys {A : Type} key (x : A) (m : list (string * A)) :
  map fst (map_set key x m)
  = if bool_decide (key ∈ map fst m) then map fst m else map fst m ++ [key].
Proof.
  induction m as [|[k y] m IH]; simpl; [reflexivity|].
  destruct (String.eqb k key) eqn:E; simpl.
  - apply String.eqb_eq in E. subst. rewrite bool_decide_eq_true_2 by left. reflexivity.
  - apply String.eqb_neq in E. rewrite IH.
    destruct (bool_decide (key ∈ map fst m)) eqn:B.
    + apply bool_decide_eq_true in B. rewrite bool_decide_eq_true_2 by (now right).
      reflexivity.
    + apply bool_decide_eq_false in B. rewrite bool_decide_eq_false_2; [reflexivity|].
      intros H. apply elem_of_cons in H as [->|H]; contradiction.
Qed.

Lemma map_set_NoDup {A : Type} key (x : A) (m : list (string * A)) :
  NoDup (map fst m) -> NoDup (map fst (map_set key x m)).
Proof.
  intros H. rewrite map_set_keys. destruct (bool_decide _) eqn:B; [exact H|].
  apply bool_decide_eq_false in B. apply NoDup_app. split; [exact H|].
  split; [|apply NoDup_singleton].
  intros k Hk Hk'. apply list_elem_of_singleton in Hk'. now subst.
Qed.

Lemma map_set_length {A : Type} key (x : A) (m : list (string * A)) :
  length (map_set key x m) <= S (length m).
Proof.
  rewrite <- (length_map fst), map_set_keys.
  destruct (bool_decide _); rewrite ?length_app, length_map; simpl; lia.
Qed.

Lemma NoDup_drop_keys {A : Type} n (m : list (string * A)) :
  NoDup (map fst m) -> NoDup (map fst (drop n m)).
Proof.
  intros H. rewrite <- (take_drop n m), map_app in H.
  now apply NoDup_app in H as (_ & _ & H).
Qed.

Lemma set_evicts_oldest_first_aux (c : Cache V) (now : Z) (key : string) (v : V) :
  enabled c = true ->
  (0 < maxSize c)%Z ->
  NoDup (map fst (cache c)) ->
  exists c',
    set now key v c = Some c' /\
    cache c' = map_set key {| value := v; timestamp := now |}
                 (drop (Z.to_nat (Z.of_nat (length (cache c)) - maxSize c + 1)) (cache c)) /\
    (Z.of_nat (length (cache c')) <= maxSize c)%Z /\
    NoDup (map fst (cache c')).
Proof.
  intros Hen Hmax Hnd. unfold set. rewrite Hen. simpl.
  rewrite (evict_loop_drop _ _ _ Hmax Hnd) by lia.
  eexists. split; [reflexivity|]. simpl. split; [reflexivity|].
  split.
  { match goal with |- context [map_set ?k ?e ?m] => pose proof (map_set_length k e m) as H end.
    rewrite length_drop in H. lia. }
  apply map_set_NoDup, NoDup_drop_keys, Hnd.
Qed.

(** X16. On an enabled cache with a capacity of at least one entry,
    [set] returns; the entries it evicts are the ones inserted first,
    as many as it takes to get below the capacity, whether or not the
    key is already in the cache; the others are kept in order and the
    new entry is written in the place of the key, or at the end.  The
    cache then holds at most [maxSize] entries. *)
Theorem set_evicts_oldest_first (c : Cache V) (now : Z) (key : string) (v : V) :
  enabled c = true ->
  (0 < maxSize c)%Z ->
  NoDup (map fst (cache c)) ->
  let evicted := Z.to_nat (Z.of_nat (length (cache c)) - maxSize c + 1) in
  exists c',
    set now key v c = Some c' /\
    cache c' = map_set key {| value := v; timestamp := now |} (drop evicted (cache c)) /\
    (Z.of_nat (length (cache c')) <= maxSize c)%Z /\
    NoDup (map fst (cache c')) /\
    ((Z.of_nat (length (cache c)) < maxSize c)%Z -> evicted = 0) /\
    getStats c' = {| stats_size := length (cache c'); stats_maxSize := maxSize c;
                     stats_enabled := true; stats_ttl := ttl c |}.
Proof.
  intros Hen Hmax Hnd evicted.
  destruct (set_evicts_oldest_first_aux c now key v Hen Hmax Hnd)
    as (c' & Hset & Hc & Hl & Hn).
  exists c'. split; [exact Hset|]. split; [exact Hc|]. split; [exact Hl|].
  split; [exact Hn|]. split; [unfold evicted; lia|].
  unfold set in Hset. rewrite Hen in Hset. simpl in Hset.
  destruct (evict_loop _ _ _); [|discriminate]. injection Hset as <-.
  unfold getStats. simpl. now rewrite Hen.
Qed.

(** ** The periodic clean-up *)

Lemma map_get_absent {A : Type} key (m : list (string * A)) :
  key ∉ map fst m -> map_get key m = None.
Proof.
  induction m as [|[k y] m IH]; simpl; [reflexivity|]. intros H.
  apply not_elem_of_cons in H as [Hk Hm].
  destruct (String.eqb k key) eqn:E; [apply String.eqb_eq in E; congruence|].
  auto.
Qed.

Lemma map_get_filter {A : Type} (P : string * A -> bool) key (m : list (string * A)) :
  NoDup (map fst m) ->
  map_get key (List.filter P m)
  = match map_get key m with
    | Some x => if P (key, x) then Some x else None
    | None => None
    end.
Proof.
  induction m as [|[k y] m IH]; simpl; [reflexivity|]. intros H.
  apply NoDup_cons in H as [Hk Hnd].
  destruct (String.eqb k key) eqn:E.
  - apply String.eqb_eq in E. subst. destruct (P (key, y)) eqn:EP; simpl.
    + now rewrite String.eqb_refl.
    + apply map_get_absent. intros H. apply Hk.
      apply list_elem_of_In, in_map_iff in H as ([k x] & <- & H).
      apply filter_In in H as [H _].
      apply list_elem_of_In, in_map_iff. now exists (k, x).
  - destruct (P (k, y)); simpl; [rewrite E|]; auto.
Qed.

(** X17. [cleanup] removes the entries whose TTL has elapsed and no
    other, whether the cache is enabled or not: every entry left is
    within its TTL, the entries left are in the order they had, and a
    [get] made at that time answers what it would have answered before
    the clean-up, and leaves the store as the clean-up left it. *)
Theorem cleanup_drops_expired_only (c : Cache V) (now : Z) :
  NoDup (map fst (cache c)) ->
  (forall key entry,
     (key, entry) ∈ cache (cleanup now c) <->
     (key, entry) ∈ cache c /\ (now - timestamp entry <= ttl c)%Z) /\
  sublist (cache (cleanup now c)) (cache c) /\
  (forall key,
     fst (get now key (cleanup now c)) = fst (get now key c) /\
     snd (get now key (cleanup now c)) = cleanup now c) /\
  cleanup now (cleanup now c) = cleanup now c.
Proof.
  intros Hnd. split; [|split; [|split]].
  - intros key entry. unfold cleanup. simpl.
    rewrite !list_elem_of_In, filter_In. simpl.
    rewrite negb_true_iff, Z.ltb_ge. reflexivity.
  - unfold cleanup. simpl. clear Hnd.
    induction (cache c) as [|x l IH]; simpl; [constructor|].
    destruct (negb _); [apply sublist_skip, IH | apply sublist_cons, IH].
  - intros key. unfold get, cleanup. simpl.
    destruct (enabled c); simpl; [|auto].
    rewrite map_get_filter by exact Hnd. simpl.
    destruct (map_get key (cache c)) as [entry|]; [|auto].
    destruct (ttl c <? now - timestamp entry)%Z eqn:E; simpl; [auto|].
    rewrite E. auto.
  - unfold cleanup, set_cache. simpl. f_equal. clear Hnd.
    induction (cache c) as [|x l IH]; simpl; [reflexivity|].
    destruct (negb (ttl c <? now - timestamp (snd x))%Z) eqn:E; simpl; [|exact IH].
    rewrite E. now f_equal.
Qed.

(** ** The capacity *)

Lemma filter_keys_NoDup {A : Type} (P : string * A -> bool) (m : list (string * A)) :
  NoDup (map fst m) -> NoDup (map fst (List.filter P m)).
Proof.
  induction m as [|[k e] l IH]; simpl; [auto|]. intros Hnd.
  apply NoDup_cons in Hnd as [Hk Hnd].
  destruct (P (k, e)); simpl; [|auto].
  constructor; [|auto]. intros H. apply Hk.
  apply list_elem_of_In, in_map_iff in H as ([k' x] & <- & H).
  apply filter_In in H as [H _].
  apply list_elem_of_In, in_map_iff. now exists (k', x).
Qed.

Lemma call_within_capacity (op : Call V) (c : Cache V) :
  (0 < maxSize c)%Z ->
  NoDup (map fst (cache c)) ->
  (Z.of_nat (length (cache c)) <= maxSize c)%Z ->
  exists c',
    call op c = Some c' /\
    enabled c' = enabled c /\ maxSize c' = maxSize c /\ ttl c' = ttl c /\
    NoDup (map fst (cache c')) /\
    (Z.of_nat (length (cache c')) <= maxSize c)%Z.
Proof.
  intros Hmax Hnd Hlen. destruct op as [now key | now key v | key | | now]; simpl.
  - eexists. split; [reflexivity|]. unfold get.
    destruct (enabled c) eqn:Hen; simpl; [|auto 10].
    destruct (map_get key (cache c)) as [entry|]; [|auto 10].
    destruct (ttl c <? now - timestamp entry)%Z; simpl; [|auto 10].
    split; [exact Hen|]. split; [reflexivity|]. split; [reflexivity|].
    split; [now apply CacheManagerSpec.map_delete_NoDup|].
    pose proof (CacheSpec.map_delete_length key (cache c)). lia.
  - destruct (enabled c) eqn:Hen.
    + destruct (set_evicts_oldest_first_aux c now key v Hen Hmax Hnd)
        as (c' & Hset & Hc & Hl & Hn).
      exists c'. split; [exact Hset|].
      unfold set in Hset. rewrite Hen in Hset. simpl in Hset.
      destruct (evict_loop _ _ _); [|discriminate]. injection Hset as <-. auto 10.
    + exists c. unfold set. rewrite Hen. simpl. auto 10.
  - eexists. split; [reflexivity|]. simpl.
    split; [reflexivity|]. split; [reflexivity|]. split; [reflexivity|].
    split; [now apply CacheManagerSpec.map_delete_NoDup|].
    pose proof (CacheSpec.map_delete_length key (cache c)). lia.
  - eexists. split; [reflexivity|]. simpl.
    split; [reflexivity|]. split; [reflexivity|]. split; [reflexivity|].
    split; [constructor | lia].
  - eexists. split; [reflexivity|]. simpl.
    split; [reflexivity|]. split; [reflexivity|]. split; [reflexivity|]. split.
    + now apply filter_keys_NoDup.
    + pose proof (List.filter_length_le (fun x => negb (ttl c <? now - timestamp (snd x))%Z)
                    (cache c)). lia.
Qed.

(** X18. Whatever is called on a cache built with a capacity of at
    least one entry, in whatever order and at whatever times, every
    call returns, the cache never holds more than [maxSize] entries, and
    its settings do not change. *)
Theorem cache_never_exceeds_maxSize (o : CacheOptions) (ops : list (Call V)) :
  (0 < nullish (opt_maxSize o) 1000)%Z ->
  exists c,
    calls ops (constructor o) = Some c /\
    (Z.of_nat (stats_size (getStats c)) <= stats_maxSize (getStats c))%Z /\
    NoDup (map fst (cache c)) /\
    stats_maxSize (getStats c) = nullish (opt_maxSize o) 1000%Z /\
    stats_enabled (getStats c) = nullish (opt_enabled o) true /\
    stats_ttl (getStats c) = nullish (opt_ttl o) (24 * 60 * 60 * 1000)%Z.
Proof.
  intros Hmax.
  assert (H : forall (c : Cache V),
             (0 < maxSize c)%Z -> NoDup (map fst (cache c)) ->
             (Z.of_nat (length (cache c)) <= maxSize c)%Z ->
             exists c', calls ops c = Some c' /\
                        enabled c' = enabled c /\ maxSize c' = maxSize c /\
                        ttl c' = ttl c /\ NoDup (map fst (cache c')) /\
                        (Z.of_nat (length (cache c')) <= maxSize c)%Z).
  { induction ops as [|op rest IH]; intros c Hm Hnd Hlen; simpl.
    - exists c. auto 10.
    - destruct (call_within_capacity op c Hm Hnd Hlen)
        as (c1 & -> & He & Hms & Ht & Hnd1 & Hl1).
      destruct (IH c1) as (c2 & Hrun & He2 & Hms2 & Ht2 & Hnd2 & Hl2);
        [lia | exact Hnd1 | lia |].
      exists c2. split; [exact Hrun|]. split; [congruence|]. split; [congruence|].
      split; [congruence|]. split; [exact Hnd2 | lia]. }
  destruct (H (constructor o)) as (c & Hrun & He & Hms & Ht & Hnd & Hl).
  - exact Hmax.
  - constructor.
  - simpl. lia.
  - exists c. unfold getStats. simpl. rewrite He, Hms, Ht. simpl in Hl. auto 10.
Qed.

End Facts.

Lemma set_evicts_oldest_first_witness :
  exists c',
    set 5 "b" 4%Z full = Some c' /\
    map fst (cache c') = ["b"; "c"] /\ fst (get 5 "a" c') = None.
Proof.
  destruct (set_evicts_oldest_first full 5 "b" 4%Z) as (c' & Hset & Hc & _).
  - reflexivity.
  - reflexivity.
  - apply (bool_decide_unpack _). vm_compute. exact I.
  - exists c'. split; [exact Hset|]. vm_compute in Hset. injection Hset as <-.
    split; reflexivity.
Defined.

Lemma cleanup_drops_expired_only_witness :
  let c := {| cache := cache full; enabled := false; maxSize := 3; ttl := 3 |} in
  map fst (cache (cleanup 4 c)) = ["b"; "c"] /\
  cleanup 4 (cleanup 4 c) = cleanup 4 c.
Proof.
  intros c. split; [reflexivity|].
  apply (cleanup_drops_expired_only c 4).
  apply (bool_decide_unpack _). vm_compute. exact I.
Defined.

Lemma cache_never_exceeds_maxSize_witness :
  exists c,
    calls [CSet 0 "a" 1%Z; CSet 1 "b" 2%Z; CSet 2 "c" 3%Z; CGet 3 "a"; CCleanup 9]
      (constructor {| opt_enabled := None; opt_maxSize := Some 2%Z; opt_ttl := None |})
    = Some c /\
    (Z.of_nat (stats_size (getStats c)) <= 2)%Z.
Proof.
  destruct (cache_never_exceeds_maxSize
              {| opt_enabled := None; opt_maxSize := Some 2%Z; opt_ttl := None |}
              [CSet 0 "a" 1%Z; CSet 1 "b" 2%Z; CSet 2 "c" 3%Z; CGet 3 "a"; CCleanup 9])
    as (c & Hrun & Hl & _ & Hm & _).
  - simpl. lia.
  - exists c. split; [exact Hrun|]. rewrite Hm in Hl. exact Hl.
Defined.

End CacheMore.

(** * More on the query cache *)

Module CacheManagerMore.
Import CacheManager.

Section Facts.

Context {V : Type}.
Variable sha256 : string -> string.
Variable quote : string -> string.

Ltac break_get :=
  repeat match goal with
         | |- context [match map_get ?k ?m with _ => _ end] =>
             destruct (map_get k m) eqn:?; simpl
         | |- context [if expired ?n ?w then _ else _] =>
             destruct (expired n w) eqn:?; simpl
         | |- context [if (?a <=? ?b) then _ else _] =>
             destruct (a <=? b) eqn:?; simpl
         end.

Ltac bound_store :=
  repeat match goal with
         | H : (_ <=? _) = false |- _ => apply Nat.leb_gt in H
         | H : (_ <=? _) = true |- _ => apply Nat.leb_le in H
         end;
  repeat match goal with
         | |- context [length (map_set ?k ?x ?m)] =>
             lazymatch goal with
             | _ : length (map_set k x m) <= S (length m) |- _ => fail
             | _ => pose proof (CacheMore.map_set_length k x m)
             end
         | |- context [length (map_delete ?k ?m)] =>
             lazymatch goal with
             | _ : length (map_delete k m) <= length m |- _ => fail
             | _ => pose proof (CacheSpec.map_delete_length k m)
             end
         | _ : context [length (map_delete ?k ?m)] |- _ =>
             lazymatch goal with
             | _ : length (map_delete k m) <= length m |- _ => fail
             | _ => pose proof (CacheSpec.map_delete_length k m)
             end
         end.

(** X19. Once the key is computed, a call of [get] returns, counts
    one query, and counts at most one hit or one miss; it never brings
    the store above [maxKeys] entries, and it answers with a value only
    if that value was in the store or was fetched. *)
Theorem get_counts_one_query query filters fetch ttl now (cm : CacheManager V) key :
  generateKey sha256 quote query filters = Ok key ->
  exists r cm',
    get sha256 quote query filters fetch ttl now cm = (Ok r, cm') /\
    queries (metrics cm') = S (queries (metrics cm)) /\
    hits (metrics cm) <= hits (metrics cm') /\
    misses (metrics cm) <= misses (metrics cm') /\
    hits (metrics cm') + misses (metrics cm') <= S (hits (metrics cm) + misses (metrics cm)) /\
    maxKeys (cache cm') = maxKeys (cache cm) /\
    (length (data (cache cm)) <= maxKeys (cache cm) ->
     length (data (cache cm')) <= maxKeys (cache cm)) /\
    (forall o, r = Some o ->
       (exists w, map_get key (data (cache cm)) = Some w /\ v w = o /\
                  expired now w = false /\
                  hits (metrics cm') = S (hits (metrics cm))) \/
       (fetch = Some (Ok o) /\ misses (metrics cm') = S (misses (metrics cm)))).
Proof.
  intros Hkey. unfold get. rewrite Hkey.
  unfold try_catch, bind, cache_get, cache_set, nc_get, nc_set, count_hit, count_miss,
    updateMetrics, ret, await.
  simpl.
  destruct (map_get key (data (cache cm))) as [w|] eqn:Hget; simpl.
  - destruct (expired now w) eqn:Hexp; simpl.
    + destruct fetch as [[o|e]|]; simpl; break_get;
        (eexists; eexists; split; [reflexivity|]); simpl;
        (split; [reflexivity|]); (split; [lia|]); (split; [lia|]); (split; [lia|]);
        (split; [reflexivity|]); (split; [intros Hle; bound_store; lia|]);
        intros o' [=]; subst; right; auto.
    + break_get;
        (eexists; eexists; split; [reflexivity|]); simpl;
        (split; [reflexivity|]); (split; [lia|]); (split; [lia|]); (split; [lia|]);
        (split; [reflexivity|]); (split; [intros Hle; bound_store; lia|]);
        intros o' [=]; subst; left; eauto.
  - destruct fetch as [[o|e]|]; simpl; break_get;
      (eexists; eexists; split; [reflexivity|]); simpl;
      (split; [reflexivity|]); (split; [lia|]); (split; [lia|]); (split; [lia|]);
      (split; [reflexivity|]); (split; [intros Hle; bound_store; lia|]);
      intros o' [=]; subst; right; auto.
Qed.

(** ** A store at capacity *)

(** X21. When the store holds [maxKeys] entries or more, [set] of
    [node-cache] throws, and [get] turns that into [null]: a value that
    is in the store is not returned when its metadata entry is there
    too (the write that refreshes the access count fails), and neither
    a hit nor a miss is counted; a query that is not in the store is
    answered by [null] also when the fetch function returned a value,
    which is dropped.  Only a stored value without metadata entry is
    returned.  The store is left as it was, and one query is counted. *)
Theorem get_at_capacity_answers_null query filters fetch ttl now (cm : CacheManager V) key :
  generateKey sha256 quote query filters = Ok key ->
  maxKeys (cache cm) <= length (data (cache cm)) ->
  (forall w, map_get key (data (cache cm)) = Some w -> expired now w = false) ->
  (forall w, map_get (String.append key "_metadata") (data (cache cm)) = Some w ->
             expired now w = false) ->
  exists r cm',
    get sha256 quote query filters fetch ttl now cm = (Ok r, cm') /\
    cache cm' = cache cm /\
    queries (metrics cm') = S (queries (metrics cm)) /\
    (forall w, map_get key (data (cache cm)) = Some w ->
       is_Some (map_get (String.append key "_metadata") (data (cache cm))) ->
       r = None /\ hits (metrics cm') = hits (metrics cm) /\
       misses (metrics cm') = misses (metrics cm)) /\
    (forall w, map_get key (data (cache cm)) = Some w ->
       map_get (String.append key "_metadata") (data (cache cm)) = None ->
       r = Some (v w) /\ hits (metrics cm') = S (hits (metrics cm))) /\
    (map_get key (data (cache cm)) = None ->
       r = None /\ misses (metrics cm') = S (misses (metrics cm)) /\
       hits (metrics cm') = hits (metrics cm)).
Proof.
  intros Hkey Hfull Hv Hm. unfold get. rewrite Hkey.
  unfold try_catch, bind, cache_get, cache_set, nc_get, nc_set, count_hit, count_miss,
    updateMetrics, ret, await.
  simpl. apply Nat.leb_le in Hfull.
  destruct (map_get key (data (cache cm))) as [w|] eqn:Hget; simpl.
  - rewrite (Hv w eq_refl). simpl.
    destruct (map_get (String.append key "_metadata") (data (cache cm))) as [wm|] eqn:Hmeta;
      simpl.
    + rewrite (Hm wm eq_refl). simpl. rewrite Hfull. simpl.
      eexists. eexists. split; [reflexivity|]. simpl.
      split; [destruct cm; reflexivity|]. split; [reflexivity|].
      split; [auto|]. split; [|discriminate].
      intros w' _ [=].
    + eexists. eexists. split; [reflexivity|]. simpl.
      split; [destruct cm; reflexivity|]. split; [reflexivity|].
      split; [intros w' _ [x [=]]|]. split; [|discriminate].
      intros w' [= <-] _. auto.
  - destruct fetch as [[o|e]|]; simpl; rewrite ?Hfull; simpl;
      (eexists; eexists; split; [reflexivity|]); simpl;
      (split; [destruct cm; reflexivity|]); (split; [reflexivity|]);
      (split; [discriminate|]); (split; [discriminate|]); auto.
Qed.

(** ** From a fetch to a hit *)

Lemma append_ne (a b : string) : b <> ""%string -> String.append a b <> a.
Proof.
  intros Hb H. apply (f_equal String.length) in H.
  assert (Hl : forall x y, String.length (String.append x y)
                           = String.length x + String.length y).
  { clear. induction x as [|c x IH]; intros y; simpl; [reflexivity | now rewrite IH]. }
  rewrite Hl in H. destruct b; [contradiction | simpl in H; lia].
Qed.

Lemma map_set_absent {A : Type} key (x : A) (m : list (string * A)) :
  map_get key m = None -> map_set key x m = m ++ [(key, x)].
Proof.
  induction m as [|[k y] m IH]; simpl; [reflexivity|].
  destruct (String.eqb k key); [discriminate|]. intros H. now rewrite IH.
Qed.

Lemma map_set_app_r {A : Type} key (x : A) (m1 m2 : list (string * A)) :
  map_get key m1 = None -> map_set key x (m1 ++ m2) = m1 ++ map_set key x m2.
Proof.
  induction m1 as [|[k y] m1 IH]; simpl; [reflexivity|].
  destruct (String.eqb k key); [discriminate|]. intros H. now rewrite IH.
Qed.

Lemma map_get_app_absent {A : Type} key (m1 m2 : list (string * A)) :
  map_get key m1 = None -> map_get key (m1 ++ m2) = map_get key m2.
Proof.
  induction m1 as [|[k y] m1 IH]; simpl; [reflexivity|].
  destruct (String.eqb k key); [discriminate | exact IH].
Qed.

(** X20. A query that is not in the store is fetched, and its value
    and a metadata entry with an access count of 1 are stored, when the
    store has room for both.  While neither entry has expired, the next
    [get] for the same query and filters returns that value without
    calling a fetch function, counts a hit and brings the access count
    to 2 (the store needs room for one more entry for that write to be
    accepted). *)
Theorem fetched_value_is_served_from_the_cache
    query filters (o : Obj V) ttl fetch' ttl' now now' (cm : CacheManager V) key :
  generateKey sha256 quote query filters = Ok key ->
  map_get key (data (cache cm)) = None ->
  map_get (String.append key "_metadata") (data (cache cm)) = None ->
  length (data (cache cm)) + 2 < maxKeys (cache cm) ->
  (now' <= nc_wrap now ttl (cache cm))%Z ->
  (now' <= nc_wrap now None (cache cm))%Z ->
  let first := get sha256 quote query filters (Some (Ok o)) ttl now cm in
  let second := get sha256 quote query filters fetch' ttl' now' (snd first) in
  fst first = Ok (Some o) /\
  fst second = Ok (Some o) /\
  hits (metrics (snd second)) = S (hits (metrics cm)) /\
  misses (metrics (snd second)) = S (misses (metrics cm)) /\
  queries (metrics (snd second)) = S (S (queries (metrics cm))) /\
  data (cache (snd second))
  = data (cache cm)
    ++ [(key, {| t := nc_wrap now ttl (cache cm); v := o |});
        (String.append key "_metadata",
         {| t := nc_wrap now' None (cache cm);
            v := {| _accessCount := Some 2%Z;
                    content := Metadata now query filters |} |})].
Proof.
  intros Hkey Hget Hmeta Hroom Hfresh Hfresh' first second.
  assert (Hne : String.eqb key (String.append key "_metadata") = false).
  { apply String.eqb_neq. intros H. symmetry in H. revert H. now apply append_ne. }
  assert (Hexp : forall T (x : Obj V), (now' <= T)%Z -> expired now' {| t := T; v := x |} = false).
  { intros T x HT. unfold expired. simpl.
    destruct (T =? 0)%Z; simpl; [reflexivity|]. apply Z.ltb_ge. lia. }
  set (w1 := {| t := nc_wrap now ttl (cache cm); v := o |}).
  set (w2 := {| t := nc_wrap now None (cache cm);
                v := {| _accessCount := Some 1%Z; content := Metadata now query filters |} |}
             : Wrapped V).
  assert (H1 : first = (Ok (Some o),
                        set_metrics {| hits := hits (metrics cm);
                                       misses := S (misses (metrics cm));
                                       queries := S (queries (metrics cm)) |}
                          (set_nodecache
                             (set_data (data (cache cm) ++ [(key, w1);
                                          (String.append key "_metadata", w2)]) (cache cm))
                             cm))).
  { unfold first, get. rewrite Hkey.
    unfold try_catch, bind, cache_get, cache_set, nc_get, nc_set, count_hit, count_miss,
      updateMetrics, ret, await.
    simpl. rewrite Hget. simpl.
    replace (maxKeys (cache cm) <=? length (data (cache cm))) with false
      by (symmetry; apply Nat.leb_gt; lia).
    simpl. rewrite (map_set_absent key _ _ Hget), length_app. simpl.
    replace (maxKeys (cache cm) <=? length (data (cache cm)) + 1) with false
      by (symmetry; apply Nat.leb_gt; lia).
    simpl. rewrite map_set_app_r by exact Hmeta. simpl. rewrite Hne. reflexivity. }
  assert (H2 : second = (Ok (Some o),
                         set_metrics {| hits := S (hits (metrics cm));
                                        misses := S (misses (metrics cm));
                                        queries := S (S (queries (metrics cm))) |}
                           (set_nodecache
                              (set_data
                                 (data (cache cm)
                                  ++ [(key, w1);
                                      (String.append key "_metadata",
                                       {| t := nc_wrap now' None (cache cm);
                                          v := {| _accessCount := Some 2%Z;
                                                  content := Metadata now query filters |} |})])
                                 (cache cm))
                              cm))).
  { unfold second. rewrite H1. unfold get. rewrite Hkey.
    unfold try_catch, bind, cache_get, cache_set, nc_get, nc_set, count_hit, count_miss,
      updateMetrics, ret, await.
    simpl. rewrite (map_get_app_absent key _ _ Hget). simpl. rewrite String.eqb_refl.
    unfold w1 at 1. rewrite Hexp by exact Hfresh. simpl.
    rewrite (map_get_app_absent _ _ _ Hmeta). simpl. rewrite Hne, String.eqb_refl.
    unfold w2 at 1. rewrite Hexp by exact Hfresh'. simpl.
    rewrite length_app. simpl.
    replace (maxKeys (cache cm) <=? length (data (cache cm)) + 2) with false
      by (symmetry; apply Nat.leb_gt; lia).
    simpl. rewrite map_set_app_r by exact Hmeta. simpl. rewrite Hne, String.eqb_refl.
    reflexivity. }
  rewrite H2, H1. simpl. auto 10.
Qed.

End Facts.

Lemma get_at_capacity_answers_null_witness :
  length (data (cache after_five_fetches)) = 10 /\
  is_Some (map_get "{query:q1}" (data (cache after_five_fetches))) /\
  fst (get (fun s => s) (fun s => s) "q1" JUndefined None None 0 after_five_fetches)
  = Ok None.
Proof.
  split; [reflexivity|]. split; [eexists; reflexivity|].
  destruct (get_at_capacity_answers_null (fun s => s) (fun s => s) "q1" JUndefined None None 0
              after_five_fetches "{query:q1}") as (r & cm' & Hrun & _ & _ & Hhit & _).
  - reflexivity.
  - vm_compute. lia.
  - intros w. vm_compute. intros [= <-]. reflexivity.
  - intros w. vm_compute. intros [= <-]. reflexivity.
  - rewrite Hrun. simpl. f_equal.
    eapply Hhit; [reflexivity | eexists; reflexivity].
Defined.

Lemma get_counts_one_query_witness :
  exists r cm',
    get (fun s => s) (fun s => s) "q6" JUndefined (Some (Ok (fetched 0))) None 0
      after_five_fetches = (Ok r, cm') /\
    queries (metrics cm') = 6 /\ length (data (cache cm')) <= 10.
Proof.
  destruct (get_counts_one_query (fun s => s) (fun s => s) "q6" JUndefined
              (Some (Ok (fetched 0))) None 0 after_five_fetches "{query:q6}" eq_refl)
    as (r & cm' & Hrun & Hq & _ & _ & _ & _ & Hlen & _).
  exists r, cm'. split; [exact Hrun|]. split; [exact Hq|].
  apply Hlen. vm_compute. lia.
Defined.

Lemma fetched_value_is_served_from_the_cache_witness :
  let cm := constructor {| cfg_stdTTL := None; cfg_checkperiod := None;
                           cfg_maxKeys := Some 10; cfg_useClones := None |} in
  let first := get (fun s => s) (fun s => s) "q" JUndefined (Some (Ok (fetched 7))) None 0 cm in
  let second := get (fun s => s) (fun s => s) "q" JUndefined None None 5 (snd first) in
  fst second = Ok (Some (fetched 7)) /\ hits (metrics (snd second)) = 1.
Proof.
  intros cm first second.
  destruct (fetched_value_is_served_from_the_cache (fun s => s) (fun s => s) "q" JUndefined
              (fetched 7) None None None 0 5 cm "{query:q}")
    as (_ & H2 & H3 & _).
  - reflexivity.
  - reflexivity.
  - reflexivity.
  - vm_compute. lia.
  - vm_compute. discriminate.
  - vm_compute. discriminate.
  - split; [exact H2 | exact H3].
Defined.

End CacheManagerMore.
